(** * Kleem-AI: the node-graph canvas controller

    A shallow embedding of the graph orchestration code of the canvas
    component ([CanvasContent]: history, navigation, node creation, command
    interpretation, deletion) and of [interpretAgentCommand] from
    [services/geminiService.ts], followed by the properties of the
    specification that concern them.

    Conventions of the embedding.
    - JavaScript values that reach the controller untyped ([any]) are
      [Js.value]; canvas coordinates and timestamps are integers ([Z]).
    - Function-valued fields of a node's [data] ([onNavigate], [onStart],
      [onSelectModule], ...) are not data and are left out of [Node.data];
      the closures they hold are described below.
    - The component function runs once per render.  A handler defined in its
      body closes over the values of that render ([nodes], [edges],
      [focusedNodeId], [sessions]); these captured values are a [Render].
      A handler reached from the toolbar, the keyboard or a React Flow
      callback belongs to the current render; a handler stored inside a
      node's [data], or run from a timer, belongs to the render that stored
      it.  State setters with an updater function, and the React Flow
      instance ([getNode], [getNodes], [getEdges]), act on the live state.
    - [Date.now()], the generative model's reply, [JSON.parse] and the
      pointer position are inputs of a transition. *)

From Stdlib Require Import List String Ascii ZArith Lia Bool Arith.
From Stdlib Require Import Permutation Sorted DecimalString DecimalZ.
Import ListNotations.

Set Warnings "-register-all".

Local Open Scope string_scope.
Local Open Scope list_scope.

(* ================================================================== *)
(** * String built-ins *)
(* ================================================================== *)

(** A string holds the UTF-8 bytes of the JavaScript string.  The
    characters the built-ins below look for are ASCII, or are recognised
    by their byte sequence. *)
Module Text.

Definition bytes (codes : list nat) : list ascii := map ascii_of_nat codes.

(** [l] starts with [p]: what follows [p]. *)
Fixpoint strip (p l : list ascii) : option (list ascii) :=
  match p, l with
  | [], _ => Some l
  | _ :: _, [] => None
  | a :: p', b :: l' => if Ascii.eqb a b then strip p' l' else None
  end.

(** The white space and line terminator characters [trim] removes: TAB,
    LF, VT, FF, CR, SP, U+00A0, U+1680, U+2000 to U+200A, U+2028, U+2029,
    U+202F, U+205F, U+3000 and U+FEFF. *)
Definition white_space : list (list ascii) :=
  map bytes
    [ [9]; [10]; [11]; [12]; [13]; [32];
      [194; 160];
      [225; 154; 128];
      [226; 128; 128]; [226; 128; 129]; [226; 128; 130]; [226; 128; 131];
      [226; 128; 132]; [226; 128; 133]; [226; 128; 134]; [226; 128; 135];
      [226; 128; 136]; [226; 128; 137]; [226; 128; 138];
      [226; 128; 168]; [226; 128; 169];
      [226; 128; 175];
      [226; 129; 159];
      [227; 128; 128];
      [239; 187; 191] ].

(** What follows the first pattern of [ps] that [l] starts with. *)
Fixpoint strip_any (ps : list (list ascii)) (l : list ascii)
  : option (list ascii) :=
  match ps with
  | [] => None
  | p :: rest =>
      match strip p l with
      | Some l' => Some l'
      | None => strip_any rest l
      end
  end.

Fixpoint drop_white (ps : list (list ascii)) (fuel : nat) (l : list ascii)
  : list ascii :=
  match fuel with
  | O => l
  | S fuel' =>
      match strip_any ps l with
      | Some l' => drop_white ps fuel' l'
      | None => l
      end
  end.

Definition trimStart_bytes (l : list ascii) : list ascii :=
  drop_white white_space (List.length l) l.

Definition trimEnd_bytes (l : list ascii) : list ascii :=
  rev (drop_white (map (@rev ascii) white_space) (List.length l) (rev l)).

(** [s.trim()] *)
Definition trim (s : string) : string :=
  string_of_list_ascii (trimEnd_bytes (trimStart_bytes (list_ascii_of_string s))).

(** [s.startsWith(p)] *)
Definition startsWith (p s : string) : bool := String.prefix p s.

(** [s.endsWith(p)] *)
Definition endsWith (p s : string) : bool :=
  match strip (rev (list_ascii_of_string p)) (rev (list_ascii_of_string s)) with
  | Some _ => true
  | None => false
  end.

(** [s.repeat(n)] *)
Fixpoint repeat (s : string) (n : nat) : string :=
  match n with
  | O => ""
  | S n' => s ++ repeat s n'
  end.

(** [s.split(sep)] for a separator of one character: the pieces of [s]
    between the separators, one piece at least. *)
Fixpoint split (sep : ascii) (s : string) : list string :=
  match s with
  | EmptyString => [ "" ]
  | String c rest =>
      if Ascii.eqb c sep then "" :: split sep rest
      else match split sep rest with
           | piece :: pieces => String c piece :: pieces
           | [] => [ String c "" ]
           end
  end.

(** A line terminator starts [s]: LF, CR, U+2028 or U+2029. *)
Definition at_line_terminator (s : string) : bool :=
  match strip_any (map bytes [ [10]; [13]; [226; 128; 168]; [226; 128; 169] ])
          (list_ascii_of_string s) with
  | Some _ => true
  | None => false
  end.

(** [(.*?);] matched at the start of [s]: the characters before the first
    semicolon, when no line terminator comes before it. *)
Fixpoint until_semicolon (s : string) : option string :=
  match s with
  | EmptyString => None
  | String c rest =>
      if Ascii.eqb c ";" then Some ""
      else if at_line_terminator s then None
      else option_map (String c) (until_semicolon rest)
  end.

(** [s.match(/:(.*?);/)]: the first group of the leftmost match. *)
Fixpoint match_colon_semicolon (s : string) : option string :=
  match s with
  | EmptyString => None
  | String c rest =>
      if Ascii.eqb c ":" then
        match until_semicolon rest with
        | Some group => Some group
        | None => match_colon_semicolon rest
        end
      else match_colon_semicolon rest
  end.

(** The double quote. *)
Definition quote : string := String (ascii_of_nat 34) "".

(** The line feed. *)
Definition nl : string := String (ascii_of_nat 10) "".

End Text.

(* ================================================================== *)
(** * JavaScript values *)
(* ================================================================== *)

Module Js.

Inductive value : Type :=
| Undefined
| Null
| Bool (b : bool)
| Num (n : Z)
| Str (s : string)
| Arr (items : list value)
| Obj (fields : list (string * value)).

(** An object literal: its own enumerable properties, in insertion order. *)
Definition object : Type := list (string * value).

(** [ToBoolean]: the values an [if], [!] or [||] treats as false are
    [undefined], [null], [false], [0] and the empty string. *)
Definition truthy (v : value) : bool :=
  match v with
  | Undefined | Null => false
  | Bool b => b
  | Num n => negb (n =? 0)%Z
  | Str s => negb (s =? "")
  | Arr _ | Obj _ => true
  end.

(** [a || b] *)
Definition or_else (a b : value) : value := if truthy a then a else b.

(** Decimal rendering of an integer, as in a template literal. *)
Definition dec (n : Z) : string := NilZero.string_of_int (Z.to_int n).

(** [String(v)], the conversion a template literal applies. *)
Fixpoint to_string (v : value) : string :=
  match v with
  | Undefined => "undefined"
  | Null => "null"
  | Bool true => "true"
  | Bool false => "false"
  | Num n => dec n
  | Str s => s
  | Arr items =>
      String.concat ","
        (map (fun i => match i with
                       | Undefined | Null => ""
                       | _ => to_string i
                       end) items)
  | Obj _ => "[object Object]"
  end.

(** [o] has a property [k] of its own. *)
Definition has_own (k : string) (o : list (string * value)) : bool :=
  existsb (fun kv => fst kv =? k) o.

(** [`${v}`] where the conversion can fail: [None] is the [TypeError] of
    [ToPrimitive].  The values here are data, so a [toString] that an
    object has of its own is not a function, and the [valueOf] it has or
    inherits does not give a primitive either; an array is joined, and the
    conversion of an element can fail in the same way. *)
Fixpoint template (v : value) : option string :=
  match v with
  | Arr items =>
      option_map (String.concat ",")
        ((fix each (l : list value) : option (list string) :=
            match l with
            | [] => Some []
            | i :: rest =>
                match match i with
                      | Undefined | Null => Some ""
                      | _ => template i
                      end, each rest with
                | Some t, Some ts => Some (t :: ts)
                | _, _ => None
                end
            end) items)
  | Obj fields =>
      if has_own "toString" fields then None else Some "[object Object]"
  | _ => Some (to_string v)
  end.

(** [o.k] on an object literal: [undefined] when the key is absent. *)
Fixpoint get (k : string) (o : object) : value :=
  match o with
  | [] => Undefined
  | (k', v) :: rest => if k' =? k then v else get k rest
  end.

(** [o.k = v]: overwrite in place, or append a new key. *)
Fixpoint set (k : string) (v : value) (o : object) : object :=
  match o with
  | [] => [(k, v)]
  | (k', v') :: rest =>
      if k' =? k then (k, v) :: rest else (k', v') :: set k v rest
  end.

Definition indexed (items : list value) : object :=
  combine (map (fun i => dec (Z.of_nat i)) (seq 0 (List.length items))) items.

(** The own enumerable properties an object spread [...v] copies. *)
Definition own_props (v : value) : object :=
  match v with
  | Obj fields => fields
  | Arr items => indexed items
  | Str s => indexed (map (fun c => Str (String c "")) (list_ascii_of_string s))
  | Undefined | Null | Bool _ | Num _ => []
  end.

(** [{ ...o, ...v }] *)
Definition spread (o : object) (v : value) : object :=
  fold_left (fun acc kv => set (fst kv) (snd kv) acc) (own_props v) o.

(** [v.k] for a key that is not a built-in member ([type], [data]):
    reading a property of [null] or [undefined] throws a [TypeError],
    which is [None] here. *)
Definition member (v : value) (k : string) : option value :=
  match v with
  | Undefined | Null => None
  | Obj fields => Some (get k fields)
  | Bool _ | Num _ | Str _ | Arr _ => Some Undefined
  end.

(** [v === 'lit'] *)
Definition is_str (lit : string) (v : value) : bool :=
  match v with
  | Str s => s =? lit
  | _ => false
  end.

(** [!s.trim()] for a string: true when nothing is left of [s] once the
    white space and the line terminators at its ends are removed. *)
Definition blank (s : string) : bool := Text.trim s =? "".

(** An optional string argument used as a condition ([if (parentId)],
    [explicitId || ...]): absent and empty are both false. *)
Definition present (o : option string) : option string :=
  match o with
  | Some s => if s =? "" then None else Some s
  | None => None
  end.

End Js.

(* ================================================================== *)
(** * Promises and exceptions *)
(* ================================================================== *)

(** The outcome of an [async] function or of a [try] block: it completes
    with a value or it throws (the promise rejects). *)
Inductive Promise (A : Type) : Type :=
| Resolved (a : A)
| Rejected (err : string).

Arguments Resolved {A} a.
Arguments Rejected {A} err.

Definition bind {A B : Type} (m : Promise A) (k : A -> Promise B) : Promise B :=
  match m with
  | Resolved a => k a
  | Rejected e => Rejected e
  end.

Definition try_catch {A : Type} (body : Promise A) (handler : string -> Promise A)
  : Promise A :=
  match body with
  | Resolved a => Resolved a
  | Rejected e => handler e
  end.

Notation "x <- m ;; k" := (bind m (fun x => k))
  (at level 61, m at next level, right associativity).

(* ================================================================== *)
(** * services/geminiService.ts: command interpretation *)
(* ================================================================== *)

Module Gemini.

(** What [ai.models.generateContent] does for one request: it throws, or
    it returns a response whose [text] may be missing. *)
Inductive GenerateContentResponse : Type :=
| GenerateThrows (err : string)
| GenerateReturns (text : option string).

(** The collaborators of one call: [getAIClient()], which builds the
    client with [new GoogleGenAI({ apiKey })] or throws; the model, asked
    with the prompt built from the command and the text of the context;
    and [JSON.parse], which throws a [SyntaxError] ([None]) on text that is
    not JSON. *)
Record Env : Type := {
  getAIClient : Promise unit;
  generateContent : string -> string -> GenerateContentResponse;
  JSON_parse : string -> option Js.value
}.

(** [response.text || "{}"] *)
Definition text_or_empty_object (text : option string) : string :=
  match Js.present text with
  | Some t => t
  | None => "{}"
  end.

(** [{ type: 'study', data: { topic: command || context || 'General Topic' } }] *)
Definition fallback (command : string) (context : Js.value) : Js.value :=
  Js.Obj
    [ ("type", Js.Str "study");
      ("data",
        Js.Obj [ ("topic",
                   Js.or_else (Js.or_else (Js.Str command) context)
                              (Js.Str "General Topic")) ]) ].

(** [await ai.models.generateContent(...)], with the prompt that holds
    [command] and the text [context] of the context. *)
Definition await_generate (env : Env) (command context : string)
  : Promise (option string) :=
  match generateContent env command context with
  | GenerateThrows e => Rejected e
  | GenerateReturns text => Resolved text
  end.

Definition parse (env : Env) (text : string) : Promise Js.value :=
  match JSON_parse env text with
  | Some v => Resolved v
  | None => Rejected "SyntaxError"
  end.

(** The prompt, a template literal that holds [`${context}`]: the text of
    the context, or the [TypeError] of the conversion. *)
Definition promptContext (context : Js.value) : Promise string :=
  match Js.template context with
  | Some text => Resolved text
  | None => Rejected "TypeError"
  end.

(** [interpretAgentCommand(command, context)]: the client and the prompt
    are built first, outside the [try], so what they throw rejects the
    promise; the request and the parse are inside the [try], whose [catch]
    returns the fallback directive. *)
Definition interpretAgentCommand (env : Env) (command : string) (context : Js.value)
  : Promise Js.value :=
  ai <- getAIClient env ;;
  text <- promptContext context ;;
  try_catch
    (response <- await_generate env command text ;;
     parse env (text_or_empty_object response))
    (fun _ => Resolved (fallback command context)).

End Gemini.

(* ================================================================== *)
(** * The canvas controller: data model *)
(* ================================================================== *)

Module Position.
Record t : Type := mk { x : Z; y : Z }.
End Position.

(** A React Flow node, with the fields the controller reads or writes
    ([style] and [dragHandle] are presentation only). *)
Module Node.
Record t : Type := mk {
  id : string;
  type : Js.value;
  position : Position.t;
  data : Js.object;
  selected : bool
}.
End Node.

Module Edge.
Record t : Type := mk {
  id : string;
  source : string;
  target : string;
  sourceHandle : option string;
  targetHandle : option string
}.
End Edge.

(** [types.ts] *)
Record CourseModule : Type := {
  module_id : string;
  module_title : string;
  module_description : string;
  module_concepts : list string
}.

Record Course : Type := {
  course_id : string;
  course_title : string;
  course_description : string;
  course_modules : list CourseModule
}.

Record Session : Type := {
  session_id : string;
  session_topic : string;
  session_createdAt : Z;
  session_course : Course
}.

Definition module_value (m : CourseModule) : Js.value :=
  Js.Obj [ ("id", Js.Str (module_id m));
           ("title", Js.Str (module_title m));
           ("description", Js.Str (module_description m));
           ("concepts", Js.Arr (map Js.Str (module_concepts m))) ].

Definition course_value (c : Course) : Js.value :=
  Js.Obj [ ("id", Js.Str (course_id c));
           ("title", Js.Str (course_title c));
           ("description", Js.Str (course_description c));
           ("modules", Js.Arr (map module_value (course_modules c))) ].

Definition session_value (x : Session) : Js.value :=
  Js.Obj [ ("id", Js.Str (session_id x));
           ("topic", Js.Str (session_topic x));
           ("createdAt", Js.Num (session_createdAt x));
           ("course", course_value (session_course x)) ].

(** An entry of [past] or [future]: [{ nodes, edges }]. *)
Record HistorySnapshot : Type := {
  snap_nodes : list Node.t;
  snap_edges : list Edge.t
}.

(** The values of one render that the handlers of that render close over. *)
Record Render : Type := {
  r_nodes : list Node.t;
  r_edges : list Edge.t;
  r_focusedNodeId : option string;
  r_sessions : list Session
}.

(** The callbacks handed to [setTimeout]: the focus update at the end of
    [addNodeGeneric], and [addCurriculumNode(session.course)] in
    [handleResume], which runs the [addCurriculumNode] of the render that
    set the timer. *)
Inductive Timer : Type :=
| FocusTimer (id : string)
| CurriculumTimer (r : Render) (course : Course).

Record State : Type := mkState {
  nodes : list Node.t;
  edges : list Edge.t;
  past : list HistorySnapshot;
  future : list HistorySnapshot;
  focusedNodeId : option string;
  sessions : list Session;
  commandInput : string;
  isProcessingCommand : bool;
  menuVisible : bool;
  timers : list (Z * Timer);      (* pending timers, with their delay in ms *)
  alerts : list string            (* the notices shown by [alert], oldest first *)
}.

Definition setNodes (f : list Node.t -> list Node.t) (s : State) : State :=
  mkState (f (nodes s)) (edges s) (past s) (future s) (focusedNodeId s)
    (sessions s) (commandInput s) (isProcessingCommand s) (menuVisible s)
    (timers s) (alerts s).

Definition setEdges (f : list Edge.t -> list Edge.t) (s : State) : State :=
  mkState (nodes s) (f (edges s)) (past s) (future s) (focusedNodeId s)
    (sessions s) (commandInput s) (isProcessingCommand s) (menuVisible s)
    (timers s) (alerts s).

Definition setPast (f : list HistorySnapshot -> list HistorySnapshot) (s : State)
  : State :=
  mkState (nodes s) (edges s) (f (past s)) (future s) (focusedNodeId s)
    (sessions s) (commandInput s) (isProcessingCommand s) (menuVisible s)
    (timers s) (alerts s).

Definition setFuture (f : list HistorySnapshot -> list HistorySnapshot) (s : State)
  : State :=
  mkState (nodes s) (edges s) (past s) (f (future s)) (focusedNodeId s)
    (sessions s) (commandInput s) (isProcessingCommand s) (menuVisible s)
    (timers s) (alerts s).

Definition setFocusedNodeId (v : option string) (s : State) : State :=
  mkState (nodes s) (edges s) (past s) (future s) v
    (sessions s) (commandInput s) (isProcessingCommand s) (menuVisible s)
    (timers s) (alerts s).

Definition setSessions (v : list Session) (s : State) : State :=
  mkState (nodes s) (edges s) (past s) (future s) (focusedNodeId s)
    v (commandInput s) (isProcessingCommand s) (menuVisible s)
    (timers s) (alerts s).

Definition setCommandInput (v : string) (s : State) : State :=
  mkState (nodes s) (edges s) (past s) (future s) (focusedNodeId s)
    (sessions s) v (isProcessingCommand s) (menuVisible s)
    (timers s) (alerts s).

Definition setIsProcessingCommand (v : bool) (s : State) : State :=
  mkState (nodes s) (edges s) (past s) (future s) (focusedNodeId s)
    (sessions s) (commandInput s) v (menuVisible s)
    (timers s) (alerts s).

Definition setMenuVisible (v : bool) (s : State) : State :=
  mkState (nodes s) (edges s) (past s) (future s) (focusedNodeId s)
    (sessions s) (commandInput s) (isProcessingCommand s) v
    (timers s) (alerts s).

(** [setTimeout(callback, delay)] *)
Definition setTimeout (callback : Timer) (delay : Z) (s : State) : State :=
  mkState (nodes s) (edges s) (past s) (future s) (focusedNodeId s)
    (sessions s) (commandInput s) (isProcessingCommand s) (menuVisible s)
    (timers s ++ [(delay, callback)]) (alerts s).

Definition setTimers (v : list (Z * Timer)) (s : State) : State :=
  mkState (nodes s) (edges s) (past s) (future s) (focusedNodeId s)
    (sessions s) (commandInput s) (isProcessingCommand s) (menuVisible s)
    v (alerts s).

Definition alert (msg : string) (s : State) : State :=
  mkState (nodes s) (edges s) (past s) (future s) (focusedNodeId s)
    (sessions s) (commandInput s) (isProcessingCommand s) (menuVisible s)
    (timers s) (alerts s ++ [msg]).

(** The render that shows state [s]. *)
Definition render (s : State) : Render :=
  {| r_nodes := nodes s; r_edges := edges s;
     r_focusedNodeId := focusedNodeId s; r_sessions := sessions s |}.

Definition INITIAL_NODES : list Node.t :=
  [ Node.mk "start" (Js.Str "start") (Position.mk 0 0) [] false ].

Definition initialState : State :=
  mkState INITIAL_NODES [] [] [] (Some "start") [] "" false false [] [].

(** The React Flow instance: [getNode(id)], the node its store keeps under
    that id.  The store is a map filled from the node array in order, so
    when several nodes bear the id it keeps the last of them. *)
Definition getNode (s : State) (id : string) : option Node.t :=
  find (fun n => Node.id n =? id) (rev (nodes s)).

(* ================================================================== *)
(** * Undo / redo *)
(* ================================================================== *)

(** [l.slice(-n)]: the last [n] elements. *)
Definition slice_last {A : Type} (n : nat) (l : list A) : list A :=
  skipn (List.length l - n) l.

(** [takeSnapshot], of the render [r] whose handler calls it:
    [setPast(prev => [...prev.slice(-9), { nodes, edges }]); setFuture([])]. *)
Definition takeSnapshot (r : Render) (s : State) : State :=
  setFuture (fun _ => [])
    (setPast (fun prev => slice_last 9 prev
                            ++ [ {| snap_nodes := r_nodes r;
                                    snap_edges := r_edges r |} ]) s).

Definition pushHistory (r : Render) (s : State) : State := takeSnapshot r s.

Definition current (s : State) : HistorySnapshot :=
  {| snap_nodes := nodes s; snap_edges := edges s |}.

(** [undo], called from the toolbar of the current render. *)
Definition undo (s : State) : State :=
  if (List.length (past s) =? 0)%nat then s
  else
    let previous := last (past s) (current s) in
    let newPast := removelast (past s) in
    setEdges (fun _ => snap_edges previous)
      (setNodes (fun _ => snap_nodes previous)
         (setFuture (fun prev => current s :: prev)
            (setPast (fun _ => newPast) s))).

(** [redo], called from the toolbar of the current render. *)
Definition redo (s : State) : State :=
  if (List.length (future s) =? 0)%nat then s
  else
    let next := hd (current s) (future s) in
    let newFuture := tl (future s) in
    setEdges (fun _ => snap_edges next)
      (setNodes (fun _ => snap_nodes next)
         (setPast (fun prev => prev ++ [current s])
            (setFuture (fun _ => newFuture) s))).

(* ================================================================== *)
(** * Navigation *)
(* ================================================================== *)

Inductive Direction : Type := prev | next.

(** [Array.prototype.sort] with the comparator
    [(a, b) => a.position.y - b.position.y]: a stable sort by [y]. *)
Fixpoint insert_by_y (n : Node.t) (sorted : list Node.t) : list Node.t :=
  match sorted with
  | [] => [n]
  | h :: rest =>
      if (Position.y (Node.position n) <=? Position.y (Node.position h))%Z
      then n :: sorted
      else h :: insert_by_y n rest
  end.

Definition sort_by_y (l : list Node.t) : list Node.t :=
  fold_right insert_by_y [] l.

(** [getSortedChildren(parentId)] *)
Definition getSortedChildren (ns : list Node.t) (es : list Edge.t)
  (parentId : string) : list Node.t :=
  let childEdges := filter (fun e => Edge.source e =? parentId) es in
  let childNodes :=
    flat_map (fun e => match find (fun n => Node.id n =? Edge.target e) ns with
                       | Some n => [n]
                       | None => []
                       end) childEdges in
  sort_by_y childNodes.

(** [l.findIndex(f)], [-1] when no element satisfies [f]. *)
Fixpoint findIndex {A : Type} (f : A -> bool) (l : list A) : Z :=
  match l with
  | [] => -1
  | a :: rest =>
      if f a then 0
      else let i := findIndex f rest in
           if (i =? -1)%Z then -1 else (i + 1)%Z
  end.

(** [l[i].id]; every use below is at an index inside [l]. *)
Definition idAt (l : list Node.t) (i : Z) : option string :=
  if (i <? 0)%Z then None
  else option_map Node.id (nth_error l (Z.to_nat i)).

(** The [while (walker)] loop of the [next] branch.  [fuel] bounds the
    number of iterations the model runs; [None] means the loop has not
    ended within [fuel] iterations.  [Some targetId] is the value of
    [targetId] when the loop ends. *)
Fixpoint walk (ns : list Node.t) (es : list Edge.t) (fuel : nat) (walker : string)
  : option (option string) :=
  match fuel with
  | O => None
  | S fuel' =>
      if walker =? "" then Some None
      else
        match find (fun e => Edge.target e =? walker) es with
        | None => Some None                                   (* root reached *)
        | Some incomingEdge =>
            let siblings := getSortedChildren ns es (Edge.source incomingEdge) in
            let currentIndex := findIndex (fun n => Node.id n =? walker) siblings in
            if negb (currentIndex =? -1)%Z
               && (currentIndex <? Z.of_nat (List.length siblings) - 1)%Z
            then Some (idAt siblings (currentIndex + 1))
            else walk ns es fuel' (Edge.source incomingEdge)
        end
  end.

(** The value of [targetId] that [handleNavigate] computes. *)
Definition navigationTarget (ns : list Node.t) (es : list Edge.t) (fuel : nat)
  (nodeId : string) (direction : Direction) : option (option string) :=
  match direction with
  | next =>
      let children := getSortedChildren ns es nodeId in
      if (0 <? List.length children)%nat then Some (idAt children 0)
      else walk ns es fuel nodeId
  | prev =>
      match find (fun e => Edge.target e =? nodeId) es with
      | Some incomingEdge =>
          let siblings := getSortedChildren ns es (Edge.source incomingEdge) in
          let currentIndex := findIndex (fun n => Node.id n =? nodeId) siblings in
          if (0 <? currentIndex)%Z then Some (idAt siblings (currentIndex - 1))
          else Some (Some (Edge.source incomingEdge))
      | None => Some None
      end
  end.

Definition setFullScreen (b : bool) (n : Node.t) : Node.t :=
  Node.mk (Node.id n) (Node.type n) (Node.position n)
    (Js.set "isFullScreen" (Js.Bool b) (Node.data n)) (Node.selected n).

(** [handleNavigate(nodeId, direction)]; [None] when the walker loop does
    not end within [fuel] iterations.  [fitView] only moves the camera. *)
Definition handleNavigate (fuel : nat) (nodeId : string) (direction : Direction)
  (s : State) : option State :=
  match find (fun n => Node.id n =? nodeId) (nodes s) with
  | None => Some s
  | Some currentNode =>
      match navigationTarget (nodes s) (edges s) fuel nodeId direction with
      | None => None
      | Some targetId =>
          match Js.present targetId with
          | None => Some s
          | Some tid =>
              let s1 := setFocusedNodeId (Some tid) s in
              if Js.truthy (Js.get "isFullScreen" (Node.data currentNode))
              then Some (setNodes
                           (map (fun n =>
                                   if Node.id n =? nodeId then setFullScreen false n
                                   else if Node.id n =? tid then setFullScreen true n
                                   else n)) s1)
              else Some s1
          end
      end
  end.

(* ================================================================== *)
(** * Node creation *)
(* ================================================================== *)

(** [`${type}-${Date.now()}`] *)
Definition generatedId (type : Js.value) (now : Z) : string :=
  Js.to_string type ++ "-" ++ Js.dec now.

(** The position [addNodeGeneric] gives a node created without one. *)
Definition placement (r : Render) (s : State) (parentId : option string)
  : Position.t :=
  let pos :=
    match Js.present parentId with
    | Some pid =>
        match getNode s pid with
        | Some parent =>
            let existingChildren :=
              List.length (filter (fun e => Edge.source e =? pid) (edges s)) in
            let xOffset := 600%Z in
            let ySpacing := 600%Z in
            Some (Position.mk
                    (Position.x (Node.position parent) + xOffset)
                    (Position.y (Node.position parent)
                     + Z.of_nat existingChildren * ySpacing))
        | None => None
        end
    | None =>
        match Js.present (r_focusedNodeId r) with
        | Some fid =>
            match getNode s fid with
            | Some focused =>
                Some (Position.mk (Position.x (Node.position focused) + 600)
                                  (Position.y (Node.position focused)))
            | None => None
            end
        | None => None
        end
    end in
  match pos with
  | Some p => p
  | None =>
      let count := Z.of_nat (List.length (nodes s)) in
      Position.mk (100 + count * 30) (100 + count * 30)
  end.

(** The [data] of the new node: [{ ...data, isFullScreen: false, ... }],
    with [history: sessions] (of the creating render) for a start node. *)
Definition newNodeData (r : Render) (type : Js.value) (data : Js.object)
  : Js.object :=
  let d := Js.set "isFullScreen" (Js.Bool false) data in
  if Js.is_str "start" type
  then Js.set "history" (Js.Arr (map session_value (r_sessions r))) d
  else d.

Definition newEdge (parentId id : string) : Edge.t :=
  Edge.mk ("e-" ++ parentId ++ "-" ++ id)%string parentId id None None.

(** [explicitId || `${type}-${Date.now()}`] *)
Definition idOf (now : Z) (type : Js.value) (explicitId : option string) : string :=
  match Js.present explicitId with
  | Some e => e
  | None => generatedId type now
  end.

(** [addNodeGeneric(type, data, position?, parentId?, explicitId?)], as
    defined in render [r] and run on the live state [s] at time [now].
    It returns the new node's id and the state; the focus update is left
    to a timer of 150 ms. *)
Definition addNodeGeneric (r : Render) (now : Z) (type : Js.value)
  (data : Js.object) (position : option Position.t)
  (parentId explicitId : option string) (s : State) : string * State :=
  let s1 := pushHistory r s in
  let id := idOf now type explicitId in
  let pos := match position with
             | Some p => p
             | None => placement r s1 parentId
             end in
  let newNode := Node.mk id type pos (newNodeData r type data) false in
  let s2 := setNodes (fun nds => nds ++ [newNode]) s1 in
  let s3 := match Js.present parentId with
            | Some pid => setEdges (fun eds => eds ++ [newEdge pid id]) s2
            | None => s2
            end in
  (id, setTimeout (FocusTimer id) 150 s3).

(** [handleNodeAction(sourceId, action, payload)] *)
Definition handleNodeAction (r : Render) (now : Z) (sourceId action : string)
  (payload : Js.object) (s : State) : State :=
  match getNode s sourceId with
  | None => s
  | Some sourceNode =>
      let topic := Js.or_else (Js.get "topic" (Node.data sourceNode))
                              (Js.Str "General Topic") in
      if action =? "SLIDES" then
        snd (addNodeGeneric r now (Js.Str "slides")
               [ ("topic", topic);
                 ("context", Js.get "markdownContent" payload) ]
               None (Some sourceId) None s)
      else if action =? "CODE" then
        snd (addNodeGeneric r now (Js.Str "code")
               [ ("language", Js.Str "python");
                 ("code", Js.or_else (Js.get "code" payload)
                                     (Js.Str "# Start coding..."));
                 ("context", Js.get "context" payload) ]
               None (Some sourceId) None s)
      else s
  end.

(** [addCurriculumNode(course)] *)
Definition addCurriculumNode (r : Render) (now : Z) (course : Course) (s : State)
  : State :=
  let id := ("curriculum-" ++ Js.dec now)%string in
  snd (addNodeGeneric r now (Js.Str "curriculum")
         [ ("course", course_value course) ]
         (Some (Position.mk 600 0)) (Some "start") (Some id) s).

(** [addStudyNode(mod, parentId, topic)] *)
Definition addStudyNode (r : Render) (now : Z) (mod_ : CourseModule)
  (parentId topic : string) (s : State) : State :=
  let id := ("study-" ++ Js.dec now)%string in
  snd (addNodeGeneric r now (Js.Str "study")
         [ ("moduleTitle", Js.Str (module_title mod_));
           ("moduleId", Js.Str (module_id mod_));
           ("topic", Js.Str topic) ]
         None (Some parentId) (Some id) s).

(* ================================================================== *)
(** * Command interpretation *)
(* ================================================================== *)

(** [const parent = sourceNodeId || focusedNodeId] *)
Definition commandParent (r : Render) (sourceNodeId : option string)
  : option string :=
  match Js.present sourceNodeId with
  | Some p => Some p
  | None => r_focusedNodeId r
  end.

(** [contextTopic], read from the parent node when there is one. *)
Definition contextTopicOf (pNode : option Node.t) : Js.value :=
  match pNode with
  | Some n =>
      if Js.truthy (Js.get "topic" (Node.data n))
      then Js.get "topic" (Node.data n)
      else if Js.truthy (Js.get "moduleTitle" (Node.data n))
           then Js.get "moduleTitle" (Node.data n)
           else Js.Str ""
  | None => Js.Str ""
  end.

(** [contextData] *)
Definition contextDataOf (pNode : option Node.t) : Js.object :=
  match pNode with
  | Some n =>
      let d := [ ("topic", contextTopicOf pNode) ] in
      if Js.truthy (Js.get "markdownContent" (Node.data n))
      then Js.set "context" (Js.get "markdownContent" (Node.data n)) d
      else d
  | None => []
  end.

(** [finalData]: [{ ...contextData, ...cmd.data }] with its defaults. *)
Definition finalDataOf (now : Z) (contextData : Js.object)
  (cmd_type cmd_data : Js.value) : Js.object :=
  let d0 := Js.spread contextData cmd_data in
  let d1 := if Js.truthy (Js.get "topic" d0) then d0
            else Js.set "topic" (Js.Str "General Study") d0 in
  if Js.is_str "study" cmd_type then
    let d := if Js.truthy (Js.get "moduleTitle" d1) then d1
             else Js.set "moduleTitle" (Js.get "topic" d1) d1 in
    if Js.truthy (Js.get "moduleId" d) then d
    else Js.set "moduleId" (Js.Str ("gen-" ++ Js.dec now)%string) d
  else d1.

(** [pNode]: the parent node, when there is a parent and it is on the
    canvas. *)
Definition commandNode (r : Render) (sourceNodeId : option string) (s : State)
  : option Node.t :=
  match Js.present (commandParent r sourceNodeId) with
  | Some p => getNode s p
  | None => None
  end.

(** The body of the [try] block of [handleCommandSubmit], up to the call of
    [addNodeGeneric]: the arguments of that call, or the exception. *)
Definition commandDirective (r : Render) (env : Gemini.Env) (now : Z)
  (prompt : string) (sourceNodeId : option string) (s : State)
  : Promise (Js.value * Js.object * option string) :=
  let parent := commandParent r sourceNodeId in
  let pNode := commandNode r sourceNodeId s in
  let contextTopic := contextTopicOf pNode in
  let contextData := contextDataOf pNode in
  cmd <- Gemini.interpretAgentCommand env prompt contextTopic ;;
  match Js.member cmd "data", Js.member cmd "type" with
  | Some cmd_data, Some cmd_type =>
      Resolved (cmd_type, finalDataOf now contextData cmd_type cmd_data,
                Js.present parent)
  | _, _ => Rejected "TypeError"
  end.

(** [handleCommandSubmit(prompt, sourceNodeId?, targetPosition?)], started
    in render [r]; [now_module] and [now_node] are the readings of
    [Date.now()] for the module id and for the node id.  The handler is one
    transition: the canvas does not change while the model is asked.
    [addNodeGeneric] is called with the kind the model has named, whatever
    value that is: when the template literal of the id cannot convert it,
    the call throws after its [pushHistory()] and the [catch] block of the
    handler shows the notice. *)
Definition handleCommandSubmit (r : Render) (env : Gemini.Env)
  (now_module now_node : Z) (prompt : string) (sourceNodeId : option string)
  (targetPosition : option Position.t) (s : State) : State :=
  if Js.blank prompt then s
  else
    let s1 := setIsProcessingCommand true s in
    let s2 :=
      match commandDirective r env now_module prompt sourceNodeId s1 with
      | Resolved (cmd_type, finalData, parent) =>
          match Js.template cmd_type with
          | Some _ =>
              setCommandInput ""
                (snd (addNodeGeneric r now_node cmd_type finalData
                        targetPosition parent None s1))
          | None =>
              alert "Could not understand command." (pushHistory r s1)
          end
      | Rejected _ => alert "Could not understand command." s1
      end in
    setMenuVisible false (setIsProcessingCommand false s2).

(** [handleMenuSelect(type)], with [menuState.sourceNodeId] and the flow
    position of the menu. *)
Definition handleMenuSelect (r : Render) (now : Z) (type : string)
  (sourceNodeId : option string) (position : Position.t) (s : State) : State :=
  match Js.present sourceNodeId with
  | None => s
  | Some src =>
      let d := match getNode s src with
               | Some n => Node.data n
               | None => []
               end in
      let topic :=
        if Js.truthy (Js.get "topic" d) then Js.get "topic" d
        else if Js.truthy (Js.get "moduleTitle" d) then Js.get "moduleTitle" d
             else Js.Str "General Topic" in
      let contextData :=
        if Js.truthy (Js.get "markdownContent" d)
        then [ ("topic", topic); ("context", Js.get "markdownContent" d) ]
        else [ ("topic", topic) ] in
      setMenuVisible false
        (snd (addNodeGeneric r now (Js.Str type) contextData (Some position)
                (Some src) None s))
  end.

(* ================================================================== *)
(** * Deletion, connection, drag *)
(* ================================================================== *)

Definition mem (x : string) (l : list string) : bool :=
  existsb (fun y => y =? x) l.

(** React Flow's [deleteElements({ nodes })], given the ids of the nodes:
    these nodes leave the node collection, and every edge that touches one
    of them leaves the edge collection. *)
Definition deleteElements (doomed : list string) (s : State) : State :=
  setEdges (filter (fun e => negb (mem (Edge.source e) doomed)
                             && negb (mem (Edge.target e) doomed)))
    (setNodes (filter (fun n => negb (mem (Node.id n) doomed))) s).

(** [handleDeleteSelected] *)
Definition handleDeleteSelected (r : Render) (s : State) : State :=
  let s1 := pushHistory r s in
  let selected := filter Node.selected (nodes s1) in
  if (0 <? List.length selected)%nat
  then deleteElements (map Node.id selected) s1
  else s1.

(** [toggleLiveNode]; [flowCenter] is the centre of the window in flow
    coordinates. *)
Definition toggleLiveNode (r : Render) (now : Z) (flowCenter : Position.t)
  (s : State) : State :=
  let s1 := pushHistory r s in
  let liveNodes := filter (fun n => Js.is_str "live" (Node.type n)) (nodes s1) in
  if (0 <? List.length liveNodes)%nat
  then deleteElements (map Node.id liveNodes) s1
  else snd (addNodeGeneric r now (Js.Str "live") []
              (Some (Position.mk (Position.x flowCenter - 170)
                                 (Position.y flowCenter - 225)))
              None None s1).

(** The node components (StudyNode, CurriculumNode, CodeNode, ...).  The
    close button of a node that is not in full screen runs [handleClose]:
    [deleteElements({ nodes: [{ id: nodeId }] })], without a snapshot. *)
Definition closeNode (nodeId : string) (s : State) : State :=
  deleteElements [ nodeId ] s.

(** [toggleFullScreen] of a node component. *)
Definition toggleFullScreen (id : string) (s : State) : State :=
  setNodes (map (fun n =>
                   if Node.id n =? id
                   then setFullScreen
                          (negb (Js.truthy (Js.get "isFullScreen" (Node.data n))))
                          n
                   else n)) s.

(** A node component stores values in its own data:
    [{ ...n, data: { ...n.data, ...updates } }]. *)
Definition updateNodeData (id : string) (updates : Js.object) (s : State)
  : State :=
  setNodes (map (fun n =>
                   if Node.id n =? id
                   then Node.mk (Node.id n) (Node.type n) (Node.position n)
                          (Js.spread (Node.data n) (Js.Obj updates))
                          (Node.selected n)
                   else n)) s.

Record Connection : Type := {
  conn_source : option string;
  conn_target : option string;
  conn_sourceHandle : option string;
  conn_targetHandle : option string
}.

Definition same_handle (a b : option string) : bool :=
  match Js.present a, Js.present b with
  | Some x, Some y => x =? y
  | None, None => true
  | _, _ => false
  end.

Definition handle_text (h : option string) : string :=
  match Js.present h with
  | Some x => x
  | None => ""
  end.

(** React Flow's [addEdge(params, edges)]: nothing is added when an end is
    missing or when the same connection is already there. *)
Definition addEdge (params : Connection) (eds : list Edge.t) : list Edge.t :=
  match Js.present (conn_source params), Js.present (conn_target params) with
  | Some src, Some tgt =>
      if existsb (fun e => (Edge.source e =? src) && (Edge.target e =? tgt)
                           && same_handle (Edge.sourceHandle e)
                                          (conn_sourceHandle params)
                           && same_handle (Edge.targetHandle e)
                                          (conn_targetHandle params)) eds
      then eds
      else eds ++ [ Edge.mk ("reactflow__edge-" ++ src
                               ++ handle_text (conn_sourceHandle params)
                               ++ "-" ++ tgt
                               ++ handle_text (conn_targetHandle params))%string
                            src tgt
                            (conn_sourceHandle params)
                            (conn_targetHandle params) ]
  | _, _ => eds
  end.

(** [onConnect(params)] *)
Definition onConnect (r : Render) (params : Connection) (s : State) : State :=
  setEdges (addEdge params) (pushHistory r s).

(** [onNodeDragStart] *)
Definition onNodeDragStart (r : Render) (s : State) : State := pushHistory r s.

(** React Flow's [onNodesChange] for a position change: the drag moves the
    node. *)
Definition moveNode (id : string) (p : Position.t) (s : State) : State :=
  setNodes (map (fun n => if Node.id n =? id
                          then Node.mk (Node.id n) (Node.type n) p
                                       (Node.data n) (Node.selected n)
                          else n)) s.

(** A selection change: React Flow marks the nodes, then
    [onSelectionChange] focuses the first selected node, if any. *)
Definition selectNodes (ids : list string) (s : State) : State :=
  let s1 := setNodes (map (fun n => Node.mk (Node.id n) (Node.type n)
                                      (Node.position n) (Node.data n)
                                      (mem (Node.id n) ids))) s in
  match filter Node.selected (nodes s1) with
  | first :: _ => setFocusedNodeId (Some (Node.id first)) s1
  | [] => s1
  end.

(* ================================================================== *)
(** * Sessions: start, resume, and the effect that refreshes start nodes *)
(* ================================================================== *)

(** [saveSession(topic, course)] of render [r]; the two [Date.now()]
    readings are [now_id] and [now_created]. *)
Definition saveSession (r : Render) (now_id now_created : Z) (topic : string)
  (course : Course) (s : State) : State :=
  let newSession := {| session_id := Js.dec now_id; session_topic := topic;
                       session_createdAt := now_created;
                       session_course := course |} in
  setSessions (newSession :: r_sessions r) s.

(** [handleStart(topic, attachments)] of render [r].  [generated] is the
    course the two generation calls produce, or [None] when one of them
    throws.  The handler is one transition: the canvas does not change
    while the course is generated. *)
Definition handleStart (r : Render) (now_id now_created now_node : Z)
  (topic : string) (hasAttachments : bool) (generated : option Course)
  (s : State) : State :=
  let effectiveTopic :=
    if topic =? "" then (if hasAttachments then "Uploaded Materials"
                         else "General Study")
    else topic in
  let s1 := pushHistory r s in
  match generated with
  | Some course =>
      addCurriculumNode r now_node course
        (saveSession r now_id now_created effectiveTopic course s1)
  | None => alert "Failed to generate course. Please try again." s1
  end.

(** [handleResume(session)] of render [r]. *)
Definition handleResume (r : Render) (session : Session) (s : State) : State :=
  let s1 := pushHistory r s in
  let start := Node.mk "start" (Js.Str "start") (Position.mk 0 0)
                 [ ("history", Js.Arr (map session_value (r_sessions r))) ]
                 false in
  setTimeout (CurriculumTimer r (session_course session)) 100
    (setEdges (fun _ => []) (setNodes (fun _ => [start]) s1)).

(** The effect on [[sessions, handleNavigate]]: every start node gets the
    current [sessions] as its [history]. *)
Definition refreshStartNodes (s : State) : State :=
  setNodes (map (fun n =>
                   if Js.is_str "start" (Node.type n)
                   then Node.mk (Node.id n) (Node.type n) (Node.position n)
                          (Js.set "history"
                             (Js.Arr (map session_value (sessions s)))
                             (Node.data n))
                          (Node.selected n)
                   else n)) s.

(** A timer fires: its callback runs at time [now]. *)
Definition fire (t : Timer) (now : Z) (s : State) : State :=
  match t with
  | FocusTimer id => setFocusedNodeId (Some id) s
  | CurriculumTimer r course => addCurriculumNode r now course s
  end.

Fixpoint remove_nth {A : Type} (k : nat) (l : list A) : list A :=
  match l, k with
  | [], _ => []
  | _ :: rest, O => rest
  | a :: rest, S k' => a :: remove_nth k' rest
  end.

Definition fireTimer (k : nat) (now : Z) (s : State) : State :=
  match nth_error (timers s) k with
  | Some (_, t) => fire t now (setTimers (remove_nth k (timers s)) s)
  | None => s
  end.

(* ================================================================== *)
(** * The states the controller can reach *)
(* ================================================================== *)

(** [onConnect] is called by React Flow with the two nodes the user has
    joined: both ends are nodes of the canvas. *)
Definition joinsNodes (s : State) (params : Connection) : Prop :=
  (exists n, In n (nodes s) /\ conn_source params = Some (Node.id n)) /\
  (exists n, In n (nodes s) /\ conn_target params = Some (Node.id n)).

(** One constructor per way the component's state changes.  A handler that
    lives in a node's [data] or in a timer, or that resumes after an
    [await], runs with the render [render s0] of an earlier state. *)
Inductive reachable : State -> Prop :=
| reach_initial :
    reachable initialState
| reach_sessions_loaded s stored :
    reachable s -> reachable (setSessions stored s)
| reach_refresh s :
    reachable s -> reachable (refreshStartNodes s)
| reach_undo s :
    reachable s -> reachable (undo s)
| reach_redo s :
    reachable s -> reachable (redo s)
| reach_navigate s fuel nodeId direction s' :
    reachable s ->
    handleNavigate fuel nodeId direction s = Some s' ->
    reachable s'
| reach_close_fullscreen s :
    reachable s -> reachable (setNodes (map (setFullScreen false)) s)
| reach_select s ids :
    reachable s -> reachable (selectNodes ids s)
| reach_drag_start s :
    reachable s -> reachable (onNodeDragStart (render s) s)
| reach_drag s id p :
    reachable s -> reachable (moveNode id p s)
| reach_connect s params :
    reachable s -> joinsNodes s params ->
    reachable (onConnect (render s) params s)
| reach_delete s :
    reachable s -> reachable (handleDeleteSelected (render s) s)
| reach_toggle_live s now flowCenter :
    reachable s -> reachable (toggleLiveNode (render s) now flowCenter s)
| reach_toolbar_code s now :
    reachable s ->
    reachable (snd (addNodeGeneric (render s) now (Js.Str "code") [] None
                      (focusedNodeId s) None s))
| reach_menu_select s now type sourceNodeId position :
    reachable s ->
    reachable (handleMenuSelect (render s) now type sourceNodeId position s)
| reach_command s0 s env now_module now_node prompt sourceNodeId targetPosition :
    reachable s0 -> reachable s ->
    reachable (handleCommandSubmit (render s0) env now_module now_node prompt
                 sourceNodeId targetPosition s)
| reach_start s0 s now_id now_created now_node topic hasAttachments generated :
    reachable s0 -> reachable s ->
    reachable (handleStart (render s0) now_id now_created now_node topic
                 hasAttachments generated s)
| reach_resume s0 s session :
    reachable s0 -> reachable s ->
    reachable (handleResume (render s0) session s)
| reach_select_module s0 s now mod_ parentId topic :
    reachable s0 -> reachable s ->
    reachable (addStudyNode (render s0) now mod_ parentId topic s)
| reach_node_action s0 s now sourceId action payload :
    reachable s0 -> reachable s ->
    reachable (handleNodeAction (render s0) now sourceId action payload s)
| reach_timer s k now :
    reachable s -> reachable (fireTimer k now s)
| reach_close_node s nodeId :
    reachable s -> reachable (closeNode nodeId s)
| reach_toggle_full_screen s id :
    reachable s -> reachable (toggleFullScreen id s)
| reach_update_data s id updates :
    reachable s -> reachable (updateNodeData id updates s).

(* ================================================================== *)
(** * Trees, for the navigation properties *)
(* ================================================================== *)

(** A rooted ordered tree of node ids, each with the [position.y] of its
    node; the children of a node are listed in the order of the tree. *)
Inductive Tree : Type :=
| TreeNode (id : string) (y : Z) (children : list Tree).

Definition tree_id (t : Tree) : string :=
  match t with TreeNode i _ _ => i end.

Definition tree_y (t : Tree) : Z :=
  match t with TreeNode _ v _ => v end.

Definition tree_children (t : Tree) : list Tree :=
  match t with TreeNode _ _ cs => cs end.

(** The (id, y) of every node, root first: depth-first pre-order. *)
Fixpoint tree_entries (t : Tree) : list (string * Z) :=
  match t with
  | TreeNode i v cs => (i, v) :: flat_map tree_entries cs
  end.

(** The ids in depth-first pre-order. *)
Fixpoint preorder (t : Tree) : list string :=
  match t with
  | TreeNode i _ cs => i :: flat_map preorder cs
  end.

(** The (parent id, child id) links of the tree. *)
Fixpoint tree_links (t : Tree) : list (string * string) :=
  match t with
  | TreeNode i _ cs =>
      map (fun c => (i, tree_id c)) cs ++ flat_map tree_links cs
  end.

Fixpoint ascending (l : list Z) : bool :=
  match l with
  | a :: (b :: _) as rest => (a <? b)%Z && ascending rest
  | _ => true
  end.

(** Every node's children are in strictly ascending [y]. *)
Fixpoint children_ascending (t : Tree) : bool :=
  match t with
  | TreeNode _ _ cs =>
      ascending (map tree_y cs) && forallb children_ascending cs
  end.

Definition entry (n : Node.t) : string * Z :=
  (Node.id n, Position.y (Node.position n)).

Definition link (e : Edge.t) : string * string :=
  (Edge.source e, Edge.target e).

(** The graph [(ns, es)] is the tree [t]: its nodes are the nodes of [t]
    (with their [y]), its edges are the parent-child links of [t], in any
    order; ids are distinct and not empty; children are in ascending [y]. *)
Record is_tree (ns : list Node.t) (es : list Edge.t) (t : Tree) : Prop := {
  tree_has_nodes : Permutation (map entry ns) (tree_entries t);
  tree_has_edges : Permutation (map link es) (tree_links t);
  tree_ids_distinct : NoDup (preorder t);
  tree_ids_not_empty : ~ In "" (preorder t);
  tree_children_sorted : children_ascending t = true
}.

(** The children of the node of [t] whose id is [p]. *)
Fixpoint children_in (t : Tree) (p : string) : list Tree :=
  match t with
  | TreeNode i _ cs =>
      if i =? p then cs else flat_map (fun c => children_in c p) cs
  end.

(** [subtree u t]: [u] is [t] or lies below one of its children. *)
Inductive subtree : Tree -> Tree -> Prop :=
| subtree_self t : subtree t t
| subtree_child u i v cs c :
    In c cs -> subtree u c -> subtree u (TreeNode i v cs).

Definition tree_entry (t : Tree) : string * Z := (tree_id t, tree_y t).

(** [k] when [l] is empty, else the first element of [l]. *)
Definition first_or (l : list string) (k : option string) : option string :=
  match l with
  | [] => k
  | a :: _ => Some a
  end.

(** [next] leads from each element of [l] to the one after it, and from
    the last element to [k] ([None]: no target). *)
Fixpoint chained (ns : list Node.t) (es : list Edge.t) (fuel : nat)
  (l : list string) (k : option string) : Prop :=
  match l with
  | [] => True
  | a :: rest =>
      navigationTarget ns es fuel a next = Some (first_or rest k) /\
      chained ns es fuel rest k
  end.

(** The nodes visited by calling [handleNavigate] again and again, each
    time from the node the previous call has focused: the list ends where
    a call finds no target. *)
Fixpoint itinerary (ns : list Node.t) (es : list Edge.t) (fuel : nat)
  (direction : Direction) (calls : nat) (nodeId : string) : list string :=
  match calls with
  | O => [nodeId]
  | S calls' =>
      match navigationTarget ns es fuel nodeId direction with
      | Some (Some targetId) =>
          if targetId =? "" then [nodeId]
          else nodeId :: itinerary ns es fuel direction calls' targetId
      | _ => [nodeId]
      end
  end.

(** The arrows of the toolbar:
    [focusedNodeId && handleNavigate(focusedNodeId, direction)]. *)
Definition navigateFromFocus (fuel : nat) (direction : Direction) (s : State)
  : option State :=
  match Js.present (focusedNodeId s) with
  | Some focused => handleNavigate fuel focused direction s
  | None => Some s
  end.

(** The [onSelectionChange] handler, written inline in the JSX:
    [({ nodes: selected }) => { if (selected.length) setFocusedNodeId(selected[0].id) }].
    It is a new function at each render, so React Flow calls it again
    after each render with the nodes that are selected. *)
Definition onSelectionChange (s : State) : State :=
  match filter Node.selected (nodes s) with
  | first :: _ => setFocusedNodeId (Some (Node.id first)) s
  | [] => s
  end.

(** The focus before the first and after each of [clicks] clicks on an
    arrow of the toolbar, from a state [s] whose render has settled: each
    click is followed by the render it causes and by the call of
    [onSelectionChange] that follows that render. *)
Fixpoint focusTrail (fuel : nat) (direction : Direction) (clicks : nat)
  (s : State) : list (option string) :=
  focusedNodeId s ::
  match clicks with
  | O => []
  | S clicks' =>
      match navigateFromFocus fuel direction s with
      | Some s' => focusTrail fuel direction clicks' (onSelectionChange s')
      | None => []
      end
  end.

(** No node of the canvas is selected. *)
Definition no_selection (s : State) : Prop :=
  filter Node.selected (nodes s) = [].

(** Every edge ends at a node of the graph. *)
Definition targets_resolve (ns : list Node.t) (es : list Edge.t) : bool :=
  forallb (fun e => existsb (fun n => Node.id n =? Edge.target e) ns) es.

(** One turn of the walker loop that does not end the loop: the value of
    [walker] for the next turn. *)
Definition climb (ns : list Node.t) (es : list Edge.t) (walker : string)
  : option string :=
  if walker =? "" then None
  else
    match find (fun e => Edge.target e =? walker) es with
    | None => None
    | Some incomingEdge =>
        let siblings := getSortedChildren ns es (Edge.source incomingEdge) in
        let currentIndex := findIndex (fun n => Node.id n =? walker) siblings in
        if negb (currentIndex =? -1)%Z
           && (currentIndex <? Z.of_nat (List.length siblings) - 1)%Z
        then None
        else Some (Edge.source incomingEdge)
    end.

(** [l] lists the walkers of the turns that follow a turn at [walker]. *)
Fixpoint climbing (ns : list Node.t) (es : list Edge.t) (walker : string)
  (l : list string) : Prop :=
  match l with
  | [] => True
  | p :: rest => climb ns es walker = Some p /\ climbing ns es p rest
  end.

(* ================================================================== *)
(** * Vocabulary of the properties *)
(* ================================================================== *)

Definition ids (ns : list Node.t) : list string := map Node.id ns.

(** The request can be made: the client is built and the context has a
    text, [context]. *)
Definition request_ready (env : Gemini.Env) (given : Js.value)
  (context : string) : Prop :=
  Gemini.getAIClient env = Resolved tt /\ Js.template given = Some context.

(** The request cannot be made: [getAIClient()] throws, or the context
    cannot be converted to a string. *)
Definition request_impossible (env : Gemini.Env) (given : Js.value) : Prop :=
  (exists e, Gemini.getAIClient env = Rejected e) \/ Js.template given = None.

(** The interpretation of a command fails: the model call throws, or the
    text it returns is not JSON. *)
Definition interpretation_fails (env : Gemini.Env) (command context : string)
  : Prop :=
  match Gemini.generateContent env command context with
  | Gemini.GenerateThrows _ => True
  | Gemini.GenerateReturns text =>
      Gemini.JSON_parse env (Gemini.text_or_empty_object text) = None
  end.

(** The model answers with JSON text that parses to [null]. *)
Definition interpretation_is_null (env : Gemini.Env) (command context : string)
  : Prop :=
  exists text,
    Gemini.generateContent env command context = Gemini.GenerateReturns text /\
    Gemini.JSON_parse env (Gemini.text_or_empty_object text) = Some Js.Null.

(** The graph and its history are those of [s]. *)
Definition same_graph_and_history (s s' : State) : Prop :=
  nodes s' = nodes s /\ edges s' = edges s /\
  past s' = past s /\ future s' = future s.

(** A notice has been shown between [s] and [s']. *)
Definition notice_shown (s s' : State) : Prop :=
  alerts s' = alerts s ++ [ "Could not understand command." ].

(** The snapshot a handler of render [r] pushes. *)
Definition snapshot_of (r : Render) : HistorySnapshot :=
  {| snap_nodes := r_nodes r; snap_edges := r_edges r |}.

(** Several [addNodeGeneric] calls for children of [parentId], none with
    an explicit position: each request brings the render of its handler,
    the clock, the kind, the payload and, possibly, an explicit id. *)
Record ChildRequest : Type := {
  req_render : Render;
  req_now : Z;
  req_type : Js.value;
  req_data : Js.object;
  req_explicitId : option string
}.

(** The id the request's node gets. *)
Definition childId (q : ChildRequest) : string :=
  idOf (req_now q) (req_type q) (req_explicitId q).

Fixpoint createChildren (parentId : string) (reqs : list ChildRequest)
  (s : State) : State :=
  match reqs with
  | [] => s
  | q :: rest =>
      createChildren parentId rest
        (snd (addNodeGeneric (req_render q) (req_now q) (req_type q)
                (req_data q) None (Some parentId) (req_explicitId q) s))
  end.

(** The number of children the placement sees: the edges that leave
    [parentId]. *)
Definition existingChildren (s : State) (parentId : string) : nat :=
  List.length (filter (fun e => Edge.source e =? parentId) (edges s)).

(** The two stacks are those of [s]. *)
Definition history_kept (s s' : State) : Prop :=
  past s' = past s /\ future s' = future s.

(** A snapshot has just been taken. *)
Definition snapshot_pushed (s' : State) : Prop :=
  (List.length (past s') <= 10)%nat /\ future s' = [].

(** The invariant behind the cap: [past] and [future] together hold at
    most 10 snapshots. *)
Definition history_within_cap (s : State) : Prop :=
  (List.length (past s) + List.length (future s) <= 10)%nat.

(** A well-formed graph: every edge ends at a node, and no node has the
    empty id. *)
Definition sound_graph (ns : list Node.t) (es : list Edge.t) : Prop :=
  targets_resolve ns es = true /\ ~ In "" (ids ns).

Definition sound_snapshot (h : HistorySnapshot) : Prop :=
  sound_graph (snap_nodes h) (snap_edges h).

Definition sound_render (r : Render) : Prop :=
  sound_graph (r_nodes r) (r_edges r).

Definition sound_timer (p : Z * Timer) : Prop :=
  match snd p with
  | FocusTimer _ => True
  | CurriculumTimer r _ => sound_render r
  end.

(** The canvas, every snapshot and every render kept by a timer hold a
    well-formed graph. *)
Definition sound (s : State) : Prop :=
  sound_graph (nodes s) (edges s) /\
  Forall sound_snapshot (past s) /\
  Forall sound_snapshot (future s) /\
  Forall sound_timer (timers s).

(** Exactly one node is a start node, and no edge enters it. *)
Definition one_root (s : State) : Prop :=
  exists root,
    filter (fun n => Js.is_str "start" (Node.type n)) (nodes s) = [root] /\
    forall e, In e (edges s) -> Edge.target e <> Node.id root.

(* ================================================================== *)
(** * Scenarios *)
(* ================================================================== *)

(** The model cannot be reached. *)
Definition env_down : Gemini.Env :=
  {| Gemini.getAIClient := Resolved tt;
     Gemini.generateContent := fun _ _ => Gemini.GenerateThrows "network";
     Gemini.JSON_parse := fun _ => None |}.

(** The model answers [null]. *)
Definition env_null : Gemini.Env :=
  {| Gemini.getAIClient := Resolved tt;
     Gemini.generateContent := fun _ _ => Gemini.GenerateReturns (Some "null");
     Gemini.JSON_parse := fun text => if text =? "null" then Some Js.Null
                                      else None |}.

(** No API key is configured: the client cannot be built. *)
Definition env_no_key : Gemini.Env :=
  {| Gemini.getAIClient := Rejected "API key missing";
     Gemini.generateContent := fun _ _ => Gemini.GenerateReturns (Some "{}");
     Gemini.JSON_parse := fun _ => Some (Js.Obj []) |}.

(** Two clicks on the toolbar's code button during the same millisecond. *)
Definition one_code_node : State :=
  snd (addNodeGeneric (render initialState) 1700000000000 (Js.Str "code") []
         None (focusedNodeId initialState) None initialState).

Definition two_code_nodes : State :=
  snd (addNodeGeneric (render one_code_node) 1700000000000 (Js.Str "code") []
         None (focusedNodeId one_code_node) None one_code_node).

(** A second code node, half a second later; then the first one is closed
    with its own close button. *)
Definition second_code_node : State :=
  snd (addNodeGeneric (render one_code_node) 1700000000500 (Js.Str "code") []
         None (focusedNodeId one_code_node) None one_code_node).

Definition first_closed : State :=
  closeNode "code-1700000000000" second_code_node.

(** The start node is selected, then the Delete key is pressed. *)
Definition start_selected : State := selectNodes [ "start" ] initialState.

Definition start_deleted : State :=
  handleDeleteSelected (render start_selected) start_selected.

(** A course with two modules is generated from the start node; the
    curriculum node's [onSelectModule] is the one of the render that ran
    [handleStart], here the first render.  The user then opens the first
    module. *)
Definition algebra : Course :=
  {| course_id := "c1"; course_title := "Algebra";
     course_description := "Linear algebra";
     course_modules :=
       [ {| module_id := "m1"; module_title := "Vectors";
            module_description := ""; module_concepts := [] |};
         {| module_id := "m2"; module_title := "Matrices";
            module_description := ""; module_concepts := [] |} ] |}.

Definition first_render : Render := render initialState.

(** The canvas once the effects of the first render have run. *)
Definition mounted : State := refreshStartNodes initialState.

Definition course_shown : State :=
  refreshStartNodes
    (handleStart first_render 1700000000000 1700000000001 1700000000002
       "Algebra" false (Some algebra) mounted).

Definition module_opened : State :=
  addStudyNode first_render 1700000060000
    {| module_id := "m1"; module_title := "Vectors";
       module_description := ""; module_concepts := [] |}
    "curriculum-1700000000002" "Algebra" course_shown.

(** The tree  r -> a, b;  a -> a1  drawn on the canvas. *)
Definition plain (id : string) (yv : Z) : Node.t :=
  Node.mk id (Js.Str "study") (Position.mk 0 yv) [] false.

Definition fork_nodes : list Node.t :=
  [ plain "r" 0; plain "a" 0; plain "b" 600; plain "a1" 0 ].

Definition fork_edges : list Edge.t :=
  [ newEdge "r" "a"; newEdge "r" "b"; newEdge "a" "a1" ].

Definition fork : Tree :=
  TreeNode "r" 0 [ TreeNode "a" 0 [ TreeNode "a1" 0 [] ]; TreeNode "b" 600 [] ].

Definition fork_canvas (focus : string) : State :=
  mkState fork_nodes fork_edges [] [] (Some focus) [] "" false false [] [].

(** The same canvas once the user has clicked on the root, which selects
    it. *)
Definition fork_root_selected : State := selectNodes [ "r" ] (fork_canvas "r").

(** A cycle wired by hand,  a -> b -> a,  with a leaf  c  under  b. *)
Definition ring_nodes : list Node.t :=
  [ plain "a" 0; plain "b" 0; plain "c" 600 ].

Definition ring_edges : list Edge.t :=
  [ newEdge "a" "b"; newEdge "b" "a"; newEdge "b" "c" ].

Definition ring : State :=
  mkState ring_nodes ring_edges [] [] (Some "c") [] "" false false [] [].

(** Edges left dangling: the node  c  hangs under  g1,  and  g1, g2  point
    at each other, but neither is a node of the canvas. *)
Definition dangling_nodes : list Node.t := [ plain "c" 0 ].

Definition dangling_edges : list Edge.t :=
  [ newEdge "g1" "c"; newEdge "g2" "g1"; newEdge "g1" "g2" ].

(* ================================================================== *)
(** * More of the canvas: the keyboard and the connector menu *)
(* ================================================================== *)

(** [closeHandler], run on Escape and on the [close-fullscreen] event:
    [setNodes(nds => nds.map(n => ({ ...n, data: { ...n.data, isFullScreen: false } })))]. *)
Definition closeHandler (s : State) : State :=
  setNodes (map (setFullScreen false)) s.

(** [keyHandler(e)] of the render [r] that installed it; [typing] is
    [target.matches('input, textarea, [contenteditable]')] and [key] is
    [e.key]. *)
Definition keyHandler (r : Render) (typing : bool) (key : string) (s : State)
  : State :=
  if typing then s
  else
    let s1 := if key =? "Escape" then closeHandler s else s in
    if (key =? "Backspace") || (key =? "Delete")
    then handleDeleteSelected r s1
    else s1.

(** [menuState] without its [visible] field, which is [menuVisible]. *)
Record MenuState : Type := {
  menu_x : Z;
  menu_y : Z;
  menu_sourceNodeId : option string;
  menu_sourceHandle : option string
}.

(** [connectStartParams.current] *)
Record ConnectStartParams : Type := {
  start_nodeId : option string;
  start_handleId : option string
}.

(** The component's state with the menu and the connection being drawn. *)
Record Canvas : Type := {
  canvas_state : State;
  menuState : MenuState;
  connectStartParams : ConnectStartParams
}.

Definition initialCanvas : Canvas :=
  {| canvas_state := initialState;
     menuState := {| menu_x := 0; menu_y := 0; menu_sourceNodeId := None;
                     menu_sourceHandle := None |};
     connectStartParams := {| start_nodeId := None; start_handleId := None |} |}.

(** [onConnectStart(_, { nodeId, handleId })] *)
Definition onConnectStart (nodeId handleId : option string) (c : Canvas) : Canvas :=
  {| canvas_state := canvas_state c;
     menuState := menuState c;
     connectStartParams := {| start_nodeId := nodeId;
                              start_handleId := handleId |} |}.

(** What [onConnectEnd] reads from its event: whether the target is the
    pane, and the pointer position. *)
Record ConnectEndEvent : Type := {
  onPane : bool;
  clientX : Z;
  clientY : Z
}.

(** [onConnectEnd(event)] *)
Definition onConnectEnd (event : ConnectEndEvent) (c : Canvas) : Canvas :=
  match onPane event, Js.present (start_nodeId (connectStartParams c)) with
  | true, Some _ =>
      {| canvas_state := setMenuVisible true (canvas_state c);
         menuState :=
           {| menu_x := clientX event;
              menu_y := clientY event;
              menu_sourceNodeId := start_nodeId (connectStartParams c);
              menu_sourceHandle := start_handleId (connectStartParams c) |};
         connectStartParams := connectStartParams c |}
  | _, _ => c
  end.

(** The menu's [onSelect]: [handleMenuSelect(type)] of the current render,
    with [screenToFlowPosition] of the React Flow instance. *)
Definition menuSelect (screenToFlowPosition : Z -> Z -> Position.t) (now : Z)
  (type : string) (c : Canvas) : Canvas :=
  {| canvas_state :=
       handleMenuSelect (render (canvas_state c)) now type
         (menu_sourceNodeId (menuState c))
         (screenToFlowPosition (menu_x (menuState c)) (menu_y (menuState c)))
         (canvas_state c);
     menuState := menuState c;
     connectStartParams := connectStartParams c |}.

(** The menu's prompt: [handlePrompt] of [NodeMenu] gives up on a blank
    input, else calls [onPrompt(input)], which is
    [handleCommandSubmit(txt, menuState.sourceNodeId || undefined, position)]. *)
Definition menuPrompt (screenToFlowPosition : Z -> Z -> Position.t)
  (env : Gemini.Env) (now_module now_node : Z) (input : string) (c : Canvas)
  : Canvas :=
  if Js.blank input then c
  else
    {| canvas_state :=
         handleCommandSubmit (render (canvas_state c)) env now_module now_node
           input (Js.present (menu_sourceNodeId (menuState c)))
           (Some (screenToFlowPosition (menu_x (menuState c))
                                       (menu_y (menuState c))))
           (canvas_state c);
       menuState := menuState c;
       connectStartParams := connectStartParams c |}.

(** [onPaneClick] and the menu's [onClose]. *)
Definition closeMenu (c : Canvas) : Canvas :=
  {| canvas_state := setMenuVisible false (canvas_state c);
     menuState := menuState c;
     connectStartParams := connectStartParams c |}.

(** The nodes of kind [live]. *)
Definition liveNodes (s : State) : list Node.t :=
  filter (fun n => Js.is_str "live" (Node.type n)) (nodes s).

(** A node shown in full screen: [data.isFullScreen] is truthy. *)
Definition inFullScreen (n : Node.t) : bool :=
  Js.truthy (Js.get "isFullScreen" (Node.data n)).

(** The [history] a start node shows. *)
Definition shownHistory (n : Node.t) : Js.value :=
  Js.get "history" (Node.data n).

(* ================================================================== *)
(** * JavaScript values under assignment *)
(* ================================================================== *)

(** The values of [Js], with arrays as the objects they are: besides its
    elements an array may carry named properties, which is what an
    assignment such as [data.modules = []] gives an array. *)
Module Dyn.

Inductive value : Type :=
| Undefined
| Null
| Bool (b : bool)
| Num (n : Z)
| Str (s : string)
| Arr (items : list value) (props : list (string * value))
| Obj (fields : list (string * value)).

Definition object : Type := list (string * value).

(** A value as [JSON.parse] returns it: no array has a named property. *)
Fixpoint of_js (v : Js.value) : value :=
  match v with
  | Js.Undefined => Undefined
  | Js.Null => Null
  | Js.Bool b => Bool b
  | Js.Num n => Num n
  | Js.Str s => Str s
  | Js.Arr items => Arr (map of_js items) []
  | Js.Obj fields =>
      Obj (map (fun kv => match kv with (k, x) => (k, of_js x) end) fields)
  end.

Fixpoint get (k : string) (o : object) : value :=
  match o with
  | [] => Undefined
  | (k', v) :: rest => if k' =? k then v else get k rest
  end.

Fixpoint set (k : string) (v : value) (o : object) : object :=
  match o with
  | [] => [(k, v)]
  | (k', v') :: rest =>
      if k' =? k then (k, v) :: rest else (k', v') :: set k v rest
  end.

(** [Array.isArray(v)] *)
Definition is_array (v : value) : bool :=
  match v with
  | Arr _ _ => true
  | _ => false
  end.

(** [v.k], for a key that is neither an index nor a built-in member
    ([modules], [slides], [bullets], [quiz], [suggestedQuestions]):
    reading a property of [null] or [undefined] throws a [TypeError]. *)
Definition member (v : value) (k : string) : Promise value :=
  match v with
  | Undefined | Null => Rejected "TypeError"
  | Obj fields => Resolved (get k fields)
  | Arr _ props => Resolved (get k props)
  | Bool _ | Num _ | Str _ => Resolved Undefined
  end.

(** [v.k = w] in module code, which is strict: the assignment creates or
    overwrites the property of an object or of an array, and throws a
    [TypeError] on anything else.  The result is [v] after the
    assignment. *)
Definition assign (v : value) (k : string) (w : value) : Promise value :=
  match v with
  | Obj fields => Resolved (Obj (set k w fields))
  | Arr items props => Resolved (Arr items (set k w props))
  | Undefined | Null | Bool _ | Num _ | Str _ => Rejected "TypeError"
  end.

Definition indexed (items : list value) : object :=
  combine (map (fun i => Js.dec (Z.of_nat i)) (seq 0 (List.length items))) items.

(** The own enumerable properties an object spread [...v] copies. *)
Definition own_props (v : value) : object :=
  match v with
  | Obj fields => fields
  | Arr items props => indexed items ++ props
  | Str s => indexed (map (fun c => Str (String c "")) (list_ascii_of_string s))
  | Undefined | Null | Bool _ | Num _ => []
  end.

(** [l.forEach(f)] for an [f] that may throw and that changes the element
    it is given: the elements after the loop, or the first exception. *)
Fixpoint forEach (f : value -> Promise value) (l : list value)
  : Promise (list value) :=
  match l with
  | [] => Resolved []
  | x :: rest =>
      x' <- f x ;;
      rest' <- forEach f rest ;;
      Resolved (x' :: rest')
  end.

End Dyn.

(* ================================================================== *)
(** * services/geminiService.ts: the generators *)
(* ================================================================== *)

Module Service.

(** The requests of the functions below, by the arguments their prompt is
    built from. *)
Inductive Request : Type :=
| CurriculumRequest (topic plan : string)
| LessonRequest (moduleTitle topic : string)
| QuizRequest (topic : string) (context : option string)
| SlidesRequest (topic : string) (context : option string).

(** The collaborators: the model, which for each request throws or
    returns a response whose [text] may be missing, and [JSON.parse],
    which throws a [SyntaxError] ([None]) on text that is not JSON. *)
Record Env : Type := {
  generateContent : Request -> Gemini.GenerateContentResponse;
  JSON_parse : string -> option Js.value
}.

(** [await ai.models.generateContent(...)] *)
Definition await_generate (env : Env) (request : Request)
  : Promise (option string) :=
  match generateContent env request with
  | Gemini.GenerateThrows e => Rejected e
  | Gemini.GenerateReturns text => Resolved text
  end.

(** [JSON.parse(text)] *)
Definition parse (env : Env) (text : string) : Promise Js.value :=
  match JSON_parse env text with
  | Some v => Resolved v
  | None => Rejected "SyntaxError"
  end.

(** [response.text || dflt] *)
Definition text_or (dflt : string) (text : option string) : string :=
  match Js.present text with
  | Some t => t
  | None => dflt
  end.

(** The text [safeParseJSON] parses at its second attempt. *)
Definition repaired (text : string) : string :=
  let repaired := Text.trim text in
  if Text.startsWith "{" repaired && negb (Text.endsWith "}" repaired)
  then repaired ++ Text.repeat (Text.quote ++ "}") 5
  else repaired.

(** [safeParseJSON(text)] *)
Definition safeParseJSON (env : Env) (text : string) : Promise Js.value :=
  try_catch (parse env text)
    (fun _ => try_catch (parse env (repaired text))
                (fun _ => Resolved (Js.Obj []))).

(** [if (!Array.isArray(data.k)) data.k = [];]: [data] after the
    statement. *)
Definition ensure_array (k : string) (data : Dyn.value) : Promise Dyn.value :=
  v <- Dyn.member data k ;;
  if Dyn.is_array v then Resolved data
  else Dyn.assign data k (Dyn.Arr [] []).

(** [generateCurriculum(topic, plan, onProgress?)]: the messages given to
    [onProgress], when there is one, and the course. *)
Definition generateCurriculum (env : Env) (topic plan : string)
  (onProgress : bool) : list string * Promise Dyn.value :=
  ( if onProgress then [ "Drafting course structure..." ] else [],
    text <- await_generate env (CurriculumRequest topic plan) ;;
    data <- safeParseJSON env (text_or "{}" text) ;;
    ensure_array "modules" (Dyn.of_js data) ).

(** [generateLessonContent(moduleId, moduleTitle, topic)] *)
Definition generateLessonContent (env : Env) (moduleId moduleTitle topic : string)
  : Promise Dyn.value :=
  text <- await_generate env (LessonRequest moduleTitle topic) ;;
  parsed <- safeParseJSON env (text_or "{}" text) ;;
  data <- ensure_array "slides" (Dyn.of_js parsed) ;;
  slides <- Dyn.member data "slides" ;;
  data <- match slides with
          | Dyn.Arr items props =>
              items' <- Dyn.forEach (ensure_array "bullets") items ;;
              Dyn.assign data "slides" (Dyn.Arr items' props)
          | _ => Rejected "TypeError"
          end ;;
  data <- ensure_array "quiz" data ;;
  data <- ensure_array "suggestedQuestions" data ;;
  Resolved (Dyn.Obj (Dyn.set "moduleId" (Dyn.Str moduleId) (Dyn.own_props data))).

(** [generateQuizOnly(topic, context?)] *)
Definition generateQuizOnly (env : Env) (topic : string) (context : option string)
  : Promise Js.value :=
  text <- await_generate env (QuizRequest topic context) ;;
  data <- safeParseJSON env (text_or "[]" text) ;;
  match data with
  | Js.Arr _ => Resolved data
  | _ =>
      match Js.member data "quiz" with
      | Some quiz => Resolved (Js.or_else quiz (Js.Arr []))
      | None => Rejected "TypeError"
      end
  end.

(** [generateSlidesOnly(topic, context?)] *)
Definition generateSlidesOnly (env : Env) (topic : string) (context : option string)
  : Promise Js.value :=
  text <- await_generate env (SlidesRequest topic context) ;;
  data <- safeParseJSON env (text_or "[]" text) ;;
  match data with
  | Js.Arr _ => Resolved data
  | _ =>
      match Js.member data "slides" with
      | Some slides => Resolved (Js.or_else slides (Js.Arr []))
      | None => Rejected "TypeError"
      end
  end.

End Service.

(** A value that holds properties: an object or an array. *)
Definition holds_properties (v : Js.value) : bool :=
  match v with
  | Js.Obj _ | Js.Arr _ => true
  | _ => false
  end.

(** [v] is an array. *)
Definition is_list (v : Js.value) : bool :=
  match v with
  | Js.Arr _ => true
  | _ => false
  end.

(** What reading [v.k] gives, [undefined] when the read throws. *)
Definition property (v : Dyn.value) (k : string) : Dyn.value :=
  match Dyn.member v k with
  | Resolved x => x
  | Rejected _ => Dyn.Undefined
  end.

(** A model whose reply to every request is [text], with a parser that
    knows the texts of [known]. *)
Definition env_replying (text : string) (known : list (string * Js.value))
  : Service.Env :=
  {| Service.generateContent := fun _ => Gemini.GenerateReturns (Some text);
     Service.JSON_parse :=
       fun t => option_map snd (find (fun kv => fst kv =? t) known) |}.

(** The value [safeParseJSON] returns. *)
Definition parsed (env : Service.Env) (text : string) : Js.value :=
  match Service.JSON_parse env text with
  | Some v => v
  | None =>
      match Service.JSON_parse env (Service.repaired text) with
      | Some v => v
      | None => Js.Obj []
      end
  end.

(** The topic [handleStart] works with. *)
Definition effectiveTopic (topic : string) (hasAttachments : bool) : string :=
  if topic =? "" then (if hasAttachments then "Uploaded Materials"
                       else "General Study")
  else topic.

(** What [handleNavigate] does to each node when the current node is in
    full screen. *)
Definition handOver (nodeId tid : string) (n : Node.t) : Node.t :=
  if Node.id n =? nodeId then setFullScreen false n
  else if Node.id n =? tid then setFullScreen true n
  else n.

(* ================================================================== *)
(** * services/geminiService.ts: the exam plan *)
(* ================================================================== *)

Module Exam.

(** [types.ts]: an attachment of the start node. *)
Record Attachment : Type := {
  att_type : string;
  att_mimeType : option string;
  att_data : string;
  att_name : option string
}.

(** A part of a request: [{ inlineData: { mimeType, data } }] or
    [{ text }]. *)
Inductive Part : Type :=
| InlineData (mimeType data : string)
| TextPart (text : string).

(** [attachments.forEach(att => { if (att.type === 'file' && att.mimeType)
    parts.push({ inlineData: { mimeType: att.mimeType, data: att.data } }) })],
    from the empty [parts]. *)
Definition pushFiles (attachments : list Attachment) : list Part :=
  fold_left
    (fun parts att =>
       match Js.present (att_mimeType att) with
       | Some mimeType =>
           if att_type att =? "file"
           then parts ++ [ InlineData mimeType (att_data att) ]
           else parts
       | None => parts
       end)
    attachments [].

(** [textPrompt], as the prompt is put together. *)
Definition textPrompt (topic : string) (attachments : list Attachment) : string :=
  let p0 := "Prepare a high-level exam strategy and study plan. " in
  let urls := map att_data (filter (fun a => att_type a =? "url") attachments) in
  let p1 := if (0 <? List.length urls)%nat
            then (p0 ++ Text.nl ++ "Consider content from these resources: "
                     ++ String.concat ", " urls ++ ".")%string
            else p0 in
  let p2 := if negb (topic =? "")
            then (p1 ++ Text.nl ++ "Focus topic: " ++ topic ++ ".")%string
            else (p1 ++ Text.nl
                     ++ "Analyze the provided documents/images to determine the subject matter.")%string in
  (p2 ++ Text.nl
      ++ "Focus on the top 3-5 critical areas to master based on the provided context.")%string.

(** [parts], as both requests carry it. *)
Definition examPlanParts (topic : string) (attachments : list Attachment)
  : list Part :=
  pushFiles attachments ++ [ TextPart (textPrompt topic attachments) ].

(** What the stream of [generateContentStream] does when it is read: it
    gives a chunk, whose [text] may be missing, it ends, or it throws. *)
Inductive Stream : Type :=
| StreamEnd
| StreamThrows (err : string)
| StreamChunk (text : option string) (rest : Stream).

Record Env : Type := {
  generateContentStream : list Part -> Promise Stream;
  generateContent : list Part -> Gemini.GenerateContentResponse
}.

(** An async generator read to its end: the values it has yielded, and
    whether it has returned or thrown. *)
Record Generated : Type := {
  yielded : list Js.value;
  ended : Promise unit
}.

(** [chunk.text] *)
Definition text_of (text : option string) : Js.value :=
  match text with
  | Some t => Js.Str t
  | None => Js.Undefined
  end.

(** [for await (const chunk of responseStream) yield chunk.text]: the
    values yielded, and the exception that has ended the loop, if any. *)
Fixpoint relay (stream : Stream) : list Js.value * option string :=
  match stream with
  | StreamEnd => ([], None)
  | StreamThrows e => ([], Some e)
  | StreamChunk text rest =>
      let (ys, failure) := relay rest in (text_of text :: ys, failure)
  end.

Definition notice : string :=
  ("Thinking model busy. Switching to fast mode..." ++ Text.nl)%string.

(** [generateExamPlan(topic, attachments)] *)
Definition generateExamPlan (env : Env) (topic : string)
  (attachments : list Attachment) : Generated :=
  let parts := examPlanParts topic attachments in
  let (ys, failure) :=
    match generateContentStream env parts with
    | Resolved responseStream => relay responseStream
    | Rejected e => ([], Some e)
    end in
  match failure with
  | None => {| yielded := ys; ended := Resolved tt |}
  | Some _ =>
      match generateContent env parts with
      | Gemini.GenerateThrows e =>
          {| yielded := ys ++ [ Js.Str notice ]; ended := Rejected e |}
      | Gemini.GenerateReturns text =>
          {| yielded := ys ++ [ Js.Str notice;
                                Js.Str (Service.text_or "" text) ];
             ended := Resolved tt |}
      end
  end.

(** The loop of [handleStart] that reads the plan:
    [let plan = ''; for await (const chunk of planGenerator) plan += chunk]. *)
Definition collectPlan (planGenerator : Generated) : Promise string :=
  let plan := fold_left (fun plan chunk => (plan ++ Js.to_string chunk)%string)
                (yielded planGenerator) "" in
  match ended planGenerator with
  | Resolved _ => Resolved plan
  | Rejected e => Rejected e
  end.

(** A stream that gives the chunks [texts] and goes on as [rest]. *)
Fixpoint chunks (texts : list (option string)) (rest : Stream) : Stream :=
  match texts with
  | [] => rest
  | t :: texts' => StreamChunk t (chunks texts' rest)
  end.

(** What the chunks [texts] add to the plan. *)
Definition streamed (texts : list (option string)) : string :=
  String.concat "" (map (fun t => Js.to_string (text_of t)) texts).

(** An attachment that is sent as inline data. *)
Definition sendable (att : Attachment) : bool :=
  (att_type att =? "file")
  && match Js.present (att_mimeType att) with Some _ => true | None => false end.

End Exam.

(* ================================================================== *)
(** * services/geminiService.ts: media analysis *)
(* ================================================================== *)

Module Media.

(** What a [throw] or a rejected promise carries: an [Error] object, with
    its [name] and [message], or any other value. *)
Inductive Thrown : Type :=
| ErrorObject (name message : string)
| Value (v : Js.value).

(** How a call ends: it returns, or it throws. *)
Inductive Outcome (A : Type) : Type :=
| Returns (a : A)
| Throws (error : Thrown).

Arguments Returns {A} a.
Arguments Throws {A} error.

(** What reading the blob as a data URL gives: [reader.onerror] rejects
    with the event it is given; [reader.onloadend] resolves with what
    follows the first comma of the result. *)
Inductive ReadOutcome : Type :=
| ReadFails (event : Js.object)
| ReadGives (result : string).

Inductive BlobOutcome : Type :=
| BlobThrows (error : Thrown)
| BlobReturns (type : string) (read : ReadOutcome).

Inductive FetchOutcome : Type :=
| FetchThrows (error : Thrown)
| FetchReturns (ok : bool) (blob : BlobOutcome).

Inductive GenerateOutcome : Type :=
| GenerateThrows (error : Thrown)
| GenerateReturns (text : option string).

(** The collaborators: [getAIClient()], which builds the client or throws
    ([Some]); [fetch], by the URL; the model, by the inline data and the
    prompt of the request; and the engine, by the message it gives the
    [TypeError] it raises on a value that has no properties or cannot be
    converted to a string. *)
Record Env : Type := {
  getAIClient : option Thrown;
  fetch : string -> FetchOutcome;
  generateContent : string -> option string -> string -> GenerateOutcome;
  engineMessage : Thrown -> string
}.

(** [mimeType] and [data] of a data URL. *)
Definition ofDataUrl (url mimeType : string) : string * option string :=
  let parts := Text.split "," url in
  let meta := hd "" parts in
  let data := nth_error parts 1 in
  match Text.match_colon_semicolon meta with
  | Some group => (group, data)
  | None => (mimeType, data)
  end.

(** [mimeType] and [data] of a remote URL. *)
Definition ofRemoteUrl (env : Env) (url : string)
  : Outcome (string * option string) :=
  match fetch env url with
  | FetchThrows error => Throws error
  | FetchReturns ok blob =>
      if negb ok then Throws (ErrorObject "Error" "Failed to fetch media")
      else match blob with
           | BlobThrows error => Throws error
           | BlobReturns type (ReadFails event) => Throws (Value (Js.Obj event))
           | BlobReturns type (ReadGives result) =>
               Returns (type, nth_error (Text.split "," result) 1)
           end
  end.

(** The request [{ inlineData: { mimeType, data } }, { text: prompt }] and
    [response.text || "No analysis provided."]. *)
Definition generate (env : Env) (mimeType : string) (data : option string)
  (prompt : string) : Outcome string :=
  match generateContent env mimeType data prompt with
  | GenerateThrows error => Throws error
  | GenerateReturns text => Returns (Service.text_or "No analysis provided." text)
  end.

(** The body of the [try] block. *)
Definition attempt (env : Env) (url type prompt : string) : Outcome string :=
  let mimeType := if type =? "image" then "image/jpeg" else "video/mp4" in
  match (if Text.startsWith "data:" url
         then Returns (ofDataUrl url mimeType)
         else ofRemoteUrl env url) with
  | Throws error => Throws error
  | Returns inline => generate env (fst inline) (snd inline) prompt
  end.

(** [`${error.message || "Unknown error"}`]: the text, or [None] when
    the expression throws a [TypeError]: [null] and [undefined] have no
    properties, and a truthy message that is an object may have no text. *)
Definition messageOf (error : Thrown) : option string :=
  match error with
  | ErrorObject _ message =>
      Some (if message =? "" then "Unknown error" else message)
  | Value Js.Undefined | Value Js.Null => None
  | Value (Js.Obj fields) =>
      if Js.truthy (Js.get "message" fields)
      then Js.template (Js.get "message" fields)
      else Some "Unknown error"
  | Value _ => Some "Unknown error"
  end.

(** The text the [catch] block returns. *)
Definition failure (message : string) : string :=
  ("Analysis failed: " ++ message
     ++ ". Note: Remote URLs may be blocked by CORS.")%string.

(** The [try] block with its [catch]: an exception is answered with the
    failure text, unless building that text throws. *)
Definition handled (env : Env) (body : Outcome string) : Outcome string :=
  match body with
  | Returns text => Returns text
  | Throws error =>
      match messageOf error with
      | Some message => Returns (failure message)
      | None => Throws (ErrorObject "TypeError" (engineMessage env error))
      end
  end.

(** The first statement of the function, before the [try]: what
    [getAIClient()] throws rejects the promise. *)
Definition withClient {A : Type} (env : Env) (rest : Outcome A) : Outcome A :=
  match getAIClient env with
  | Some error => Throws error
  | None => rest
  end.

(** [analyzeMedia(url, type, prompt)] *)
Definition analyzeMedia (env : Env) (url type prompt : string) : Outcome string :=
  withClient env (handled env (attempt env url type prompt)).

(** What [analyzeMedia] answers when its request is made with the inline
    data [{ mimeType, data }]. *)
Definition answer (env : Env) (mimeType : string) (data : option string)
  (prompt : string) : Outcome string :=
  withClient env (handled env (generate env mimeType data prompt)).

(** The value has a message the [catch] block can show: every [Error]
    object has, [null] and [undefined] have not. *)
Definition readable (error : Thrown) : Prop := messageOf error <> None.

(** A character that is neither a comma, a semicolon, nor the start of a
    line terminator. *)
Definition plain_char (c : ascii) : bool :=
  negb (Ascii.eqb c ",") && negb (Ascii.eqb c ";")
  && negb (Ascii.eqb c (ascii_of_nat 10)) && negb (Ascii.eqb c (ascii_of_nat 13))
  && negb (Ascii.eqb c (ascii_of_nat 226)).

Fixpoint all_chars (p : ascii -> bool) (s : string) : bool :=
  match s with
  | EmptyString => true
  | String c rest => p c && all_chars p rest
  end.

Definition no_comma (c : ascii) : bool := negb (Ascii.eqb c ",").

Definition no_semicolon (c : ascii) : bool :=
  negb (Ascii.eqb c ",") && negb (Ascii.eqb c ";").

End Media.

(** A model that names what it is shown, with no network. *)
Definition media_env : Media.Env :=
  {| Media.getAIClient := None;
     Media.fetch :=
       fun _ => Media.FetchThrows (Media.ErrorObject "TypeError" "Failed to fetch");
     Media.generateContent :=
       fun mimeType data _ =>
         match data with
         | Some d =>
             Media.GenerateReturns
               (Some (if mimeType =? "image/png" then "png, " ++ d
                      else "other, " ++ d)%string)
         | None => Media.GenerateReturns None
         end;
     Media.engineMessage := fun _ => "Cannot read properties" |}.

(* ================================================================== *)
(** * components/nodes/MediaNode.tsx *)
(* ================================================================== *)

Module MediaNode.

(** The state of [MediaNodeContent]. *)
Record State : Type := {
  url : string;
  type : string;
  analysis : string;
  isLoading : bool
}.

Definition prompt : string :=
  "Analyze this media and generate a study summary with key points and educational value.".

(** [`${error}`]: [Error.prototype.toString] for an [Error] object, the
    conversion of the value otherwise ([None]: it throws). *)
Definition errorText (error : Media.Thrown) : option string :=
  match error with
  | Media.ErrorObject name message =>
      Some (if name =? "" then message
            else if message =? "" then name
                 else name ++ ": " ++ message)%string
  | Media.Value v => Js.template v
  end.

(** [handleAnalyze]: [setIsLoading(true); setAnalysis('')], then the
    [try] block; its [catch] block shows [`Error: ${error}`], and when
    that conversion throws the analysis stays empty; [finally] ends the
    loading. *)
Definition handleAnalyze (env : Media.Env) (st : State) : State :=
  if url st =? "" then st
  else
    let analysis' :=
      match Media.analyzeMedia env (url st) (type st) prompt with
      | Media.Returns result => result
      | Media.Throws error =>
          match errorText error with
          | Some text => ("Error: " ++ text)%string
          | None => ""
          end
      end in
    {| url := url st; type := type st; analysis := analysis';
       isLoading := false |}.

End MediaNode.

(* ================================================================== *)
(** * components/nodes/StartNode.tsx: the attachments *)
(* ================================================================== *)

Module StartNode.

(** [handleAddUrl]: the attachments and the URL input afterwards. *)
Definition handleAddUrl (urlInput : string) (attachments : list Exam.Attachment)
  : list Exam.Attachment * string :=
  if Js.blank urlInput then (attachments, urlInput)
  else (attachments ++ [ {| Exam.att_type := "url";
                            Exam.att_mimeType := None;
                            Exam.att_data := urlInput;
                            Exam.att_name := Some urlInput |} ],
        "").

(** [prev.filter((_, i) => i !== index)], counting from [i]. *)
Fixpoint filter_index {A : Type} (index i : nat) (l : list A) : list A :=
  match l with
  | [] => []
  | a :: rest =>
      if (i =? index)%nat then filter_index index (S i) rest
      else a :: filter_index index (S i) rest
  end.

(** [removeAttachment(index)] *)
Definition removeAttachment (index : nat) (attachments : list Exam.Attachment)
  : list Exam.Attachment :=
  filter_index index 0 attachments.

(** The condition under which [handleSubmit] calls [onStart]:
    [(input.trim() || attachments.length > 0) && !isLoading]. *)
Definition submits (input : string) (attachments : list Exam.Attachment)
  (isLoading : bool) : bool :=
  (negb (Js.blank input) || (0 <? List.length attachments)%nat)
  && negb isLoading.

End StartNode.

(* ================================================================== *)
(** * The quiz node *)
(* ================================================================== *)

Module QuizNode.

(** [types.ts] *)
Record QuizQuestion : Type := {
  q_id : string;
  q_question : string;
  q_options : list string;
  q_correctIndex : Z;
  q_explanation : string
}.

(** An element of [answers]: an empty slot of the array, [undefined], or a
    number. *)
Inductive Slot : Type :=
| Hole
| Undef
| Val (n : Z).

(** The state of [QuizNodeContent]. *)
Record State : Type := {
  quiz : list QuizQuestion;
  answers : list Slot;
  submitted : bool;
  loading : bool
}.

Definition initial : State :=
  {| quiz := []; answers := []; submitted := false; loading := true |}.

(** [new Array(n).fill(-1)] *)
Definition unanswered (n : nat) : list Slot := List.repeat (Val (-1)) n.

(** [fetchQuiz], given what [generateQuizOnly] has done: on success
    [setQuiz(data); setAnswers(new Array(data.length).fill(-1))], and
    [setLoading(false)] in any case. *)
Definition fetchQuiz (outcome : Promise (list QuizQuestion)) (st : State) : State :=
  match outcome with
  | Resolved data =>
      {| quiz := data; answers := unanswered (List.length data);
         submitted := submitted st; loading := false |}
  | Rejected _ =>
      {| quiz := quiz st; answers := answers st;
         submitted := submitted st; loading := false |}
  end.

(** [[...prev]]: the copy has [undefined] where [prev] has an empty slot. *)
Definition copy (prev : list Slot) : list Slot :=
  map (fun a => match a with Hole => Undef | _ => a end) prev.

(** [n[idx] = v]: inside the array the element is replaced; beyond its
    end the array grows, with empty slots up to [idx]. *)
Fixpoint store (idx : nat) (v : Slot) (n : list Slot) : list Slot :=
  match n, idx with
  | [], O => [ v ]
  | [], S idx' => Hole :: store idx' v []
  | _ :: rest, O => v :: rest
  | a :: rest, S idx' => a :: store idx' v rest
  end.

(** The click on option [oIdx] of question [idx]:
    [!submitted && setAnswers(prev => { const n = [...prev]; n[idx] = oIdx; return n; })]. *)
Definition select (idx oIdx : nat) (st : State) : State :=
  if submitted st then st
  else {| quiz := quiz st;
          answers := store idx (Val (Z.of_nat oIdx)) (copy (answers st));
          submitted := submitted st; loading := loading st |}.

(** [answers.includes(-1)] *)
Definition includes_minus_one (l : list Slot) : bool :=
  existsb (fun a => match a with Val n => (n =? -1)%Z | _ => false end) l.

(** The SUBMIT button, disabled while [answers.includes(-1)]. *)
Definition submit (st : State) : State :=
  if includes_minus_one (answers st) then st
  else {| quiz := quiz st; answers := answers st;
          submitted := true; loading := loading st |}.

(** Try Again: [setSubmitted(false); setAnswers(new Array(quiz.length).fill(-1))]. *)
Definition tryAgain (st : State) : State :=
  {| quiz := quiz st; answers := unanswered (List.length (quiz st));
     submitted := false; loading := loading st |}.

(** [curr === quiz[idx]?.correctIndex ? 1 : 0] *)
Definition point (qz : list QuizQuestion) (idx : nat) (curr : Slot) : Z :=
  match curr, nth_error qz idx with
  | Val n, Some q => if (n =? q_correctIndex q)%Z then 1 else 0
  | Undef, None => 1
  | _, _ => 0
  end.

(** [answers.reduce((acc, curr, idx) => acc + point, 0)], from index [idx]
    on: [reduce] passes over the empty slots. *)
Fixpoint reduce_from (qz : list QuizQuestion) (idx : nat) (l : list Slot) (acc : Z)
  : Z :=
  match l with
  | [] => acc
  | Hole :: rest => reduce_from qz (S idx) rest acc
  | curr :: rest => reduce_from qz (S idx) rest (acc + point qz idx curr)
  end.

Definition score (st : State) : Z :=
  reduce_from (quiz st) 0 (answers st) 0.

(** The states of the component.  The quiz is on screen once loading has
    ended: an option button exists for each option of each question, the
    SUBMIT button while the quiz is not submitted, Try Again afterwards. *)
Inductive reachable : State -> Prop :=
| reach_initial : reachable initial
| reach_fetch st outcome :
    reachable st -> reachable (fetchQuiz outcome st)
| reach_select st idx oIdx q :
    reachable st -> loading st = false ->
    nth_error (quiz st) idx = Some q ->
    (oIdx < List.length (q_options q))%nat ->
    reachable (select idx oIdx st)
| reach_submit st :
    reachable st -> loading st = false -> submitted st = false ->
    reachable (submit st)
| reach_tryAgain st :
    reachable st -> loading st = false -> submitted st = true ->
    reachable (tryAgain st).

(** An answer to question [q]: not given yet, or one of its options. *)
Definition answer_of (q : QuizQuestion) (a : Slot) : Prop :=
  exists n, a = Val n /\
            (n = (-1)%Z \/ (0 <= n < Z.of_nat (List.length (q_options q)))%Z).

(** The number of questions answered as [correctIndex] says. *)
Fixpoint matches (qz : list QuizQuestion) (l : list Slot) : nat :=
  match qz, l with
  | q :: qz', Val n :: l' =>
      (if (n =? q_correctIndex q)%Z then 1 else 0) + matches qz' l'
  | _ :: qz', _ :: l' => matches qz' l'
  | _, _ => 0
  end.

End QuizNode.

(** A quiz of two questions, answered, submitted and tried again. *)
Definition two_questions : list QuizNode.QuizQuestion :=
  [ {| QuizNode.q_id := "1"; QuizNode.q_question := "2 + 2";
       QuizNode.q_options := [ "3"; "4" ]; QuizNode.q_correctIndex := 1;
       QuizNode.q_explanation := "" |};
    {| QuizNode.q_id := "2"; QuizNode.q_question := "3 * 3";
       QuizNode.q_options := [ "9"; "6"; "12" ]; QuizNode.q_correctIndex := 0;
       QuizNode.q_explanation := "" |} ].

Definition quiz_answered : QuizNode.State :=
  QuizNode.submit
    (QuizNode.select 1 2
       (QuizNode.select 0 1
          (QuizNode.fetchQuiz (Resolved two_questions) QuizNode.initial))).

(* ================================================================== *)
(** * services/geminiService.ts: video generation *)
(* ================================================================== *)

Module Video.

(** What [generateVideo] reads of an operation: [operation.done] and
    [operation.response?.generatedVideos?.[0]?.video?.uri]. *)
Record Operation : Type := {
  done : bool;
  uri : option string
}.

(** The collaborators: the request that starts the operation, the poll
    (by the number of polls made before it), and [process.env.API_KEY]. *)
Record Env : Type := {
  generateVideos : string -> Promise Operation;
  getVideosOperation : nat -> Operation -> Promise Operation;
  API_KEY : Js.value
}.

(** The loop [while (!operation.done) { wait 5000 ms; operation = await
    getVideosOperation(...) }], after [polls] polls.  [fuel] bounds the
    number of turns the model runs; [None] means the loop has not ended
    within [fuel] turns.  The result is the waiting time in ms and the
    operation the loop ends with, or the exception of a poll. *)
Fixpoint poll (env : Env) (fuel polls : nat) (operation : Operation)
  : option (Z * Promise Operation) :=
  match fuel with
  | O => None
  | S fuel' =>
      if done operation then Some (5000 * Z.of_nat polls, Resolved operation)%Z
      else
        match getVideosOperation env polls operation with
        | Rejected e => Some (5000 * Z.of_nat (S polls), Rejected e)%Z
        | Resolved operation' => poll env fuel' (S polls) operation'
        end
  end.

(** [generateVideo(prompt)]: the time spent waiting and the link, [null]
    ([None]) when the operation has no video. *)
Definition generateVideo (env : Env) (fuel : nat) (prompt : string)
  : option (Z * Promise (option string)) :=
  match generateVideos env prompt with
  | Rejected e => Some (0%Z, Rejected e)
  | Resolved operation =>
      match poll env fuel 0 operation with
      | None => None
      | Some (waited, Rejected e) => Some (waited, Rejected e)
      | Some (waited, Resolved operation') =>
          Some (waited,
                Resolved
                  match Js.present (uri operation') with
                  | Some downloadLink =>
                      Some (downloadLink ++ "&key="
                              ++ Js.to_string (API_KEY env))%string
                  | None => None
                  end)
      end
  end.

(** The operation after [n] polls, when none of them throws. *)
Fixpoint after (env : Env) (n : nat) (operation : Operation) : option Operation :=
  match n with
  | O => Some operation
  | S n' =>
      match after env n' operation with
      | Some op =>
          match getVideosOperation env n' op with
          | Resolved op' => Some op'
          | Rejected _ => None
          end
      | None => None
      end
  end.

(** The operation is still running after [k] polls. *)
Definition running (env : Env) (operation : Operation) (k : nat) : Prop :=
  exists op, after env k operation = Some op /\ done op = false.

End Video.

(** A video that is ready at the third poll. *)
Definition video_env : Video.Env :=
  {| Video.generateVideos :=
       fun _ => Resolved {| Video.done := false; Video.uri := None |};
     Video.getVideosOperation :=
       fun polls _ =>
         Resolved (if (polls <? 2)%nat
                   then {| Video.done := false; Video.uri := None |}
                   else {| Video.done := true;
                           Video.uri := Some "https://videos/1?alt=media" |});
     Video.API_KEY := Js.Str "k" |}.

(* ================================================================== *)
(** * The study chat *)
(* ================================================================== *)

Module StudyChat.

(** [types.ts]: the fields of a message the chat uses. *)
Record Source : Type := {
  src_title : string;
  src_uri : string
}.

Record Message : Type := {
  msg_id : string;
  msg_role : string;
  msg_content : string;
  msg_sources : option (list Source)
}.

(** A grounding chunk: [c.web?.uri] and [c.web?.title]. *)
Record GroundingChunk : Type := {
  web_uri : option string;
  web_title : option string
}.

(** A chunk of the reply: [chunk.text] and
    [chunk.candidates?.[0]?.groundingMetadata?.groundingChunks]. *)
Record Chunk : Type := {
  chunk_text : option string;
  chunk_grounding : option (list GroundingChunk)
}.

(** What the generator [streamChatResponse] gives when it is read: the
    chunks it yields, and the exception that ends it, if any. *)
Record Reply : Type := {
  reply_chunks : list Chunk;
  reply_failure : option string
}.

(** The chat of the model: by the model's name, whether the search tool
    is on, the history (role and text of each message) and the new
    message. *)
Record Env : Type := {
  sendMessageStream : string -> bool -> list (string * string) -> string -> Reply
}.

(** [streamChatResponse(history, newMessage, useSearch)]: the generator
    relays the chunks of the chat. *)
Definition streamChatResponse (env : Env) (history : list (string * string))
  (newMessage : string) (useSearch : bool) : Reply :=
  let model := if useSearch then "gemini-2.5-flash" else "gemini-3-pro-preview" in
  sendMessageStream env model useSearch history newMessage.

(** The state of [StudyChat]. *)
Record State : Type := {
  messages : list Message;
  input : string;
  isStreaming : bool;
  useSearch : bool
}.

Definition greeting : string :=
  "Hello! I am your study assistant. Ask me anything about your course materials, or toggle "
  ++ Text.quote ++ "Web Search" ++ Text.quote ++ " for current events.".

Definition initial : State :=
  {| messages := [ {| msg_id := "1"; msg_role := "model";
                      msg_content := greeting; msg_sources := None |} ];
     input := ""; isStreaming := false; useSearch := false |}.

(** [chunks.forEach(c => { if (c.web?.uri) sources.push({ title:
    c.web.title || 'Source', uri: c.web.uri }) })] *)
Definition pushSources (sources : list Source) (chunks : list GroundingChunk)
  : list Source :=
  fold_left
    (fun acc c =>
       match Js.present (web_uri c) with
       | Some uri =>
           acc ++ [ {| src_title := match Js.present (web_title c) with
                                    | Some t => t
                                    | None => "Source"
                                    end;
                       src_uri := uri |} ]
       | None => acc
       end)
    chunks sources.

(** The update of the message list for a chunk with text:
    [prev.map(m => m.id === currentMsgId ? { ...m, content: responseText,
    sources: sources.length > 0 ? sources : undefined } : m)]. *)
Definition showReply (currentMsgId responseText : string) (sources : list Source)
  (prev : list Message) : list Message :=
  map (fun m =>
         if msg_id m =? currentMsgId
         then {| msg_id := msg_id m; msg_role := msg_role m;
                 msg_content := responseText;
                 msg_sources := if (0 <? List.length sources)%nat
                                then Some sources else None |}
         else m) prev.

(** The body of [for await (const chunk of generator)], for the chunks
    [chunks]: [responseText], [sources] and the messages afterwards. *)
Fixpoint readChunks (currentMsgId : string) (chunks : list Chunk)
  (responseText : string) (sources : list Source) (msgs : list Message)
  : string * list Source * list Message :=
  match chunks with
  | [] => (responseText, sources, msgs)
  | chunk :: rest =>
      match Js.present (chunk_text chunk) with
      | Some text =>
          let responseText' := (responseText ++ text)%string in
          let sources' := match chunk_grounding chunk with
                          | Some grounding => pushSources sources grounding
                          | None => sources
                          end in
          readChunks currentMsgId rest responseText' sources'
            (showReply currentMsgId responseText' sources' msgs)
      | None => readChunks currentMsgId rest responseText sources msgs
      end
  end.

(** [handleSubmit]; [now_user], [now_model] and [now_error] are the
    readings of [Date.now()] for the three messages. *)
Definition handleSubmit (env : Env) (now_user now_model now_error : Z)
  (st : State) : State :=
  if Js.blank (input st) || isStreaming st then st
  else
    let userMsg := {| msg_id := Js.dec now_user; msg_role := "user";
                      msg_content := input st; msg_sources := None |} in
    let history := map (fun m => (msg_role m, msg_content m)) (messages st) in
    let generator := streamChatResponse env history (msg_content userMsg)
                       (useSearch st) in
    let currentMsgId := Js.dec (now_model + 1) in
    let shown := messages st ++ [ userMsg ]
                 ++ [ {| msg_id := currentMsgId; msg_role := "model";
                         msg_content := ""; msg_sources := None |} ] in
    let read := snd (readChunks currentMsgId (reply_chunks generator) "" []
                       shown) in
    let final :=
      match reply_failure generator with
      | Some _ => read ++ [ {| msg_id := Js.dec now_error; msg_role := "model";
                               msg_content := "Error connecting to Gemini.";
                               msg_sources := None |} ]
      | None => read
      end in
    {| messages := final; input := ""; isStreaming := false;
       useSearch := useSearch st |}.

(** The text of the chunks that have one, in their order. *)
Definition replyText (chunks : list Chunk) : string :=
  String.concat ""
    (map (fun c => match Js.present (chunk_text c) with
                   | Some t => t
                   | None => ""
                   end) chunks).

(** The sources of the chunks that have a text, in their order. *)
Definition replySources (chunks : list Chunk) : list Source :=
  flat_map (fun c =>
              match Js.present (chunk_text c), chunk_grounding c with
              | Some _, Some grounding => pushSources [] grounding
              | _, _ => []
              end) chunks.

(** At least one chunk has a text. *)
Definition spoke (chunks : list Chunk) : bool :=
  existsb (fun c => match Js.present (chunk_text c) with
                    | Some _ => true
                    | None => false
                    end) chunks.

End StudyChat.

(* ================================================================== *)
(** * services/geminiService.ts: images *)
(* ================================================================== *)

Module Image.

(** A part of a response: [part.inlineData] with its [data], and
    [part.text]. *)
Record InlineData : Type := {
  inline_data : option string;
  inline_mimeType : option string
}.

Record Part : Type := {
  part_inlineData : option InlineData;
  part_text : option string
}.

(** A response, by its [candidates?.[0]?.content?.parts]. *)
Record Response : Type := {
  parts : option (list Part)
}.

(** The model, by its name and the image and prompt it is given. *)
Record Env : Type := {
  generateContent : string -> option string -> string -> Promise Response
}.

(** [`data:image/png;base64,${part.inlineData.data}`] *)
Definition dataUrl (image : InlineData) : string :=
  "data:image/png;base64,"
  ++ match inline_data image with
     | Some d => d
     | None => "undefined"
     end.

(** [for (const part of parts) { if (part.inlineData) return ...; } return null] *)
Fixpoint firstImage (l : list Part) : option string :=
  match l with
  | [] => None
  | part :: rest =>
      match part_inlineData part with
      | Some image => Some (dataUrl image)
      | None => firstImage rest
      end
  end.

(** The loop over [response.candidates?.[0]?.content?.parts || []]. *)
Definition extract (response : Response) : option string :=
  firstImage match parts response with
             | Some l => l
             | None => []
             end.

(** [editImage(base64Image, prompt)] *)
Definition editImage (env : Env) (base64Image prompt : string)
  : Promise (option string) :=
  response <- generateContent env "gemini-2.5-flash-image" (Some base64Image)
                prompt ;;
  Resolved (extract response).

(** [generateImage(prompt, size)] *)
Definition generateImage (env : Env) (prompt size : string)
  : Promise (option string) :=
  let model := if size =? "1K" then "gemini-2.5-flash-image"
               else "gemini-3-pro-image-preview" in
  response <- generateContent env model None prompt ;;
  Resolved (extract response).

(** A part that carries no inline data. *)
Definition no_image (part : Part) : Prop := part_inlineData part = None.

End Image.

(* ================================================================== *)
(** * components/LiveSession.tsx: the microphone's samples *)
(* ================================================================== *)

Module Pcm.

(** A number of a [Float32Array]: NaN, an infinity, or a finite number,
    which is an integer over a power of two, [m / 2^n]. *)
Inductive Float : Type :=
| NaN
| Infinity (negative : bool)
| Dyadic (m : Z) (n : nat).

(** [x * 32768], which is exact. *)
Definition times_32768 (x : Float) : Float :=
  match x with
  | Dyadic m n => Dyadic (m * 32768) n
  | NaN => NaN
  | Infinity negative => Infinity negative
  end.

(** [ToInt16], the conversion an [Int16Array] applies to what is stored
    in it: NaN and the infinities give 0; a finite number is cut to its
    integer part, taken modulo 2^16 and read as a signed 16-bit number. *)
Definition toInt16 (x : Float) : Z :=
  match x with
  | NaN | Infinity _ => 0
  | Dyadic m n =>
      let int := Z.quot m (2 ^ Z.of_nat n) in
      let int16bit := int mod 65536 in
      if 32768 <=? int16bit then int16bit - 65536 else int16bit
  end%Z.

(** The two bytes of a 16-bit number in the buffer, low byte first (the
    byte order of the platforms browsers run on). *)
Definition bytes_of_int16 (v : Z) : list Z :=
  let u := (v mod 65536)%Z in [ (u mod 256)%Z; (u / 256)%Z ].

(** The blob: [{ data, mimeType }]. *)
Record Blob : Type := {
  blob_data : string;
  blob_mimeType : string
}.

(** [createBlob(data)], with [btoa] applied to the binary string whose
    character codes are the bytes. *)
Definition createBlob (btoa : list Z -> string) (data : list Float) : Blob :=
  let int16 := map (fun x => toInt16 (times_32768 x)) data in
  let bytes := flat_map bytes_of_int16 int16 in
  {| blob_data := btoa bytes; blob_mimeType := "audio/pcm;rate=16000" |}.

(** The 16-bit number [v] stands for the sample [x]: 0 for NaN and the
    infinities; for [m / 2^n] in [-1, 1) the integer part of 32768 times
    the sample, less than one step away from it and of its sign; for a
    sample in [1, 2) that integer part less 65536, a negative number. *)
Definition quantised (x : Float) (v : Z) : Prop :=
  match x with
  | NaN | Infinity _ => v = 0%Z
  | Dyadic m n =>
      let one := (2 ^ Z.of_nat n)%Z in
      ((- one <= m < one)%Z ->
       (-32768 <= v <= 32767)%Z /\
       (Z.abs (v * one - 32768 * m) < one)%Z /\
       ((0 <= m)%Z -> (0 <= v)%Z) /\ ((m <= 0)%Z -> (v <= 0)%Z)) /\
      ((one <= m < 2 * one)%Z ->
       v = (Z.quot (32768 * m) one - 65536)%Z /\ (-32768 <= v < 0)%Z)
  end.

End Pcm.
(* ================================================================== *)
(** * Facts about the JavaScript layer *)
(* ================================================================== *)

Module JsFacts.

Lemma get_set_same k v o : Js.get k (Js.set k v o) = v.
Proof.
  induction o as [|[k' v'] o IH]; simpl.
  - now rewrite String.eqb_refl.
  - destruct (k' =? k) eqn:E; simpl.
    + now rewrite String.eqb_refl.
    + now rewrite E.
Qed.

Lemma get_set_other k k' v o : k' <> k -> Js.get k (Js.set k' v o) = Js.get k o.
Proof.
  intros Hne. induction o as [|[k0 v0] o IH]; simpl.
  - apply String.eqb_neq in Hne. now rewrite Hne.
  - destruct (k0 =? k') eqn:E; simpl.
    + apply String.eqb_eq in E. subst k0.
      apply String.eqb_neq in Hne. now rewrite Hne.
    + now rewrite IH.
Qed.

Lemma blank_not_empty s : Js.blank s = false -> s <> "".
Proof. intros H ->. discriminate. Qed.

(** Every white space character of [trim] makes a blank string, the
    no-break space and the other characters beyond ASCII included. *)
Lemma blank_white_space w :
  In w Text.white_space -> Js.blank (string_of_list_ascii w) = true.
Proof.
  intros H. repeat (destruct H as [<-|H]; [reflexivity|]). destruct H.
Qed.

Lemma present_some o x : Js.present o = Some x -> o = Some x /\ x <> "".
Proof.
  destruct o as [y|]; simpl; [|discriminate].
  destruct (y =? "") eqn:E; [discriminate|].
  intros [= ->]. split; [reflexivity|]. now apply String.eqb_neq.
Qed.

End JsFacts.

Module GeminiFacts.
Import Gemini.

Lemma interpretAgentCommand_ready env command given context :
  request_ready env given context ->
  interpretAgentCommand env command given =
  match generateContent env command context with
  | GenerateThrows _ => Resolved (fallback command given)
  | GenerateReturns text =>
      match JSON_parse env (text_or_empty_object text) with
      | Some v => Resolved v
      | None => Resolved (fallback command given)
      end
  end.
Proof.
  intros [Hclient Htext].
  unfold interpretAgentCommand, promptContext, await_generate, parse, bind,
    try_catch.
  rewrite Hclient, Htext.
  destruct (generateContent env command context) as [e|text]; [reflexivity|].
  now destruct (JSON_parse env (text_or_empty_object text)).
Qed.

Lemma interpretAgentCommand_impossible env command given :
  request_impossible env given ->
  exists e, interpretAgentCommand env command given = Rejected e.
Proof.
  unfold interpretAgentCommand, promptContext, bind.
  intros [[e He]|Htext].
  - rewrite He. now exists e.
  - destruct (getAIClient env) as [[]|e]; [|now exists e].
    rewrite Htext. now exists "TypeError".
Qed.

Lemma fallback_topic command context :
  fallback command context =
  Js.Obj [ ("type", Js.Str "study");
           ("data", Js.Obj
              [ ("topic",
                 if negb (command =? "") then Js.Str command
                 else if Js.truthy context then context
                      else Js.Str "General Topic") ]) ].
Proof.
  unfold fallback, Js.or_else.
  destruct command as [|c rest]; simpl.
  - now destruct (Js.truthy context).
  - reflexivity.
Qed.

End GeminiFacts.

(** C10, amended: [interpretAgentCommand] rejects only on what runs before
    its [try]: when [getAIClient()] throws, with that exception, and when
    the context cannot be converted to the text of the prompt, with a
    [TypeError].  Once the client is built and the prompt is formed it
    always resolves; when the model call throws or its text is not JSON it
    resolves with the fallback directive
    [{ type: 'study', data: { topic } }], whose topic is the command, else
    the context, else ['General Topic']. *)
Theorem interpretAgentCommand_rejects_only_before_its_try :
  forall (env : Gemini.Env) (command : string) (given : Js.value),
    (forall e, Gemini.getAIClient env = Rejected e ->
               Gemini.interpretAgentCommand env command given = Rejected e) /\
    (Gemini.getAIClient env = Resolved tt -> Js.template given = None ->
     Gemini.interpretAgentCommand env command given = Rejected "TypeError") /\
    (forall context,
        request_ready env given context ->
        (exists directive,
            Gemini.interpretAgentCommand env command given = Resolved directive) /\
        (interpretation_fails env command context ->
         Gemini.interpretAgentCommand env command given
         = Resolved (Js.Obj
             [ ("type", Js.Str "study");
               ("data", Js.Obj
                  [ ("topic",
                     if negb (command =? "") then Js.Str command
                     else if Js.truthy given then given
                          else Js.Str "General Topic") ]) ]))).
Proof.
  intros env command given. split; [|split].
  - intros e He. unfold Gemini.interpretAgentCommand, bind. now rewrite He.
  - intros Hclient Htext.
    unfold Gemini.interpretAgentCommand, Gemini.promptContext, bind.
    now rewrite Hclient, Htext.
  - intros context Hready.
    rewrite (GeminiFacts.interpretAgentCommand_ready _ _ _ _ Hready).
    rewrite <- GeminiFacts.fallback_topic.
    unfold interpretation_fails.
    destruct (Gemini.generateContent env command context) as [e|text].
    + split; [eexists; reflexivity|reflexivity].
    + destruct (Gemini.JSON_parse env (Gemini.text_or_empty_object text))
        as [v|] eqn:E.
      * split; [eexists; reflexivity|discriminate].
      * split; [eexists; reflexivity|reflexivity].
Qed.

Lemma interpretAgentCommand_rejects_only_before_its_try_witness :
  request_ready env_down (Js.Str "Algebra") "Algebra" /\
  interpretation_fails env_down "" "Algebra" /\
  Gemini.interpretAgentCommand env_down "" (Js.Str "Algebra")
  = Resolved (Js.Obj [ ("type", Js.Str "study");
                       ("data", Js.Obj [ ("topic", Js.Str "Algebra") ]) ]).
Proof.
  split; [split; reflexivity|]. split; [exact I|].
  exact (proj2 (proj2 (proj2 (interpretAgentCommand_rejects_only_before_its_try
                                env_down "" (Js.Str "Algebra")))
                  "Algebra" (conj eq_refl eq_refl)) I).
Defined.

(** C10 as stated fails: without an API key the client cannot be built,
    and a context that has a [toString] of its own, as a topic taken from
    the model's JSON can, has no text; both happen before the [try], and
    the promise rejects. *)
Lemma interpretAgentCommand_can_reject :
  Gemini.interpretAgentCommand env_no_key "quiz me" (Js.Str "")
  = Rejected "API key missing" /\
  Gemini.interpretAgentCommand env_down "quiz me"
    (Js.Obj [ ("toString", Js.Num 1) ])
  = Rejected "TypeError".
Proof. split; reflexivity. Qed.

(* ================================================================== *)
(** * Node creation: what one call changes *)
(* ================================================================== *)

Module Creation.

Section OneCall.

Variables (r : Render) (now : Z) (type : Js.value) (data : Js.object).
Variables (position : option Position.t) (parentId explicitId : option string).
Variable s : State.

Local Abbreviation result :=
  (addNodeGeneric r now type data position parentId explicitId s).

Lemma returns_id : fst result = idOf now type explicitId.
Proof. reflexivity. Qed.

Lemma adds_one_node :
  nodes (snd result)
  = nodes s ++ [ Node.mk (idOf now type explicitId) type
                   (match position with
                    | Some p => p
                    | None => placement r (pushHistory r s) parentId
                    end)
                   (newNodeData r type data) false ].
Proof.
  unfold addNodeGeneric, idOf.
  destruct (Js.present parentId); reflexivity.
Qed.

Lemma adds_edge_to_parent :
  edges (snd result)
  = match Js.present parentId with
    | Some pid => edges s ++ [ newEdge pid (idOf now type explicitId) ]
    | None => edges s
    end.
Proof.
  unfold addNodeGeneric, idOf.
  destruct (Js.present parentId); reflexivity.
Qed.

Lemma pushes_render_snapshot :
  past (snd result) = slice_last 9 (past s) ++ [ snapshot_of r ].
Proof.
  unfold addNodeGeneric.
  destruct (Js.present parentId); reflexivity.
Qed.

Lemma clears_future : future (snd result) = [].
Proof.
  unfold addNodeGeneric.
  destruct (Js.present parentId); reflexivity.
Qed.

Lemma keeps_focus : focusedNodeId (snd result) = focusedNodeId s.
Proof.
  unfold addNodeGeneric.
  destruct (Js.present parentId); reflexivity.
Qed.

Lemma sets_focus_timer :
  timers (snd result)
  = timers s ++ [ (150%Z, FocusTimer (idOf now type explicitId)) ].
Proof.
  unfold addNodeGeneric, idOf.
  destruct (Js.present parentId); reflexivity.
Qed.

Lemma keeps_alerts : alerts (snd result) = alerts s.
Proof.
  unfold addNodeGeneric.
  destruct (Js.present parentId); reflexivity.
Qed.

Lemma keeps_sessions : sessions (snd result) = sessions s.
Proof.
  unfold addNodeGeneric.
  destruct (Js.present parentId); reflexivity.
Qed.

End OneCall.

End Creation.

(* ================================================================== *)
(** * Command interpretation *)
(* ================================================================== *)

Module Command.

Lemma topic_of_new_node r type d :
  Js.is_str "start" type = false ->
  Js.get "topic" (newNodeData r type d) = Js.get "topic" d.
Proof.
  intros H. unfold newNodeData. rewrite H.
  apply JsFacts.get_set_other. discriminate.
Qed.

(** When the interpretation fails, the handler goes on with the fallback
    directive: kind [study], topic the prompt. *)
Lemma directive_after_failure r env now prompt sourceNodeId s context :
  Js.blank prompt = false ->
  request_ready env (contextTopicOf (commandNode r sourceNodeId s)) context ->
  interpretation_fails env prompt context ->
  exists finalData parent,
    commandDirective r env now prompt sourceNodeId s
    = Resolved (Js.Str "study", finalData, parent) /\
    Js.get "topic" finalData = Js.Str prompt.
Proof.
  intros Hblank Hready Hf. unfold commandDirective.
  set (pNode := commandNode r sourceNodeId s) in *.
  rewrite (GeminiFacts.interpretAgentCommand_ready _ _ _ _ Hready).
  unfold interpretation_fails in Hf.
  assert (Hres :
    match Gemini.generateContent env prompt context with
    | Gemini.GenerateThrows _ =>
        Resolved (Gemini.fallback prompt (contextTopicOf pNode))
    | Gemini.GenerateReturns text =>
        match Gemini.JSON_parse env (Gemini.text_or_empty_object text) with
        | Some v => Resolved v
        | None => Resolved (Gemini.fallback prompt (contextTopicOf pNode))
        end
    end = Resolved (Gemini.fallback prompt (contextTopicOf pNode))).
  { destruct (Gemini.generateContent env prompt context);
      [reflexivity|].
    now rewrite Hf. }
  rewrite Hres. rewrite GeminiFacts.fallback_topic.
  apply JsFacts.blank_not_empty in Hblank.
  apply String.eqb_neq in Hblank. rewrite Hblank.
  cbn [bind Js.member Js.get String.eqb Ascii.eqb Bool.eqb negb].
  eexists. eexists. split; [reflexivity|].
  unfold finalDataOf.
  cbn [Js.is_str String.eqb Ascii.eqb Bool.eqb
       Js.spread Js.own_props fold_left fst snd].
  rewrite JsFacts.get_set_same.
  assert (Htruthy : Js.truthy (Js.Str prompt) = true).
  { simpl. now rewrite Hblank. }
  rewrite Htruthy.
  set (d0 := Js.set "topic" (Js.Str prompt) (contextDataOf pNode)).
  assert (H0 : Js.get "topic" d0 = Js.Str prompt) by apply JsFacts.get_set_same.
  destruct (Js.truthy (Js.get "moduleTitle" d0));
    destruct (Js.truthy (Js.get "moduleId" _));
    repeat (rewrite JsFacts.get_set_other by discriminate); exact H0.
Qed.

(** When the model's answer parses to [null], reading [cmd.data] throws. *)
Lemma directive_of_null r env now prompt sourceNodeId s context :
  request_ready env (contextTopicOf (commandNode r sourceNodeId s)) context ->
  interpretation_is_null env prompt context ->
  commandDirective r env now prompt sourceNodeId s = Rejected "TypeError".
Proof.
  intros Hready (text & Hgen & Hparse). unfold commandDirective.
  rewrite (GeminiFacts.interpretAgentCommand_ready _ _ _ _ Hready), Hgen, Hparse.
  reflexivity.
Qed.

(** When the request cannot be made, the handler gets the exception. *)
Lemma directive_impossible r env now prompt sourceNodeId s :
  request_impossible env (contextTopicOf (commandNode r sourceNodeId s)) ->
  exists e, commandDirective r env now prompt sourceNodeId s = Rejected e.
Proof.
  intros H. unfold commandDirective.
  destruct (GeminiFacts.interpretAgentCommand_impossible env prompt _ H)
    as (e & He).
  rewrite He. now exists e.
Qed.

(** What the handler does with the directive. *)
Lemma handled_directive r env now_module now_node prompt sourceNodeId
  targetPosition s :
  Js.blank prompt = false ->
  handleCommandSubmit r env now_module now_node prompt sourceNodeId
    targetPosition s
  = let s1 := setIsProcessingCommand true s in
    setMenuVisible false
      (setIsProcessingCommand false
         match commandDirective r env now_module prompt sourceNodeId s1 with
         | Resolved (cmd_type, finalData, parent) =>
             match Js.template cmd_type with
             | Some _ =>
                 setCommandInput ""
                   (snd (addNodeGeneric r now_node cmd_type finalData
                           targetPosition parent None s1))
             | None =>
                 alert "Could not understand command." (pushHistory r s1)
             end
         | Rejected _ => alert "Could not understand command." s1
         end).
Proof. intros H. unfold handleCommandSubmit. now rewrite H. Qed.

(** When the model names a kind that has no text, [addNodeGeneric] throws
    at the template literal of the id, after its [pushHistory()]: the
    notice is shown, no node is added, and a snapshot has been pushed. *)
Lemma kind_without_text r env now_module now_node prompt sourceNodeId
  targetPosition s cmd_type finalData parent :
  Js.blank prompt = false ->
  commandDirective r env now_module prompt sourceNodeId
    (setIsProcessingCommand true s)
  = Resolved (cmd_type, finalData, parent) ->
  Js.template cmd_type = None ->
  let s' := handleCommandSubmit r env now_module now_node prompt sourceNodeId
              targetPosition s in
  notice_shown s s' /\ nodes s' = nodes s /\ edges s' = edges s /\
  past s' = slice_last 9 (past s) ++ [ snapshot_of r ] /\ future s' = [].
Proof.
  intros Hblank Hdir Hkind. cbv zeta.
  rewrite (handled_directive _ _ _ _ _ _ _ _ Hblank). cbv zeta.
  rewrite Hdir, Hkind. repeat split.
Qed.

End Command.

(** C1, amended: a failed interpretation (the model call throws, or its
    text is not JSON) is answered by the fallback directive, so
    [handleCommandSubmit] shows no notice and creates a study node whose
    topic is the prompt, after pushing one snapshot.  The notice, with the
    graph and its history untouched, is what happens when the request
    cannot be made ([getAIClient()] throws, or the context topic cannot be
    converted to text) and when the model's answer parses to [null]. *)
Theorem handleCommandSubmit_failure_paths :
  forall r env now_module now_node prompt sourceNodeId targetPosition s,
    Js.blank prompt = false ->
    let given := contextTopicOf (commandNode r sourceNodeId s) in
    let s' := handleCommandSubmit r env now_module now_node prompt sourceNodeId
                targetPosition s in
    (forall context,
        request_ready env given context ->
        interpretation_fails env prompt context ->
        alerts s' = alerts s /\
        (exists n, nodes s' = nodes s ++ [n] /\
                   Node.type n = Js.Str "study" /\
                   Js.get "topic" (Node.data n) = Js.Str prompt) /\
        past s' = slice_last 9 (past s) ++ [ snapshot_of r ] /\
        future s' = []) /\
    (request_impossible env given \/
     (exists context, request_ready env given context /\
                      interpretation_is_null env prompt context) ->
     notice_shown s s' /\ same_graph_and_history s s').
Proof.
  intros r env now_module now_node prompt sourceNodeId targetPosition s Hblank
         given s'.
  subst given s'. rewrite (Command.handled_directive _ _ _ _ _ _ _ _ Hblank).
  cbv zeta. split.
  - intros context Hready Hfail.
    destruct (Command.directive_after_failure r env now_module prompt sourceNodeId
                (setIsProcessingCommand true s) context Hblank Hready Hfail)
      as (finalData & parent & Hdir & Htopic).
    rewrite Hdir. cbn [Js.template Js.to_string].
    cbn [alerts nodes past future setMenuVisible
         setIsProcessingCommand setCommandInput].
    rewrite Creation.keeps_alerts, Creation.adds_one_node,
      Creation.pushes_render_snapshot, Creation.clears_future.
    split; [reflexivity|]. split; [|split; reflexivity].
    eexists. split; [reflexivity|]. split; [reflexivity|].
    cbn [Node.data]. now rewrite Command.topic_of_new_node.
  - intros [Himp|(context & Hready & Hnull)].
    + destruct (Command.directive_impossible r env now_module prompt
                  sourceNodeId (setIsProcessingCommand true s) Himp)
        as (e & He).
      rewrite He. split; [reflexivity|]. repeat split.
    + rewrite (Command.directive_of_null r env now_module prompt sourceNodeId
                 (setIsProcessingCommand true s) context Hready Hnull).
      split; [reflexivity|]. repeat split.
Qed.

Lemma handleCommandSubmit_failure_paths_witness :
  Js.blank "quiz me" = false /\
  request_ready env_down (Js.Str "") "" /\
  interpretation_fails env_down "quiz me" "" /\
  interpretation_is_null env_null "quiz me" "" /\
  request_impossible env_no_key (Js.Str "") /\
  alerts (handleCommandSubmit (render initialState) env_down 1 2 "quiz me"
            None None initialState) = [] /\
  notice_shown initialState
    (handleCommandSubmit (render initialState) env_null 1 2 "quiz me"
       None None initialState) /\
  notice_shown initialState
    (handleCommandSubmit (render initialState) env_no_key 1 2 "quiz me"
       None None initialState).
Proof.
  split; [reflexivity|].
  split; [split; reflexivity|].
  split; [exact I|].
  split; [exists (Some "null"); split; reflexivity|].
  split; [left; eexists; reflexivity|].
  split; [|split].
  - exact (proj1 (proj1 (handleCommandSubmit_failure_paths (render initialState)
                           env_down 1 2 "quiz me" None None initialState
                           eq_refl)
                    "" (conj eq_refl eq_refl) I)).
  - exact (proj1 (proj2 (handleCommandSubmit_failure_paths (render initialState)
                           env_null 1 2 "quiz me" None None initialState
                           eq_refl)
                    (or_intror
                       (ex_intro _ ""
                          (conj (conj eq_refl eq_refl)
                             (ex_intro _ (Some "null")
                                (conj eq_refl eq_refl))))))).
  - exact (proj1 (proj2 (handleCommandSubmit_failure_paths (render initialState)
                           env_no_key 1 2 "quiz me" None None initialState
                           eq_refl)
                    (or_introl (or_introl (ex_intro _ "API key missing" eq_refl))))).
Defined.

(** C1 as stated fails: with the model unreachable, a command is not a
    no-op; no notice is shown and the graph changes. *)
Lemma failed_interpretation_is_not_a_noop :
  contextTopicOf (commandNode (render initialState) None initialState)
  = Js.Str "" /\
  request_ready env_down (Js.Str "") "" /\
  interpretation_fails env_down "quiz me" "" /\
  let s' := handleCommandSubmit (render initialState) env_down 1 2 "quiz me"
              None None initialState in
  ~ notice_shown initialState s' /\
  ~ same_graph_and_history initialState s' /\
  List.length (nodes s') = 2%nat /\
  List.length (past s') = 1%nat.
Proof.
  split; [reflexivity|]. split; [split; reflexivity|]. split; [exact I|].
  cbv zeta. split; [|split].
  - unfold notice_shown. vm_compute. discriminate.
  - unfold same_graph_and_history. vm_compute. intros [H _]. discriminate.
  - split; reflexivity.
Qed.

(* ================================================================== *)
(** * Focus after node creation *)
(* ================================================================== *)

(** C9, amended: [addNodeGeneric] leaves [focusedNodeId] as it was and
    hands the focus update to a timer of 150 ms; the new node is focused
    when that timer fires. *)
Theorem focus_follows_creation_by_timer :
  forall r now type data position parentId explicitId s now',
    let result := addNodeGeneric r now type data position parentId explicitId s in
    focusedNodeId (snd result) = focusedNodeId s /\
    timers (snd result) = timers s ++ [ (150%Z, FocusTimer (fst result)) ] /\
    focusedNodeId (fireTimer (List.length (timers s)) now' (snd result))
    = Some (fst result).
Proof.
  intros r now type data position parentId explicitId s now' result.
  subst result.
  split; [apply Creation.keeps_focus|].
  split; [apply Creation.sets_focus_timer|].
  unfold fireTimer. rewrite Creation.sets_focus_timer.
  rewrite nth_error_app2 by lia. rewrite Nat.sub_diag. reflexivity.
Qed.

(** C9 as stated fails: right after the toolbar has created a code node,
    the focus is still on the start node. *)
Lemma creation_does_not_move_focus :
  let result := addNodeGeneric (render initialState) 1700000000000
                  (Js.Str "code") [] None (Some "start") None initialState in
  fst result = "code-1700000000000" /\
  In (Node.mk "code-1700000000000" (Js.Str "code") (Position.mk 600 0)
        [ ("isFullScreen", Js.Bool false) ] false) (nodes (snd result)) /\
  focusedNodeId (snd result) <> Some (fst result).
Proof.
  cbv zeta. split; [reflexivity|]. split.
  - vm_compute. right. left. reflexivity.
  - vm_compute. discriminate.
Qed.

(* ================================================================== *)
(** * Node ids *)
(* ================================================================== *)

Module Ids.

Lemma append_cancel (p a b : string) : (p ++ a = p ++ b)%string -> a = b.
Proof.
  induction p as [|c p IH]; simpl; intros H; [exact H|].
  injection H as H. auto.
Qed.

Lemma to_int_not_nil z :
  Z.to_int z <> Decimal.Pos Decimal.Nil /\ Z.to_int z <> Decimal.Neg Decimal.Nil.
Proof.
  assert (H : Z.to_int z = Decimal.norm (Z.to_int z)).
  { rewrite <- DecimalZ.to_of. now rewrite DecimalZ.of_to. }
  rewrite H.
  destruct (Z.to_int z) as [d|d]; simpl.
  - unfold Decimal.unorm. split; destruct (Decimal.nzhead d); discriminate.
  - split; destruct (Decimal.nzhead d); discriminate.
Qed.

Lemma dec_injective a b : Js.dec a = Js.dec b -> a = b.
Proof.
  unfold Js.dec. intros H.
  assert (Ha := to_int_not_nil a). assert (Hb := to_int_not_nil b).
  assert (E : Some (Z.to_int a) = Some (Z.to_int b)).
  { rewrite <- (NilZero.isi (Z.to_int a)) by tauto.
    rewrite <- (NilZero.isi (Z.to_int b)) by tauto.
    now rewrite H. }
  injection E as E.
  rewrite <- (DecimalZ.of_to a), <- (DecimalZ.of_to b). now rewrite E.
Qed.

Lemma generatedId_injective type now1 now2 :
  generatedId type now1 = generatedId type now2 -> now1 = now2.
Proof.
  unfold generatedId. intros H.
  apply append_cancel in H. apply (append_cancel "-") in H.
  now apply dec_injective.
Qed.

Lemma NoDup_snoc (l : list string) (x : string) :
  NoDup (l ++ [x]) <-> NoDup l /\ ~ In x l.
Proof.
  split.
  - intros H. apply NoDup_remove in H. rewrite app_nil_r in H. tauto.
  - intros [H1 H2]. apply NoDup_app; [exact H1|repeat constructor; intros []|].
    intros a Ha [<-|[]]. contradiction.
Qed.

End Ids.

(** C6, amended: a call keeps the ids pairwise distinct exactly when the id
    it uses (the explicit id, else kind and timestamp) is not yet the id
    of a node; two generated ids of one kind differ when their timestamps
    differ. *)
Theorem creation_keeps_ids_distinct_iff_fresh :
  forall r now type data position parentId explicitId s,
    NoDup (ids (nodes s)) ->
    let result := addNodeGeneric r now type data position parentId explicitId s in
    (NoDup (ids (nodes (snd result))) <-> ~ In (fst result) (ids (nodes s))) /\
    (forall now2, now <> now2 -> generatedId type now <> generatedId type now2).
Proof.
  intros r now type data position parentId explicitId s Hnd result.
  subst result. split.
  - rewrite Creation.adds_one_node, Creation.returns_id.
    unfold ids. rewrite map_app. simpl map.
    rewrite Ids.NoDup_snoc. tauto.
  - intros now2 Hne Heq. apply Hne. now apply Ids.generatedId_injective in Heq.
Qed.

Lemma creation_keeps_ids_distinct_iff_fresh_witness :
  NoDup (ids (nodes initialState)) /\
  NoDup (ids (nodes one_code_node)).
Proof.
  assert (H0 : NoDup (ids (nodes initialState))).
  { repeat constructor. intros []. }
  split; [exact H0|].
  apply (proj1 (creation_keeps_ids_distinct_iff_fresh (render initialState)
                  1700000000000 (Js.Str "code") [] None
                  (focusedNodeId initialState) None initialState H0)).
  vm_compute. intros [H|[]]. discriminate.
Defined.

(** C6 as stated fails: two code nodes created from the toolbar within one
    millisecond have the same id. *)
Lemma same_millisecond_same_id :
  reachable two_code_nodes /\
  ids (nodes two_code_nodes)
  = [ "start"; "code-1700000000000"; "code-1700000000000" ] /\
  ~ NoDup (ids (nodes two_code_nodes)).
Proof.
  split; [|split].
  - unfold two_code_nodes, one_code_node.
    apply reach_toolbar_code. apply reach_toolbar_code. apply reach_initial.
  - reflexivity.
  - intros H. change (ids (nodes two_code_nodes))
      with [ "start"; "code-1700000000000"; "code-1700000000000" ] in H.
    inversion H as [|? ? _ Htail]. inversion Htail as [|? ? Hnotin _].
    apply Hnotin. left. reflexivity.
Qed.

(* ================================================================== *)
(** * Placement of children *)
(* ================================================================== *)

Module Placement.

Lemma find_app_first {A : Type} (f : A -> bool) (l l' : list A) (a : A) :
  find f l = Some a -> find f (l ++ l') = Some a.
Proof.
  induction l as [|h t IH]; simpl; [discriminate|].
  destruct (f h); auto.
Qed.

Lemma present_id (id : string) : id <> "" -> Js.present (Some id) = Some id.
Proof.
  intros H. simpl. apply String.eqb_neq in H. now rewrite H.
Qed.

Lemma getNode_snoc (s s' : State) (n : Node.t) (id : string) :
  nodes s' = nodes s ++ [n] ->
  getNode s' id = if Node.id n =? id then Some n else getNode s id.
Proof.
  intros H. unfold getNode. rewrite H, rev_unit. reflexivity.
Qed.

Section OneChild.

Variables (s : State) (parent : Node.t) (q : ChildRequest).
Hypothesis parent_found : getNode s (Node.id parent) = Some parent.
Hypothesis parent_id_not_empty : Node.id parent <> "".
Hypothesis child_id_differs : childId q <> Node.id parent.

Local Abbreviation s1 :=
  (snd (addNodeGeneric (req_render q) (req_now q) (req_type q) (req_data q)
          None (Some (Node.id parent)) (req_explicitId q) s)).

Lemma child_position :
  exists child,
    nodes s1 = nodes s ++ [child] /\
    Node.position child
    = Position.mk (Position.x (Node.position parent) + 600)
        (Position.y (Node.position parent)
         + Z.of_nat (existingChildren s (Node.id parent)) * 600).
Proof.
  eexists. split; [apply Creation.adds_one_node|].
  cbn [Node.position]. unfold placement.
  rewrite (present_id _ parent_id_not_empty).
  change (getNode (pushHistory (req_render q) s) (Node.id parent))
    with (getNode s (Node.id parent)).
  rewrite parent_found. reflexivity.
Qed.

Lemma parent_still_found : getNode s1 (Node.id parent) = Some parent.
Proof.
  rewrite (getNode_snoc s s1 _ _ (Creation.adds_one_node _ _ _ _ _ _ _ _)).
  cbn [Node.id]. fold (childId q).
  apply String.eqb_neq in child_id_differs. now rewrite child_id_differs.
Qed.

Lemma one_more_child :
  existingChildren s1 (Node.id parent) = S (existingChildren s (Node.id parent)).
Proof.
  unfold existingChildren. rewrite Creation.adds_edge_to_parent.
  rewrite (present_id _ parent_id_not_empty), filter_app, length_app. simpl.
  rewrite String.eqb_refl. simpl. lia.
Qed.

End OneChild.

(** A child that is given the id of its parent takes its place in the
    store: the next child is placed beside that child.  Here the first
    child of the start node, at (600, 0), is given the id [start]; the
    second child is then placed at (1200, 600), not at (600, 600). *)
Lemma child_bearing_the_id_of_its_parent :
  let reqs :=
    [ {| req_render := render initialState; req_now := 1;
         req_type := Js.Str "study"; req_data := [];
         req_explicitId := Some "start" |};
      {| req_render := render initialState; req_now := 2;
         req_type := Js.Str "study"; req_data := [];
         req_explicitId := Some "l2" |} ] in
  map (fun n => (Node.id n, Node.position n))
    (nodes (createChildren "start" reqs initialState))
  = [ ("start", Position.mk 0 0); ("start", Position.mk 600 0);
      ("l2", Position.mk 1200 600) ].
Proof. reflexivity. Qed.

End Placement.



(* ================================================================== *)
(** * History: the cap and the round trip *)
(* ================================================================== *)

Module History.

Lemma length_slice_last {A : Type} (n : nat) (l : list A) :
  (List.length (slice_last n l) <= n)%nat.
Proof. unfold slice_last. rewrite length_skipn. lia. Qed.

Lemma slice_last_full {A : Type} (l : list A) :
  List.length l = 10%nat -> slice_last 9 l = tl l.
Proof.
  intros H. unfold slice_last. rewrite H. simpl.
  destruct l; reflexivity.
Qed.

Lemma takeSnapshot_pushed r s : snapshot_pushed (takeSnapshot r s).
Proof.
  split; [|reflexivity]. simpl. rewrite length_app. simpl.
  pose proof (length_slice_last 9 (past s)). lia.
Qed.

Lemma addNodeGeneric_pushed r now type data position parentId explicitId s :
  snapshot_pushed
    (snd (addNodeGeneric r now type data position parentId explicitId s)).
Proof.
  split.
  - rewrite Creation.pushes_render_snapshot, length_app. simpl.
    pose proof (length_slice_last 9 (past s)). lia.
  - apply Creation.clears_future.
Qed.

Lemma kept_within s s' : history_kept s s' -> history_within_cap s ->
  history_within_cap s'.
Proof. unfold history_kept, history_within_cap. intros [-> ->]. auto. Qed.

Lemma pushed_within s' : snapshot_pushed s' -> history_within_cap s'.
Proof.
  unfold snapshot_pushed, history_within_cap. intros [H ->]. simpl. lia.
Qed.

Lemma undo_within s : history_within_cap s -> history_within_cap (undo s).
Proof.
  unfold history_within_cap, undo. intros H.
  destruct (List.length (past s) =? 0)%nat eqn:E; [exact H|].
  apply Nat.eqb_neq in E.
  cbn [past future setEdges setNodes setFuture setPast].
  rewrite removelast_firstn_len, length_firstn. simpl List.length. lia.
Qed.

Lemma redo_within s : history_within_cap s -> history_within_cap (redo s).
Proof.
  unfold history_within_cap, redo. intros H.
  destruct (List.length (future s) =? 0)%nat eqn:E; [exact H|].
  apply Nat.eqb_neq in E.
  cbn [past future setEdges setNodes setFuture setPast].
  rewrite length_app. simpl List.length.
  destruct (future s); simpl in *; lia.
Qed.

(** A handler either leaves the two stacks alone or has just pushed. *)
Lemma handleNavigate_kept fuel nodeId direction s s' :
  handleNavigate fuel nodeId direction s = Some s' -> history_kept s s'.
Proof.
  unfold handleNavigate.
  destruct (find _ (nodes s)); [|intros [= <-]; split; reflexivity].
  destruct (navigationTarget _ _ _ _ _) as [targetId|]; [|discriminate].
  destruct (Js.present targetId); [|intros [= <-]; split; reflexivity].
  destruct (Js.truthy _); intros [= <-]; split; reflexivity.
Qed.

Lemma deleteElements_kept doomed s : history_kept s (deleteElements doomed s).
Proof. split; reflexivity. Qed.

Lemma handleDeleteSelected_pushed r s :
  snapshot_pushed (handleDeleteSelected r s).
Proof.
  unfold handleDeleteSelected.
  destruct (0 <? _)%nat; apply takeSnapshot_pushed.
Qed.

Lemma toggleLiveNode_pushed r now flowCenter s :
  snapshot_pushed (toggleLiveNode r now flowCenter s).
Proof.
  unfold toggleLiveNode.
  destruct (0 <? _)%nat; [apply takeSnapshot_pushed|].
  apply addNodeGeneric_pushed.
Qed.

Lemma handleMenuSelect_effect r now type sourceNodeId position s :
  let s' := handleMenuSelect r now type sourceNodeId position s in
  history_kept s s' \/ snapshot_pushed s'.
Proof.
  unfold handleMenuSelect.
  destruct (Js.present sourceNodeId); [right|left; split; reflexivity].
  apply (addNodeGeneric_pushed r now (Js.Str type) _ (Some position)).
Qed.

Lemma handleCommandSubmit_effect r env now_module now_node prompt sourceNodeId
  targetPosition s :
  let s' := handleCommandSubmit r env now_module now_node prompt sourceNodeId
              targetPosition s in
  history_kept s s' \/ snapshot_pushed s'.
Proof.
  unfold handleCommandSubmit.
  destruct (Js.blank prompt); [left; split; reflexivity|].
  destruct (commandDirective _ _ _ _ _ _) as [[[cmd_type finalData] parent]|e].
  - right. destruct (Js.template cmd_type).
    + apply (addNodeGeneric_pushed r now_node cmd_type finalData targetPosition
               parent None (setIsProcessingCommand true s)).
    + apply (takeSnapshot_pushed r (setIsProcessingCommand true s)).
  - left. split; reflexivity.
Qed.

Lemma handleStart_pushed r now_id now_created now_node topic hasAttachments
  generated s :
  snapshot_pushed (handleStart r now_id now_created now_node topic hasAttachments
                     generated s).
Proof.
  unfold handleStart. destruct generated as [course|].
  - apply addNodeGeneric_pushed.
  - apply (takeSnapshot_pushed r s).
Qed.

Lemma handleResume_pushed r session s : snapshot_pushed (handleResume r session s).
Proof. apply (takeSnapshot_pushed r s). Qed.

Lemma handleNodeAction_effect r now sourceId action payload s :
  let s' := handleNodeAction r now sourceId action payload s in
  history_kept s s' \/ snapshot_pushed s'.
Proof.
  unfold handleNodeAction.
  destruct (getNode s sourceId); [|left; split; reflexivity].
  destruct (action =? "SLIDES"); [right; apply addNodeGeneric_pushed|].
  destruct (action =? "CODE"); [right; apply addNodeGeneric_pushed|].
  left; split; reflexivity.
Qed.

Lemma fireTimer_effect k now s :
  let s' := fireTimer k now s in
  history_kept s s' \/ snapshot_pushed s'.
Proof.
  unfold fireTimer.
  destruct (nth_error (timers s) k) as [[delay [id|r course]]|].
  - left; split; reflexivity.
  - right. apply addNodeGeneric_pushed.
  - left; split; reflexivity.
Qed.

Lemma effect_within s s' :
  history_kept s s' \/ snapshot_pushed s' ->
  history_within_cap s -> history_within_cap s'.
Proof.
  intros [H|H] Hs; [now apply (kept_within s)|now apply pushed_within].
Qed.

Lemma reachable_within_cap s : reachable s -> history_within_cap s.
Proof.
  induction 1.
  - unfold history_within_cap. simpl. lia.
  - assumption.
  - assumption.
  - now apply undo_within.
  - now apply redo_within.
  - eapply kept_within; [eapply handleNavigate_kept; eassumption|assumption].
  - assumption.
  - unfold selectNodes.
    destruct (filter _ _); assumption.
  - apply pushed_within, takeSnapshot_pushed.
  - assumption.
  - apply pushed_within. apply (takeSnapshot_pushed (render s) s).
  - apply pushed_within, handleDeleteSelected_pushed.
  - apply pushed_within, toggleLiveNode_pushed.
  - apply pushed_within, addNodeGeneric_pushed.
  - eapply effect_within; [apply handleMenuSelect_effect|assumption].
  - eapply effect_within; [apply handleCommandSubmit_effect|assumption].
  - apply pushed_within, handleStart_pushed.
  - apply pushed_within, handleResume_pushed.
  - apply pushed_within, addNodeGeneric_pushed.
  - eapply effect_within; [apply handleNodeAction_effect|assumption].
  - eapply effect_within; [apply fireTimer_effect|assumption].
  - assumption.
  - assumption.
  - assumption.
Qed.

(** What [undo] and [redo] do to a state whose last snapshot is [h]. *)
Lemma undo_pops s l h :
  past s = l ++ [h] ->
  nodes (undo s) = snap_nodes h /\ edges (undo s) = snap_edges h /\
  past (undo s) = l /\ future (undo s) = current s :: future s.
Proof.
  intros E. unfold undo. rewrite E, length_app. simpl List.length.
  replace (List.length l + 1 =? 0)%nat with false
    by (symmetry; apply Nat.eqb_neq; lia).
  cbn [nodes edges past future setEdges setNodes setFuture setPast].
  rewrite last_last, removelast_last. repeat split.
Qed.

Lemma redo_after_undo s l h :
  past s = l ++ [h] ->
  nodes (redo (undo s)) = nodes s /\ edges (redo (undo s)) = edges s.
Proof.
  intros E. destruct (undo_pops s l h E) as (_ & _ & _ & Hf).
  unfold redo. rewrite Hf. simpl. split; reflexivity.
Qed.

End History.

(** C3: in every state the controller reaches the [past] stack holds at
    most 10 snapshots, and a snapshot taken when it holds 10 drops the
    oldest one. *)
Theorem past_never_exceeds_ten :
  forall s : State,
    reachable s ->
    (List.length (past s) <= 10)%nat /\
    (forall r, List.length (past s) = 10%nat ->
               past (takeSnapshot r s) = tl (past s) ++ [ snapshot_of r ]).
Proof.
  intros s Hs. split.
  - pose proof (History.reachable_within_cap s Hs) as H.
    unfold history_within_cap in H. lia.
  - intros r Hfull. simpl. now rewrite History.slice_last_full.
Qed.

Lemma past_never_exceeds_ten_witness :
  reachable two_code_nodes /\ (List.length (past two_code_nodes) <= 10)%nat.
Proof.
  assert (H : reachable two_code_nodes).
  { unfold two_code_nodes, one_code_node.
    apply reach_toolbar_code. apply reach_toolbar_code. apply reach_initial. }
  split; [exact H|].
  exact (proj1 (past_never_exceeds_ten two_code_nodes H)).
Defined.

(** With the handler of the current render, node creation, deletion,
    connection and drag start are undone and redone exactly. *)
Module RoundTrip.

Lemma of_pushed_current s s' l :
  past s' = l ++ [ current s ] ->
  nodes (undo s') = nodes s /\ edges (undo s') = edges s /\
  nodes (redo (undo s')) = nodes s' /\ edges (redo (undo s')) = edges s'.
Proof.
  intros E.
  destruct (History.undo_pops s' l (current s) E) as (Hn & He & _ & _).
  destruct (History.redo_after_undo s' l (current s) E) as (Hrn & Hre).
  repeat split; assumption.
Qed.

Lemma creation s now type data position parentId explicitId :
  let s' := snd (addNodeGeneric (render s) now type data position parentId
                   explicitId s) in
  nodes (undo s') = nodes s /\ edges (undo s') = edges s /\
  nodes (redo (undo s')) = nodes s' /\ edges (redo (undo s')) = edges s'.
Proof.
  apply (of_pushed_current s _ (slice_last 9 (past s))).
  apply Creation.pushes_render_snapshot.
Qed.

Lemma deletion s :
  let s' := handleDeleteSelected (render s) s in
  nodes (undo s') = nodes s /\ edges (undo s') = edges s /\
  nodes (redo (undo s')) = nodes s' /\ edges (redo (undo s')) = edges s'.
Proof.
  apply (of_pushed_current s _ (slice_last 9 (past s))).
  unfold handleDeleteSelected. destruct (0 <? _)%nat; reflexivity.
Qed.

Lemma connection s params :
  let s' := onConnect (render s) params s in
  nodes (undo s') = nodes s /\ edges (undo s') = edges s /\
  nodes (redo (undo s')) = nodes s' /\ edges (redo (undo s')) = edges s'.
Proof. apply (of_pushed_current s _ (slice_last 9 (past s))). reflexivity. Qed.

Lemma drag s id p :
  let s' := moveNode id p (onNodeDragStart (render s) s) in
  nodes (undo s') = nodes s /\ edges (undo s') = edges s /\
  nodes (redo (undo s')) = nodes s' /\ edges (redo (undo s')) = edges s'.
Proof. apply (of_pushed_current s _ (slice_last 9 (past s))). reflexivity. Qed.

(** A mutation after an undo empties [future]. *)
Lemma mutation_after_undo_clears_future r s :
  future (takeSnapshot r (undo s)) = [].
Proof. reflexivity. Qed.

End RoundTrip.

(** C2 at the close button of a node.  Two code nodes are created from the
    toolbar, then the first one is closed with its own close button.
    [handleDeleteSelected] takes a snapshot before it deletes, the close
    button of the node components calls [deleteElements] without one.  So
    [undo] pops the snapshot taken before the second node was created: the
    closed node comes back and the second node is lost; the canvas is not
    the one that was live just before the node was closed. *)
Theorem undo_after_closing_a_node :
  reachable first_closed /\
  ids (nodes second_code_node)
  = [ "start"; "code-1700000000000"; "code-1700000000500" ] /\
  ids (nodes first_closed) = [ "start"; "code-1700000000500" ] /\
  past first_closed = past second_code_node /\
  ids (nodes (undo first_closed)) = [ "start"; "code-1700000000000" ] /\
  nodes (undo first_closed) <> nodes second_code_node /\
  edges (undo first_closed) <> edges second_code_node.
Proof.
  split.
  { unfold first_closed, second_code_node, one_code_node.
    apply reach_close_node.
    apply reach_toolbar_code. apply reach_toolbar_code. apply reach_initial. }
  split; [reflexivity|]. split; [reflexivity|]. split; [reflexivity|].
  split; [reflexivity|].
  split; vm_compute; discriminate.
Qed.

(** A second path to the same defect of the round trip.  The course is
    generated from the start node, then the first module is opened from the
    curriculum node.  The [onSelectModule] callback of that node was built
    by the render that ran [handleStart], so its [pushHistory] saves the
    canvas of that render, which holds the start node alone.  [undo] then
    brings back that canvas: the curriculum node, which was on the canvas
    just before the module was opened, is gone with the study node. *)
Lemma undo_after_opening_a_module :
  reachable module_opened /\
  ids (nodes course_shown) = [ "start"; "curriculum-1700000000002" ] /\
  ids (nodes module_opened)
  = [ "start"; "curriculum-1700000000002"; "study-1700000060000" ] /\
  ids (nodes (undo module_opened)) = [ "start" ] /\
  edges (undo module_opened) = [] /\
  nodes (undo module_opened) <> nodes course_shown /\
  edges (undo module_opened) <> edges course_shown.
Proof.
  split.
  { unfold module_opened, course_shown, mounted, first_render.
    apply reach_select_module; [apply reach_initial|].
    apply reach_refresh.
    apply reach_start; [apply reach_initial|].
    apply reach_refresh, reach_initial. }
  split; [reflexivity|]. split; [reflexivity|].
  split; [reflexivity|]. split; [reflexivity|].
  split; vm_compute; discriminate.
Qed.

(* ================================================================== *)
(** * The start node and deletion *)
(* ================================================================== *)

Module Deletion.

Lemma mem_In x l : mem x l = true <-> In x l.
Proof.
  unfold mem. rewrite existsb_exists. split.
  - intros (y & Hy & E). apply String.eqb_eq in E. now subst.
  - intros H. exists x. split; [exact H|apply String.eqb_refl].
Qed.

Lemma not_mem x l : negb (mem x l) = true <-> ~ In x l.
Proof.
  rewrite negb_true_iff, <- not_true_iff_false. now rewrite mem_In.
Qed.

Lemma selected_id s x :
  In x (map Node.id (filter Node.selected (nodes s))) <->
  exists m, In m (nodes s) /\ Node.selected m = true /\ Node.id m = x.
Proof.
  rewrite in_map_iff. split.
  - intros (m & E & Hm). apply filter_In in Hm. exists m. tauto.
  - intros (m & Hm & Hsel & E). exists m. split; [exact E|].
    apply filter_In. tauto.
Qed.

Lemma nothing_selected s :
  (0 <? List.length (filter Node.selected (nodes s)))%nat = false ->
  forall m, In m (nodes s) -> Node.selected m = true -> False.
Proof.
  intros H m Hm Hsel. apply Nat.ltb_ge in H.
  assert (Hin : In m (filter Node.selected (nodes s))) by (apply filter_In; tauto).
  destruct (filter Node.selected (nodes s)); [destruct Hin|simpl in H; lia].
Qed.

Lemma surviving_nodes r s n :
  In n (nodes (handleDeleteSelected r s)) <->
  In n (nodes s) /\
  (forall m, In m (nodes s) -> Node.selected m = true -> Node.id m <> Node.id n).
Proof.
  unfold handleDeleteSelected.
  change (nodes (pushHistory r s)) with (nodes s).
  destruct (0 <? _)%nat eqn:E.
  - cbn [deleteElements nodes setEdges setNodes pushHistory takeSnapshot
         setFuture setPast].
    rewrite filter_In, not_mem, selected_id. split.
    + intros [Hn Hno]. split; [exact Hn|].
      intros m Hm Hsel Heq. apply Hno. exists m. tauto.
    + intros [Hn Hno]. split; [exact Hn|].
      intros (m & Hm & Hsel & Heq). exact (Hno m Hm Hsel Heq).
  - cbn [nodes pushHistory takeSnapshot setFuture setPast]. split.
    + intros Hn. split; [exact Hn|].
      intros m Hm Hsel. destruct (nothing_selected s E m Hm Hsel).
    + tauto.
Qed.

Lemma surviving_edges r s e :
  In e (edges (handleDeleteSelected r s)) <->
  In e (edges s) /\
  (forall m, In m (nodes s) -> Node.selected m = true ->
             Node.id m <> Edge.source e /\ Node.id m <> Edge.target e).
Proof.
  unfold handleDeleteSelected.
  change (nodes (pushHistory r s)) with (nodes s).
  destruct (0 <? _)%nat eqn:E.
  - cbn [deleteElements edges setEdges setNodes pushHistory takeSnapshot
         setFuture setPast].
    rewrite filter_In, andb_true_iff, !not_mem, !selected_id. split.
    + intros [He [Hs Ht]]. split; [exact He|].
      intros m Hm Hsel. split; intros Heq; [apply Hs|apply Ht]; exists m; tauto.
    + intros [He Hno]. split; [exact He|].
      split; intros (m & Hm & Hsel & Heq);
        destruct (Hno m Hm Hsel) as [H1 H2]; contradiction.
  - cbn [edges pushHistory takeSnapshot setFuture setPast]. split.
    + intros He. split; [exact He|].
      intros m Hm Hsel. destruct (nothing_selected s E m Hm Hsel).
    + tauto.
Qed.

End Deletion.

(** C8, amended: the canvas starts with exactly one start node, which no
    edge enters.  [handleDeleteSelected] does not protect it: a node stays
    exactly when no selected node bears its id, whatever its kind, and an
    edge stays exactly when neither of its ends is the id of a selected
    node. *)
Theorem deleteSelected_removes_what_is_selected :
  one_root initialState /\
  (forall r s n,
      In n (nodes (handleDeleteSelected r s)) <->
      In n (nodes s) /\
      (forall m, In m (nodes s) -> Node.selected m = true ->
                 Node.id m <> Node.id n)) /\
  (forall r s e,
      In e (edges (handleDeleteSelected r s)) <->
      In e (edges s) /\
      (forall m, In m (nodes s) -> Node.selected m = true ->
                 Node.id m <> Edge.source e /\ Node.id m <> Edge.target e)).
Proof.
  split; [|split].
  - eexists. split; [reflexivity|]. intros e [].
  - apply Deletion.surviving_nodes.
  - apply Deletion.surviving_edges.
Qed.

(** C8 as stated fails: the user selects the start node and presses
    Delete; the canvas is left without a start node. *)
Lemma selected_start_node_is_deleted :
  reachable start_deleted /\
  nodes start_selected
  = [ Node.mk "start" (Js.Str "start") (Position.mk 0 0) [] true ] /\
  nodes start_deleted = [] /\
  ~ one_root start_deleted.
Proof.
  split; [|split; [|split]].
  - unfold start_deleted, start_selected.
    apply reach_delete, reach_select, reach_initial.
  - reflexivity.
  - reflexivity.
  - intros (root & H & _). discriminate H.
Qed.

(* ================================================================== *)
(** * Navigation: sorted children and the walker loop *)
(* ================================================================== *)

Module Children.

Lemma insert_by_y_perm n l : Permutation (insert_by_y n l) (n :: l).
Proof.
  induction l as [|h t IH]; simpl; [reflexivity|].
  destruct (_ <=? _)%Z; [reflexivity|].
  rewrite IH. apply perm_swap.
Qed.

Lemma sort_by_y_perm l : Permutation (sort_by_y l) l.
Proof.
  induction l as [|h t IH]; simpl; [reflexivity|].
  rewrite insert_by_y_perm. now constructor.
Qed.

(** A node is among the sorted children of [c] exactly when an edge from
    [c] ends at its id and it is the node found for that id. *)
Lemma In_getSortedChildren ns es c n :
  In n (getSortedChildren ns es c) <->
  exists e, In e es /\ Edge.source e = c /\
            find (fun m => Node.id m =? Edge.target e) ns = Some n.
Proof.
  unfold getSortedChildren. split.
  - intros H. apply (Permutation_in _ (sort_by_y_perm _)) in H.
    apply in_flat_map in H. destruct H as (e & He & Hn).
    apply filter_In in He. destruct He as [He Hsrc].
    apply String.eqb_eq in Hsrc. exists e.
    destruct (find _ ns) as [m|]; [|destruct Hn].
    destruct Hn as [<-|[]]. tauto.
  - intros (e & He & Hsrc & Hfind).
    apply (Permutation_in _ (Permutation_sym (sort_by_y_perm _))).
    apply in_flat_map. exists e. split.
    + apply filter_In. split; [exact He|]. now apply String.eqb_eq.
    + rewrite Hfind. now left.
Qed.

Lemma findIndex_range {A : Type} (f : A -> bool) (l : list A) :
  findIndex f l = (-1)%Z \/
  (0 <= findIndex f l < Z.of_nat (List.length l))%Z.
Proof.
  induction l as [|a t IH]; simpl; [now left|].
  destruct (f a); [right; lia|].
  destruct (findIndex f t =? -1)%Z eqn:E; [now left|].
  apply Z.eqb_neq in E. right. lia.
Qed.

Lemma findIndex_found {A : Type} (f : A -> bool) (l : list A) :
  findIndex f l <> (-1)%Z ->
  exists x, nth_error l (Z.to_nat (findIndex f l)) = Some x /\ f x = true.
Proof.
  induction l as [|a t IH]; simpl; [congruence|].
  destruct (f a) eqn:Fa; [intros _; exists a; split; [reflexivity|exact Fa]|].
  destruct (findIndex f t =? -1)%Z eqn:E; [congruence|].
  apply Z.eqb_neq in E. intros _.
  destruct (IH E) as (x & Hx & Fx). exists x. split; [|exact Fx].
  destruct (findIndex_range f t) as [?|?]; [contradiction|].
  replace (Z.to_nat (findIndex f t + 1)) with (S (Z.to_nat (findIndex f t)))
    by lia.
  exact Hx.
Qed.

Lemma findIndex_exists {A : Type} (f : A -> bool) (l : list A) (x : A) :
  In x l -> f x = true -> findIndex f l <> (-1)%Z.
Proof.
  induction l as [|a t IH]; simpl; [tauto|].
  intros [->|Hin] Fx.
  - rewrite Fx. discriminate.
  - destruct (f a); [discriminate|].
    destruct (findIndex f t =? -1)%Z eqn:E.
    + apply Z.eqb_eq in E. exfalso. exact (IH Hin Fx E).
    + destruct (findIndex_range f t); apply Z.eqb_neq in E; lia.
Qed.

Lemma resolve ns es e :
  targets_resolve ns es = true -> In e es ->
  exists n, find (fun m => Node.id m =? Edge.target e) ns = Some n /\
            Node.id n = Edge.target e.
Proof.
  unfold targets_resolve. rewrite forallb_forall. intros H He.
  specialize (H e He). apply existsb_exists in H. destruct H as (m & Hm & E).
  destruct (find (fun m => Node.id m =? Edge.target e) ns) as [n|] eqn:F.
  - exists n. split; [reflexivity|].
    apply find_some in F. now apply String.eqb_eq.
  - exfalso. apply (find_none _ _ F) in Hm. congruence.
Qed.

End Children.

Module Walk.

Section Graph.

Variables (ns : list Node.t) (es : list Edge.t).

(** A run of the loop that is out of fuel has made [fuel] turns. *)
Lemma out_of_fuel fuel walker :
  walk ns es fuel walker = None ->
  exists l, List.length l = fuel /\ climbing ns es walker l.
Proof.
  revert walker. induction fuel as [|fuel IH]; intros walker H.
  - exists []. split; [reflexivity|exact I].
  - simpl in H.
    destruct (walker =? "") eqn:Ew; [discriminate|].
    destruct (find (fun e => Edge.target e =? walker) es) as [e|] eqn:Fe;
      [|discriminate].
    destruct (negb _ && _) eqn:C; [discriminate|].
    destruct (IH _ H) as (l & Hl & Hc).
    exists (Edge.source e :: l). split; [simpl; now rewrite Hl|].
    split; [|exact Hc].
    unfold climb. now rewrite Ew, Fe, C.
Qed.

Lemma climb_edge a c :
  climb ns es a = Some c ->
  exists e, In e es /\ Edge.target e = a /\ Edge.source e = c.
Proof.
  unfold climb. destruct (a =? ""); [discriminate|].
  destruct (find _ es) as [e|] eqn:Fe; [|discriminate].
  destruct (negb _ && _); [discriminate|]. intros [= <-].
  apply find_some in Fe. destruct Fe as [He Ht].
  apply String.eqb_eq in Ht. exists e. tauto.
Qed.

Hypothesis closed : targets_resolve ns es = true.

(** The walker that climbs to [c] is the last of the sorted children of
    [c]. *)
Lemma climb_from_last a c :
  climb ns es a = Some c ->
  exists n,
    nth_error (getSortedChildren ns es c)
      (List.length (getSortedChildren ns es c) - 1) = Some n /\
    Node.id n = a.
Proof.
  unfold climb. destruct (a =? ""); [discriminate|].
  destruct (find _ es) as [e|] eqn:Fe; [|discriminate].
  destruct (negb _ && _) eqn:C; [discriminate|]. intros [= <-].
  apply find_some in Fe. destruct Fe as [He Ht]. apply String.eqb_eq in Ht.
  destruct (Children.resolve ns es e closed He) as (n & Hfind & Hid).
  assert (Hin : In n (getSortedChildren ns es (Edge.source e))).
  { apply Children.In_getSortedChildren. exists e. tauto. }
  set (siblings := getSortedChildren ns es (Edge.source e)) in *.
  assert (Hidx : findIndex (fun m => Node.id m =? a) siblings <> (-1)%Z).
  { apply (Children.findIndex_exists _ _ n Hin).
    apply String.eqb_eq. congruence. }
  destruct (Children.findIndex_found _ _ Hidx) as (x & Hx & Fx).
  destruct (Children.findIndex_range (fun m => Node.id m =? a) siblings)
    as [?|Hr]; [contradiction|].
  apply andb_false_iff in C. destruct C as [C|C].
  - apply negb_false_iff, Z.eqb_eq in C. contradiction.
  - apply Z.ltb_ge in C. exists x. split; [|now apply String.eqb_eq].
    replace (List.length siblings - 1)%nat
      with (Z.to_nat (findIndex (fun m => Node.id m =? a) siblings)) by lia.
    exact Hx.
Qed.

Lemma climb_injective a b c :
  climb ns es a = Some c -> climb ns es b = Some c -> a = b.
Proof.
  intros Ha Hb.
  destruct (climb_from_last a c Ha) as (n & Hn & <-).
  destruct (climb_from_last b c Hb) as (m & Hm & <-).
  congruence.
Qed.

Lemma climbed_to_has_children p w :
  climb ns es p = Some w -> getSortedChildren ns es w <> [].
Proof.
  intros H. destruct (climb_from_last p w H) as (n & Hn & _).
  intros E. rewrite E in Hn. discriminate.
Qed.

Lemma climbing_predecessor w l x :
  climbing ns es w l -> In x l ->
  exists p, (p = w \/ In p l) /\ climb ns es p = Some x.
Proof.
  revert w. induction l as [|q rest IH]; intros w Hc Hx; [destruct Hx|].
  destruct Hc as [Hw Hc]. destruct Hx as [->|Hx].
  - exists w. split; [now left|exact Hw].
  - destruct (IH q Hc Hx) as (p & [->|Hp] & Hclimb).
    + exists q. split; [right; now left|exact Hclimb].
    + exists p. split; [right; now right|exact Hclimb].
Qed.

(** The walkers of a run that never comes back to its first walker are
    pairwise distinct. *)
Lemma climbing_NoDup w l :
  climbing ns es w l -> ~ In w l -> NoDup l.
Proof.
  revert w. induction l as [|q rest IH]; intros w Hc Hw; [constructor|].
  destruct Hc as [Hq Hc].
  assert (Hnot : ~ In q rest).
  { intros Hin.
    destruct (climbing_predecessor q rest q Hc Hin) as (p & Hp & Hclimb).
    assert (p = w) by (eapply climb_injective; eassumption). subst p.
    apply Hw. destruct Hp as [->|Hp]; [now left|now right]. }
  constructor; [exact Hnot|]. now apply (IH q).
Qed.

Lemma climbing_sources w l :
  climbing ns es w l -> incl l (map Edge.source es).
Proof.
  revert w. induction l as [|q rest IH]; intros w Hc x Hx; [destruct Hx|].
  destruct Hc as [Hq Hc]. destruct Hx as [<-|Hx].
  - destruct (climb_edge w q Hq) as (e & He & _ & <-). now apply in_map.
  - exact (IH q Hc x Hx).
Qed.

(** From a node without children the loop ends within [|edges| + 1]
    turns. *)
Lemma walk_ends fuel walker :
  getSortedChildren ns es walker = [] ->
  (List.length es < fuel)%nat ->
  walk ns es fuel walker <> None.
Proof.
  intros Hleaf Hfuel Hnone.
  destruct (out_of_fuel fuel walker Hnone) as (l & Hlen & Hc).
  assert (Hw : ~ In walker l).
  { intros Hin.
    destruct (climbing_predecessor walker l walker Hc Hin) as (p & _ & Hp).
    exact (climbed_to_has_children p walker Hp Hleaf). }
  pose proof (NoDup_incl_length (climbing_NoDup walker l Hc Hw)
                (climbing_sources walker l Hc)) as Hle.
  rewrite length_map in Hle. lia.
Qed.

Lemma navigationTarget_ends fuel nodeId direction :
  (List.length es < fuel)%nat ->
  navigationTarget ns es fuel nodeId direction <> None.
Proof.
  intros Hfuel. unfold navigationTarget. destruct direction.
  - destruct (find _ es); [destruct (0 <? _)%Z|]; discriminate.
  - destruct (getSortedChildren ns es nodeId) as [|c cs] eqn:E.
    + simpl. now apply walk_ends.
    + simpl. discriminate.
Qed.

End Graph.

(** The condition on the edges is needed: on edges whose ends are not
    nodes of the canvas the loop can go round for ever.  No state of the
    controller has such edges ([Invariant.reachable_sound] below). *)
Lemma walk_round_dangling_edges fuel :
  walk dangling_nodes dangling_edges fuel "c" = None.
Proof.
  assert (H : forall n, walk dangling_nodes dangling_edges n "g1" = None /\
                        walk dangling_nodes dangling_edges n "g2" = None).
  { induction n as [|n [IH1 IH2]]; [split; reflexivity|].
    split; [exact IH2|exact IH1]. }
  destruct fuel as [|fuel]; [reflexivity|]. exact (proj1 (H fuel)).
Qed.

End Walk.

(** C5: on every graph (every edge ends at a node of the graph), cycles
    included, [handleNavigate] returns for every starting node and both
    directions; the walker loop makes at most [|edges| + 1] turns. *)
Theorem navigation_terminates :
  forall (s : State) (nodeId : string) (direction : Direction) (fuel : nat),
    targets_resolve (nodes s) (edges s) = true ->
    (List.length (edges s) < fuel)%nat ->
    exists s', handleNavigate fuel nodeId direction s = Some s'.
Proof.
  intros s nodeId direction fuel Hclosed Hfuel. unfold handleNavigate.
  destruct (find _ (nodes s)) as [currentNode|]; [|eexists; reflexivity].
  pose proof (Walk.navigationTarget_ends (nodes s) (edges s) Hclosed fuel
                nodeId direction Hfuel) as Hends.
  destruct (navigationTarget _ _ _ _ _) as [targetId|]; [|congruence].
  destruct (Js.present targetId); [|eexists; reflexivity].
  destruct (Js.truthy _); eexists; reflexivity.
Qed.

Lemma navigation_terminates_witness :
  targets_resolve (nodes ring) (edges ring) = true /\
  (List.length (edges ring) < 4)%nat /\
  exists s', handleNavigate 4 "c" next ring = Some s'.
Proof.
  split; [reflexivity|]. split; [simpl; lia|].
  exact (navigation_terminates ring "c" next 4 eq_refl ltac:(simpl; lia)).
Defined.

(* ================================================================== *)
(** * Lists *)
(* ================================================================== *)

Module Lists.

Section Generic.

Context {A B C : Type}.

Lemma map_flat_map (g : B -> C) (f : A -> list B) (l : list A) :
  map g (flat_map f l) = flat_map (fun x => map g (f x)) l.
Proof.
  induction l as [|a l IH]; simpl; [reflexivity|].
  now rewrite map_app, IH.
Qed.

Lemma flat_map_map (f : B -> list C) (h : A -> B) (l : list A) :
  flat_map f (map h l) = flat_map (fun x => f (h x)) l.
Proof.
  induction l as [|a l IH]; simpl; [reflexivity|]. now rewrite IH.
Qed.

Lemma filter_flat_map (p : B -> bool) (f : A -> list B) (l : list A) :
  filter p (flat_map f l) = flat_map (fun x => filter p (f x)) l.
Proof.
  induction l as [|a l IH]; simpl; [reflexivity|].
  now rewrite filter_app, IH.
Qed.

Lemma flat_map_ext_In (f g : A -> list B) (l : list A) :
  (forall x, In x l -> f x = g x) -> flat_map f l = flat_map g l.
Proof.
  induction l as [|a l IH]; simpl; intros H; [reflexivity|].
  rewrite (H a) by now left. rewrite IH; [reflexivity|].
  intros x Hx. apply H. now right.
Qed.

Lemma flat_map_nil (f : A -> list B) (l : list A) :
  (forall x, In x l -> f x = []) -> flat_map f l = [].
Proof.
  induction l as [|a l IH]; simpl; intros H; [reflexivity|].
  rewrite (H a) by now left. simpl. apply IH. intros x Hx. apply H. now right.
Qed.

Lemma filter_nil (p : A -> bool) (l : list A) :
  (forall x, In x l -> p x = false) -> filter p l = [].
Proof.
  induction l as [|a l IH]; simpl; intros H; [reflexivity|].
  rewrite (H a) by now left. apply IH. intros x Hx. apply H. now right.
Qed.

Lemma filter_all (p : A -> bool) (l : list A) :
  (forall x, In x l -> p x = true) -> filter p l = l.
Proof.
  induction l as [|a l IH]; simpl; intros H; [reflexivity|].
  rewrite (H a) by now left. f_equal. apply IH. intros x Hx. apply H. now right.
Qed.

Lemma Permutation_filter (p : A -> bool) (l l' : list A) :
  Permutation l l' -> Permutation (filter p l) (filter p l').
Proof.
  induction 1 as [|x l l' _ IH|x y l|l l' l'' _ IH1 _ IH2]; simpl.
  - constructor.
  - destruct (p x); [now constructor|exact IH].
  - destruct (p x), (p y); try reflexivity. apply perm_swap.
  - now transitivity (filter p l').
Qed.

Lemma NoDup_flat_map_In (f : A -> list B) (l : list A) (c : A) :
  NoDup (flat_map f l) -> In c l -> NoDup (f c).
Proof.
  induction l as [|a l IH]; simpl; intros Hnd Hc; [destruct Hc|].
  destruct Hc as [<-|Hc].
  - now apply NoDup_app_remove_r in Hnd.
  - apply NoDup_app_remove_l in Hnd. auto.
Qed.

Lemma NoDup_app_disjoint (l l' : list B) (x : B) :
  NoDup (l ++ l') -> In x l -> In x l' -> False.
Proof.
  induction l as [|a l IH]; simpl; intros Hnd Hx Hx'; [destruct Hx|].
  inversion Hnd as [|? ? Hnot Hrest]; subst. destruct Hx as [<-|Hx].
  - apply Hnot. apply in_or_app. now right.
  - exact (IH Hrest Hx Hx').
Qed.

(** In a duplicate-free concatenation, an element of one block is in no
    other block. *)
Lemma NoDup_flat_map_head (f : A -> list B) (c : A) (l : list A) (x : B) :
  NoDup (flat_map f (c :: l)) -> In x (f c) ->
  forall d, In d l -> ~ In x (f d).
Proof.
  simpl. intros Hnd Hx d Hd Hxd.
  apply (NoDup_app_disjoint _ _ x Hnd Hx).
  apply in_flat_map. exists d. tauto.
Qed.

Lemma NoDup_flat_map_tail (f : A -> list B) (c : A) (l : list A) (x : B) :
  NoDup (flat_map f (c :: l)) -> forall d, In d l -> In x (f d) -> ~ In x (f c).
Proof.
  intros Hnd d Hd Hxd Hx.
  exact (NoDup_flat_map_head f c l x Hnd Hx d Hd Hxd).
Qed.

(** Two pairs of a list with distinct second components that agree on the
    second component agree on the first. *)
Lemma same_snd (l : list (A * B)) (a a' : A) (b : B) :
  NoDup (map snd l) -> In (a, b) l -> In (a', b) l -> a = a'.
Proof.
  induction l as [|[a0 b0] l IH]; simpl; intros Hnd H H'; [destruct H|].
  inversion Hnd as [|? ? Hnot Hrest]; subst.
  destruct H as [H|H], H' as [H'|H'].
  - congruence.
  - exfalso. apply Hnot. injection H as _ ->.
    change b with (snd (a', b)). now apply in_map.
  - exfalso. apply Hnot. injection H' as _ ->.
    change b with (snd (a, b)). now apply in_map.
  - now apply IH.
Qed.

Lemma same_fst (l : list (A * B)) (a : A) (b b' : B) :
  NoDup (map fst l) -> In (a, b) l -> In (a, b') l -> b = b'.
Proof.
  induction l as [|[a0 b0] l IH]; simpl; intros Hnd H H'; [destruct H|].
  inversion Hnd as [|? ? Hnot Hrest]; subst.
  destruct H as [H|H], H' as [H'|H'].
  - congruence.
  - exfalso. apply Hnot. injection H as -> _.
    change a with (fst (a, b')). now apply in_map.
  - exfalso. apply Hnot. injection H' as -> _.
    change a with (fst (a, b)). now apply in_map.
  - now apply IH.
Qed.

End Generic.

End Lists.

(* ================================================================== *)
(** * Trees *)
(* ================================================================== *)

Module TreeFacts.

Lemma Tree_induction (P : Tree -> Prop) :
  (forall i v cs, Forall P cs -> P (TreeNode i v cs)) -> forall t, P t.
Proof.
  intros H. fix IH 1. intros [i v cs]. apply H.
  induction cs as [|c r IHr]; constructor; [apply IH|exact IHr].
Qed.

Lemma preorder_entries t : preorder t = map fst (tree_entries t).
Proof.
  induction t as [i v cs IH] using Tree_induction. simpl. f_equal.
  rewrite Lists.map_flat_map. apply Lists.flat_map_ext_In.
  intros c Hc. rewrite Forall_forall in IH. now apply IH.
Qed.

Lemma preorder_unfold t :
  preorder t = tree_id t :: flat_map preorder (tree_children t).
Proof. now destruct t. Qed.

Lemma id_in_preorder t : In (tree_id t) (preorder t).
Proof. destruct t. now left. Qed.

Lemma child_in_preorder c cs x :
  In c cs -> In x (preorder c) -> In x (flat_map preorder cs).
Proof. intros Hc Hx. apply in_flat_map. exists c. tauto. Qed.

Lemma subtree_incl u t : subtree u t -> incl (preorder u) (preorder t).
Proof.
  induction 1 as [t|u i v cs c Hc _ IH]; [apply incl_refl|].
  intros x Hx. simpl. right. apply (child_in_preorder c); auto.
Qed.

Lemma subtree_NoDup u t : subtree u t -> NoDup (preorder t) -> NoDup (preorder u).
Proof.
  induction 1 as [t|u i v cs c Hc _ IH]; [auto|].
  simpl. intros Hnd. inversion Hnd as [|? ? _ Hrest]; subst.
  apply IH. now apply (Lists.NoDup_flat_map_In preorder cs).
Qed.

Lemma subtree_trans u c t : subtree u c -> subtree c t -> subtree u t.
Proof.
  intros Huc Hct. induction Hct as [t|c i v cs d Hd _ IH]; [exact Huc|].
  apply (subtree_child u i v cs d Hd). now apply IH.
Qed.

Lemma links_in_preorder t a b :
  In (a, b) (tree_links t) -> In a (preorder t) /\ In b (preorder t).
Proof.
  induction t as [i v cs IH] using Tree_induction. simpl. intros H.
  apply in_app_or in H. destruct H as [H|H].
  - apply in_map_iff in H. destruct H as (c & [= <- <-] & Hc).
    split; [now left|]. right.
    apply (child_in_preorder c); [exact Hc|apply id_in_preorder].
  - apply in_flat_map in H. destruct H as (c & Hc & H).
    rewrite Forall_forall in IH. destruct (IH c Hc H) as [Ha Hb].
    split; right; apply (child_in_preorder c); assumption.
Qed.

Lemma children_in_absent t p : ~ In p (preorder t) -> children_in t p = [].
Proof.
  induction t as [i v cs IH] using Tree_induction. simpl. intros H.
  destruct (i =? p) eqn:E.
  - apply String.eqb_eq in E. exfalso. apply H. now left.
  - apply Lists.flat_map_nil. intros c Hc.
    rewrite Forall_forall in IH. apply (IH c Hc).
    intros Hp. apply H. right. now apply (child_in_preorder c).
Qed.

(** Among siblings with disjoint ids, the children of [p] are found in the
    one sibling that holds [p]. *)
Lemma children_in_among cs c p :
  NoDup (flat_map preorder cs) -> In c cs -> In p (preorder c) ->
  flat_map (fun d => children_in d p) cs = children_in c p.
Proof.
  induction cs as [|d r IH]; intros Hnd Hc Hp; [destruct Hc|].
  cbn [flat_map]. destruct Hc as [->|Hc].
  - rewrite Lists.flat_map_nil; [apply app_nil_r|].
    intros e He. apply children_in_absent.
    exact (Lists.NoDup_flat_map_head preorder c r p Hnd Hp e He).
  - rewrite (children_in_absent d p).
    + simpl. apply IH; [|exact Hc|exact Hp].
      simpl in Hnd. now apply NoDup_app_remove_l in Hnd.
    + exact (Lists.NoDup_flat_map_tail preorder d r p Hnd c Hc Hp).
Qed.

(** The node of [t] with the id of [u] has the children of [u]. *)
Lemma children_in_subtree u t :
  subtree u t -> NoDup (preorder t) ->
  children_in t (tree_id u) = tree_children u.
Proof.
  induction 1 as [[i v cs]|u i v cs c Hc Hsub IH]; intros Hnd.
  - simpl. now rewrite String.eqb_refl.
  - simpl in Hnd. inversion Hnd as [|? ? Hnot Hrest]; subst.
    assert (Hin : In (tree_id u) (preorder c)).
    { apply (subtree_incl u c Hsub), id_in_preorder. }
    simpl. destruct (i =? tree_id u) eqn:E.
    + apply String.eqb_eq in E. exfalso. apply Hnot. rewrite E.
      now apply (child_in_preorder c).
    + rewrite (children_in_among cs c) by assumption.
      apply IH. now apply (Lists.NoDup_flat_map_In preorder cs).
Qed.

(** The children of [p] are no children at all, or the children of a node
    of [t]. *)
Lemma children_in_cases t p :
  NoDup (preorder t) ->
  children_in t p = [] \/
  exists v, subtree (TreeNode p v (children_in t p)) t.
Proof.
  induction t as [i v cs IH] using Tree_induction. intros Hnd.
  simpl. destruct (i =? p) eqn:E.
  - apply String.eqb_eq in E. subst. right. exists v. constructor.
  - simpl in Hnd. inversion Hnd as [|? ? _ Hrest]; subst.
    destruct (in_dec string_dec p (flat_map preorder cs)) as [Hin|Hout].
    + apply in_flat_map in Hin. destruct Hin as (c & Hc & Hp).
      rewrite (children_in_among cs c p Hrest Hc Hp).
      rewrite Forall_forall in IH.
      destruct (IH c Hc (Lists.NoDup_flat_map_In preorder cs c Hrest Hc))
        as [H|(w & H)]; [now left|].
      right. exists w. now apply (subtree_child _ i v cs c).
    + left. apply Lists.flat_map_nil. intros c Hc. apply children_in_absent.
      intros Hp. apply Hout. now apply (child_in_preorder c).
Qed.

Lemma link_of_child i v cs c t :
  subtree (TreeNode i v cs) t -> In c cs -> In (i, tree_id c) (tree_links t).
Proof.
  intros Hsub Hc. remember (TreeNode i v cs) as u eqn:Eu.
  induction Hsub as [t|u j w ds d Hd _ IH]; subst.
  - simpl. apply in_or_app. left. apply in_map_iff. exists c. tauto.
  - simpl. apply in_or_app. right. apply in_flat_map. exists d. auto.
Qed.

Lemma entry_of_subtree u t : subtree u t -> In (tree_entry u) (tree_entries t).
Proof.
  induction 1 as [[i v cs]|u i v cs c Hc _ IH]; [now left|].
  simpl. right. apply in_flat_map. exists c. tauto.
Qed.

Lemma ascending_of_subtree i v cs t :
  subtree (TreeNode i v cs) t -> children_ascending t = true ->
  ascending (map tree_y cs) = true.
Proof.
  intros Hsub. remember (TreeNode i v cs) as u eqn:Eu.
  induction Hsub as [t|u j w ds d Hd _ IH]; subst; simpl; intros H;
    apply andb_prop in H; destruct H as [H1 H2]; [exact H1|].
  apply IH; [reflexivity|]. rewrite forallb_forall in H2. auto.
Qed.

Lemma sibling_ids_distinct cs :
  NoDup (flat_map preorder cs) -> NoDup (map tree_id cs).
Proof.
  induction cs as [|c r IH]; simpl; intros Hnd; [constructor|].
  constructor.
  - intros Hin. apply in_map_iff in Hin. destruct Hin as (d & E & Hd).
    apply (Lists.NoDup_flat_map_head preorder c r (tree_id c) Hnd
             (id_in_preorder c) d Hd).
    rewrite <- E. apply id_in_preorder.
  - apply IH. now apply NoDup_app_remove_l in Hnd.
Qed.

(** The ids that are the target of a link are all the ids but the root. *)
Lemma targets_perm t :
  Permutation (tree_id t :: map snd (tree_links t)) (preorder t).
Proof.
  induction t as [i v cs IH] using Tree_induction. simpl. constructor.
  rewrite map_app, map_map. simpl.
  induction cs as [|c r IHr]; simpl; [constructor|].
  inversion IH as [|? ? Hc Hr]; subst.
  rewrite map_app, <- Hc. simpl. constructor.
  rewrite <- (IHr Hr).
  rewrite Permutation_app_swap_app. reflexivity.
Qed.

Lemma size_positive t : (0 < List.length (preorder t))%nat.
Proof. destruct t. simpl. lia. Qed.

Lemma child_size c cs :
  In c cs -> (List.length (preorder c) <= List.length (flat_map preorder cs))%nat.
Proof.
  induction cs as [|d r IH]; simpl; intros Hc; [destruct Hc|].
  rewrite length_app. destruct Hc as [->|Hc]; [lia|].
  specialize (IH Hc). lia.
Qed.

End TreeFacts.

(* ================================================================== *)
(** * Sorting by [y] *)
(* ================================================================== *)

Module Sorting.

Local Abbreviation y_of n := (Position.y (Node.position n)).

Lemma insert_sorted n l :
  StronglySorted (fun a b => (y_of a <= y_of b)%Z) l ->
  StronglySorted (fun a b => (y_of a <= y_of b)%Z) (insert_by_y n l).
Proof.
  induction l as [|h t IH]; simpl; intros Hs.
  - repeat constructor.
  - inversion Hs as [|? ? Ht Hh]; subst.
    destruct (y_of n <=? y_of h)%Z eqn:E.
    + apply Z.leb_le in E. constructor; [exact Hs|].
      constructor; [exact E|].
      rewrite Forall_forall in *. intros x Hx. specialize (Hh x Hx). lia.
    + apply Z.leb_gt in E. constructor; [now apply IH|].
      rewrite Forall_forall in *. intros x Hx.
      apply (Permutation_in _ (Children.insert_by_y_perm n t)) in Hx.
      destruct Hx as [<-|Hx]; [lia|auto].
Qed.

Lemma sort_sorted l :
  StronglySorted (fun a b => (y_of a <= y_of b)%Z) (sort_by_y l).
Proof.
  induction l as [|h t IH]; simpl; [constructor|now apply insert_sorted].
Qed.

Lemma ascending_cons a l :
  ascending (a :: l) = true ->
  Forall (fun b => (a < b)%Z) l /\ ascending l = true.
Proof.
  revert a. induction l as [|b l IH]; intros a H; [split; constructor|].
  simpl in H. apply andb_prop in H. destruct H as [Hab Hl].
  apply Z.ltb_lt in Hab. split; [|exact Hl].
  destruct (IH b Hl) as [Hb _]. constructor; [exact Hab|].
  rewrite Forall_forall in *. intros x Hx. specialize (Hb x Hx). lia.
Qed.

(** A list sorted by [y] whose (id, y) entries are a permutation of a
    strictly ascending list of entries has exactly these entries, in this
    order. *)
Lemma sorted_unique (l : list Node.t) (expected : list (string * Z)) :
  StronglySorted (fun a b => (y_of a <= y_of b)%Z) l ->
  Permutation (map entry l) expected ->
  ascending (map snd expected) = true ->
  map entry l = expected.
Proof.
  revert expected. induction l as [|a l IH]; intros expected Hs Hp Ha.
  - apply Permutation_nil in Hp. now subst.
  - destruct expected as [|b rest].
    { apply Permutation_sym, Permutation_nil in Hp. discriminate. }
    inversion Hs as [|? ? Hl Hfa]; subst.
    simpl in Ha. destruct (Sorting.ascending_cons _ _ Ha) as [Hb Hrest].
    assert (Hba : In b (map entry (a :: l))).
    { apply (Permutation_in _ (Permutation_sym Hp)). now left. }
    assert (Hab : In (entry a) (b :: rest)).
    { apply (Permutation_in _ Hp). now left. }
    assert (E : entry a = b).
    { destruct Hab as [E|Hin]; [now symmetry|]. exfalso.
      rewrite Forall_forall in Hb.
      assert (H1 : (snd b < snd (entry a))%Z).
      { apply Hb. now apply in_map. }
      simpl in Hba. destruct Hba as [E|Hin'].
      - rewrite E in H1. lia.
      - apply in_map_iff in Hin'. destruct Hin' as (x & <- & Hx).
        rewrite Forall_forall in Hfa. specialize (Hfa x Hx).
        simpl in H1. lia. }
    simpl. rewrite E. f_equal. apply IH; [exact Hl| |exact Hrest].
    simpl in Hp. rewrite E in Hp. now apply Permutation_cons_inv in Hp.
Qed.

End Sorting.

(* ================================================================== *)
(** * A graph that is a tree *)
(* ================================================================== *)

Module TreeGraph.

Section Represented.

Variables (ns : list Node.t) (es : list Edge.t) (t : Tree).
Hypothesis represented : is_tree ns es t.

Lemma entries_distinct : NoDup (map fst (tree_entries t)).
Proof.
  rewrite <- TreeFacts.preorder_entries. apply (tree_ids_distinct _ _ _ represented).
Qed.

(** The node found for the id of an entry of the tree is the node of that
    entry. *)
Lemma find_node i yv :
  In (i, yv) (tree_entries t) ->
  exists n, find (fun m => Node.id m =? i) ns = Some n /\ entry n = (i, yv).
Proof.
  intros Hin.
  assert (Hns : In (i, yv) (map entry ns)).
  { apply (Permutation_in _ (Permutation_sym (tree_has_nodes _ _ _ represented))).
    exact Hin. }
  apply in_map_iff in Hns. destruct Hns as (n0 & E0 & Hn0).
  destruct (find (fun m => Node.id m =? i) ns) as [n|] eqn:F.
  - exists n. split; [reflexivity|].
    apply find_some in F. destruct F as [Hn Hid]. apply String.eqb_eq in Hid.
    assert (Hn' : In (entry n) (tree_entries t)).
    { apply (Permutation_in _ (tree_has_nodes _ _ _ represented)).
      now apply in_map. }
    unfold entry in *. rewrite Hid in *. f_equal.
    exact (Lists.same_fst _ i _ _ entries_distinct Hn' Hin).
  - exfalso. apply (find_none _ _ F) in Hn0.
    unfold entry in E0. injection E0 as E0 _. rewrite E0 in Hn0.
    now rewrite String.eqb_refl in Hn0.
Qed.

(** The links that leave [p]. *)
Lemma links_from p :
  filter (fun l => fst l =? p) (tree_links t)
  = map (fun c => (p, tree_id c)) (children_in t p).
Proof.
  pose proof (tree_ids_distinct _ _ _ represented) as Hnd. clear represented.
  revert Hnd. induction t as [i v cs IH] using TreeFacts.Tree_induction.
  intros Hnd. simpl in Hnd. inversion Hnd as [|? ? Hnot Hrest]; subst.
  simpl. rewrite filter_app. destruct (i =? p) eqn:E.
  - apply String.eqb_eq in E. subst i.
    rewrite Lists.filter_all, Lists.filter_nil; [apply app_nil_r| |].
    + intros [a b] Hab. simpl. apply String.eqb_neq. intros ->.
      apply in_flat_map in Hab. destruct Hab as (c & Hc & Hab).
      apply TreeFacts.links_in_preorder in Hab. apply Hnot.
      apply (TreeFacts.child_in_preorder c); tauto.
    + intros [a b] Hab. apply in_map_iff in Hab.
      destruct Hab as (c & [= <- _] & _). simpl. apply String.eqb_refl.
  - rewrite Lists.filter_nil.
    + simpl. rewrite Lists.filter_flat_map, Lists.map_flat_map.
      apply Lists.flat_map_ext_In. intros c Hc.
      rewrite Forall_forall in IH. apply (IH c Hc).
      now apply (Lists.NoDup_flat_map_In preorder cs).
    + intros [a b] Hab. apply in_map_iff in Hab.
      destruct Hab as (c & [= <- _] & _). exact E.
Qed.

Lemma child_entries p c :
  In c (children_in t p) -> In (tree_entry c) (tree_entries t).
Proof.
  intros Hc.
  destruct (TreeFacts.children_in_cases t p (tree_ids_distinct _ _ _ represented))
    as [E|(v & Hsub)].
  - rewrite E in Hc. destruct Hc.
  - apply TreeFacts.entry_of_subtree.
    apply (TreeFacts.subtree_trans c (TreeNode p v (children_in t p)));
      [|exact Hsub].
    apply (subtree_child c p v _ c Hc). constructor.
Qed.

Lemma children_ascend p : ascending (map tree_y (children_in t p)) = true.
Proof.
  destruct (TreeFacts.children_in_cases t p (tree_ids_distinct _ _ _ represented))
    as [E|(v & Hsub)].
  - now rewrite E.
  - exact (TreeFacts.ascending_of_subtree p v _ t Hsub
             (tree_children_sorted _ _ _ represented)).
Qed.

(** [getSortedChildren] returns the children of the tree, in its order. *)
Lemma sorted_children p :
  map entry (getSortedChildren ns es p) = map tree_entry (children_in t p).
Proof.
  unfold getSortedChildren.
  apply Sorting.sorted_unique.
  - apply Sorting.sort_sorted.
  - rewrite (Children.sort_by_y_perm _).
    set (lookup := fun l : string * string =>
                     match find (fun n => Node.id n =? snd l) ns with
                     | Some n => [n]
                     | None => []
                     end).
    transitivity (map entry (flat_map lookup
                               (filter (fun l => fst l =? p) (map link es)))).
    { rewrite (filter_map_swap (fun l => fst l =? p) link es).
      rewrite Lists.flat_map_map. reflexivity. }
    rewrite (Lists.Permutation_filter (fun l => fst l =? p) _ _
               (tree_has_edges _ _ _ represented)).
    rewrite links_from, Lists.flat_map_map, Lists.map_flat_map.
    assert (E : forall cs, (forall c, In c cs -> In c (children_in t p)) ->
                  flat_map (fun c => map entry (lookup (p, tree_id c))) cs
                  = map tree_entry cs).
    { induction cs as [|c r IH]; intros Hall; [reflexivity|].
      simpl. rewrite IH by (intros d Hd; apply Hall; now right).
      destruct (find_node (tree_id c) (tree_y c)
                  (child_entries p c (Hall c (or_introl eq_refl))))
        as (n & Hfind & Hentry).
      unfold lookup at 1. simpl. rewrite Hfind. simpl. now rewrite Hentry. }
    rewrite E by auto. reflexivity.
  - rewrite map_map. apply children_ascend.
Qed.

Lemma sorted_children_ids p :
  map Node.id (getSortedChildren ns es p) = map tree_id (children_in t p).
Proof.
  pose proof (f_equal (map fst) (sorted_children p)) as H.
  now rewrite !map_map in H.
Qed.

Lemma targets_distinct : NoDup (map snd (tree_links t)).
Proof.
  pose proof (Permutation_NoDup (Permutation_sym (TreeFacts.targets_perm t))
                (tree_ids_distinct _ _ _ represented)) as H.
  now inversion H.
Qed.

(** The edge found for a child comes from its parent in the tree. *)
Lemma incoming p x :
  In (p, x) (tree_links t) ->
  exists e, find (fun e => Edge.target e =? x) es = Some e /\ Edge.source e = p.
Proof.
  intros Hin.
  assert (Hes : In (p, x) (map link es)).
  { apply (Permutation_in _ (Permutation_sym (tree_has_edges _ _ _ represented))).
    exact Hin. }
  apply in_map_iff in Hes. destruct Hes as (e0 & E0 & He0).
  destruct (find (fun e => Edge.target e =? x) es) as [e|] eqn:F.
  - exists e. split; [reflexivity|].
    apply find_some in F. destruct F as [He Ht]. apply String.eqb_eq in Ht.
    assert (He' : In (Edge.source e, x) (tree_links t)).
    { apply (Permutation_in _ (tree_has_edges _ _ _ represented)).
      rewrite <- Ht. change (In (link e) (map link es)). now apply in_map. }
    exact (Lists.same_snd _ _ _ x targets_distinct He' Hin).
  - exfalso. apply (find_none _ _ F) in He0.
    unfold link in E0. injection E0 as _ E0. rewrite E0 in He0.
    now rewrite String.eqb_refl in He0.
Qed.

(** No edge enters the root. *)
Lemma root_has_no_incoming :
  find (fun e => Edge.target e =? tree_id t) es = None.
Proof.
  destruct (find _ es) as [e|] eqn:F; [exfalso|reflexivity].
  apply find_some in F. destruct F as [He Ht]. apply String.eqb_eq in Ht.
  assert (He' : In (link e) (tree_links t)).
  { apply (Permutation_in _ (tree_has_edges _ _ _ represented)).
    now apply in_map. }
  pose proof (Permutation_NoDup (Permutation_sym (TreeFacts.targets_perm t))
                (tree_ids_distinct _ _ _ represented)) as H.
  inversion H as [|? ? Hnot _]; subst. apply Hnot.
  rewrite <- Ht. change (Edge.target e) with (snd (link e)). now apply in_map.
Qed.

Lemma size : List.length ns = List.length (preorder t).
Proof.
  rewrite TreeFacts.preorder_entries, length_map.
  rewrite <- (Permutation_length (tree_has_nodes _ _ _ represented)).
  now rewrite length_map.
Qed.

End Represented.

End TreeGraph.

(* ================================================================== *)
(** * Navigation on a tree *)
(* ================================================================== *)

Module Tour.

Lemma findIndex_at (l : list Node.t) (before after : list string) (x : string) :
  map Node.id l = before ++ x :: after ->
  ~ In x before ->
  findIndex (fun n => Node.id n =? x) l = Z.of_nat (List.length before).
Proof.
  revert l. induction before as [|a before IH]; intros l E Hx.
  - destruct l as [|n l]; [discriminate|]. simpl in E. injection E as E _.
    simpl. now rewrite E, String.eqb_refl.
  - destruct l as [|n l]; [discriminate|]. simpl in E. injection E as Ea E.
    cbn [findIndex]. rewrite Ea.
    replace (a =? x) with false
      by (symmetry; apply String.eqb_neq; intros ->; apply Hx; now left).
    rewrite (IH l E) by (intros H; apply Hx; now right).
    replace (Z.of_nat (List.length before) =? -1)%Z with false
      by (symmetry; apply Z.eqb_neq; lia).
    simpl List.length. lia.
Qed.

Lemma idAt_nat (l : list Node.t) (k : nat) :
  idAt l (Z.of_nat k) = nth_error (map Node.id l) k.
Proof.
  unfold idAt.
  replace (Z.of_nat k <? 0)%Z with false by (symmetry; apply Z.ltb_ge; lia).
  now rewrite Nat2Z.id, nth_error_map.
Qed.

Lemma first_or_app l1 l2 k :
  first_or (l1 ++ l2) k = first_or l1 (first_or l2 k).
Proof. now destruct l1. Qed.

Lemma first_or_preorders cs k :
  first_or (flat_map preorder cs) k = first_or (map tree_id cs) k.
Proof. destruct cs as [|[i v ds] r]; reflexivity. Qed.

Section OnATree.

Variables (ns : list Node.t) (es : list Edge.t) (t : Tree).
Hypothesis represented : is_tree ns es t.

Lemma chained_app fuel l1 l2 k :
  chained ns es fuel l1 (first_or l2 k) ->
  chained ns es fuel l2 k ->
  chained ns es fuel (l1 ++ l2) k.
Proof.
  induction l1 as [|a l1 IH]; simpl; intros H1 H2; [exact H2|].
  destruct H1 as [Ha H1]. split; [|now apply IH].
  now rewrite first_or_app.
Qed.

Lemma id_not_empty u : subtree u t -> tree_id u <> "".
Proof.
  intros Hsub E. apply (tree_ids_not_empty _ _ _ represented).
  rewrite <- E. apply (TreeFacts.subtree_incl u t Hsub), TreeFacts.id_in_preorder.
Qed.

(** What the code sees of a child [c] of the node [i]: its incoming edge,
    its siblings, and its index among them. *)
Lemma child_view i v before c after :
  subtree (TreeNode i v (before ++ c :: after)) t ->
  (exists e, find (fun e => Edge.target e =? tree_id c) es = Some e /\
             Edge.source e = i) /\
  map Node.id (getSortedChildren ns es i)
  = map tree_id before ++ tree_id c :: map tree_id after /\
  findIndex (fun n => Node.id n =? tree_id c) (getSortedChildren ns es i)
  = Z.of_nat (List.length before).
Proof.
  intros Hsub.
  pose proof (tree_ids_distinct _ _ _ represented) as Hnd.
  assert (Hids : map Node.id (getSortedChildren ns es i)
                 = map tree_id before ++ tree_id c :: map tree_id after).
  { rewrite (TreeGraph.sorted_children_ids ns es t represented).
    change i with (tree_id (TreeNode i v (before ++ c :: after))).
    rewrite (TreeFacts.children_in_subtree _ t Hsub Hnd). simpl.
    now rewrite map_app. }
  split; [|split; [exact Hids|]].
  - apply (TreeGraph.incoming ns es t represented).
    apply (TreeFacts.link_of_child i v _ c t Hsub).
    apply in_or_app. right. now left.
  - rewrite (findIndex_at _ _ _ _ Hids); [now rewrite length_map|].
    pose proof (TreeFacts.subtree_NoDup _ t Hsub Hnd) as Hu. simpl in Hu.
    inversion Hu as [|? ? _ Hcs]; subst.
    apply TreeFacts.sibling_ids_distinct in Hcs.
    rewrite map_app in Hcs. simpl in Hcs.
    apply NoDup_remove_2 in Hcs. intros H. apply Hcs.
    apply in_or_app. now left.
Qed.

(** The walker loop, started at a child: it stops at the next sibling, or
    goes on from the parent. *)
Lemma walk_from_child i v before c after bound k :
  subtree (TreeNode i v (before ++ c :: after)) t ->
  (forall fuel, (bound <= fuel)%nat -> walk ns es fuel i = Some k) ->
  forall fuel, (S bound <= fuel)%nat ->
    walk ns es fuel (tree_id c) = Some (first_or (map tree_id after) k).
Proof.
  intros Hsub Hparent fuel Hfuel.
  destruct fuel as [|fuel]; [lia|].
  destruct (child_view i v before c after Hsub) as ((e & Hfind & Hsrc) & Hids & Hidx).
  assert (Hc : subtree c t).
  { apply (TreeFacts.subtree_trans c (TreeNode i v (before ++ c :: after)) t);
      [|exact Hsub].
    apply (subtree_child c i v (before ++ c :: after) c); [|constructor].
    apply in_or_app. right. now left. }
  cbn [walk].
  replace (tree_id c =? "") with false
    by (symmetry; apply String.eqb_neq; now apply id_not_empty).
  rewrite Hfind, Hsrc, Hidx.
  assert (Hlen : List.length (getSortedChildren ns es i)
                 = (List.length before + S (List.length after))%nat).
  { rewrite <- (length_map Node.id), Hids, length_app. simpl.
    now rewrite !length_map. }
  rewrite Hlen.
  replace (Z.of_nat (List.length before) =? -1)%Z with false
    by (symmetry; apply Z.eqb_neq; lia).
  cbn [negb andb].
  destruct after as [|c' after].
  - replace (_ <? _)%Z with false by (symmetry; apply Z.ltb_ge; simpl; lia).
    simpl. apply Hparent. lia.
  - replace (_ <? _)%Z with true
      by (symmetry; apply Z.ltb_lt; simpl List.length; lia).
    replace (Z.of_nat (List.length before) + 1)%Z
      with (Z.of_nat (S (List.length before))) by lia.
    rewrite idAt_nat, Hids. simpl first_or. f_equal.
    rewrite nth_error_app2 by (rewrite length_map; lia).
    rewrite length_map.
    replace (S (List.length before) - List.length before)%nat with 1%nat by lia.
    reflexivity.
Qed.

(** [next] from a node of the tree: its first child, or what the walker
    loop finds. *)
Lemma next_from_node i v cs fuel :
  subtree (TreeNode i v cs) t ->
  navigationTarget ns es fuel i next
  = match cs with
    | [] => walk ns es fuel i
    | c :: _ => Some (Some (tree_id c))
    end.
Proof.
  intros Hsub.
  pose proof (TreeGraph.sorted_children_ids ns es t represented i) as Hids.
  change i with (tree_id (TreeNode i v cs)) in Hids at 2.
  rewrite (TreeFacts.children_in_subtree _ t Hsub
             (tree_ids_distinct _ _ _ represented)) in Hids.
  simpl in Hids. unfold navigationTarget.
  destruct cs as [|c r].
  - destruct (getSortedChildren ns es i); [reflexivity|discriminate].
  - destruct (getSortedChildren ns es i) as [|n l] eqn:E; [discriminate|].
    simpl in Hids. injection Hids as Hn _.
    cbn [List.length Nat.ltb Nat.leb]. unfold idAt.
    cbn [Z.ltb Z.compare Z.to_nat nth_error option_map]. now rewrite Hn.
Qed.

(** From a subtree, [next] runs through its nodes in pre-order and leaves
    it for the node the walker loop finds from its root. *)
Lemma chain_subtree u :
  subtree u t ->
  forall bound k,
    (forall fuel, (bound <= fuel)%nat -> walk ns es fuel (tree_id u) = Some k) ->
    forall fuel, (bound + List.length (preorder u) - 1 <= fuel)%nat ->
      chained ns es fuel (preorder u) k.
Proof.
  induction u as [i v cs IH] using TreeFacts.Tree_induction.
  intros Hsub bound k Hwalk fuel Hfuel.
  cbn [preorder chained]. cbn [preorder List.length] in Hfuel. split.
  - rewrite (next_from_node i v cs fuel Hsub).
    destruct cs as [|[j w ds] r]; [|reflexivity].
    simpl. apply Hwalk. simpl in Hfuel. lia.
  - assert (Hsuffix : forall after before,
              cs = before ++ after ->
              chained ns es fuel (flat_map preorder after) k).
    { induction after as [|c after IHafter]; intros before E; [exact I|].
      cbn [flat_map]. apply chained_app.
      - rewrite Forall_forall in IH.
        assert (Hc : In c cs).
        { rewrite E. apply in_or_app. right. now left. }
        rewrite first_or_preorders.
        apply (IH c Hc) with (bound := S bound).
        + apply (TreeFacts.subtree_trans c (TreeNode i v cs) t); [|exact Hsub].
          apply (subtree_child c i v cs c Hc). constructor.
        + subst cs. apply (walk_from_child i v before c after bound k Hsub).
          exact Hwalk.
        + pose proof (TreeFacts.child_size c cs Hc).
          pose proof (TreeFacts.size_positive c). lia.
      - apply (IHafter (before ++ [c])). rewrite <- app_assoc. exact E. }
    exact (Hsuffix cs [] eq_refl).
Qed.

Lemma walk_from_root fuel :
  (1 <= fuel)%nat -> walk ns es fuel (tree_id t) = Some None.
Proof.
  intros H. destruct fuel as [|fuel]; [lia|]. cbn [walk].
  destruct (tree_id t =? ""); [reflexivity|].
  now rewrite (TreeGraph.root_has_no_incoming ns es t represented).
Qed.

Lemma chain_tree fuel :
  (List.length ns <= fuel)%nat -> chained ns es fuel (preorder t) None.
Proof.
  intros H. apply (chain_subtree t (subtree_self t) 1 None).
  - intros f Hf. now apply walk_from_root.
  - rewrite <- (TreeGraph.size ns es t represented). lia.
Qed.

Lemma itinerary_of_chain fuel l a rest calls :
  chained ns es fuel l None -> ~ In "" l -> l = a :: rest ->
  (List.length rest <= calls)%nat ->
  itinerary ns es fuel next calls a = l.
Proof.
  revert a rest calls. induction l as [|x l IH]; intros a rest calls Hc Hne E Hcalls;
    [discriminate|].
  injection E as -> ->. destruct Hc as [Ha Hc].
  destruct rest as [|b rest].
  - simpl in Ha. destruct calls; simpl; [reflexivity|]. now rewrite Ha.
  - destruct calls as [|calls]; [simpl in Hcalls; lia|].
    cbn [itinerary]. rewrite Ha. cbn [first_or].
    replace (b =? "") with false
      by (symmetry; apply String.eqb_neq; intros ->; apply Hne; right; now left).
    f_equal. apply (IH b rest calls Hc); [|reflexivity|simpl in Hcalls; lia].
    intros H. apply Hne. now right.
Qed.

(** [prev] from a child: the sibling before it, or its parent. *)
Lemma prev_from_child i v before c after fuel :
  subtree (TreeNode i v (before ++ c :: after)) t ->
  navigationTarget ns es fuel (tree_id c) prev
  = Some (Some (last (map tree_id before) i)).
Proof.
  intros Hsub.
  destruct (child_view i v before c after Hsub) as ((e & Hfind & Hsrc) & Hids & Hidx).
  unfold navigationTarget. rewrite Hfind, Hsrc, Hidx.
  destruct before as [|b before] using rev_ind; [reflexivity|].
  rewrite length_app. simpl List.length.
  replace (0 <? _)%Z with true by (symmetry; apply Z.ltb_lt; lia).
  replace (Z.of_nat (List.length before + 1) - 1)%Z
    with (Z.of_nat (List.length before)) by lia.
  rewrite idAt_nat, Hids, map_app, <- app_assoc. simpl.
  rewrite nth_error_app2 by (rewrite length_map; lia).
  rewrite length_map, Nat.sub_diag. simpl.
  now rewrite last_last.
Qed.

Lemma prev_from_root fuel :
  navigationTarget ns es fuel (tree_id t) prev = Some None.
Proof.
  unfold navigationTarget.
  now rewrite (TreeGraph.root_has_no_incoming ns es t represented).
Qed.

End OnATree.

Lemma same_entries ns ns' es t :
  map entry ns' = map entry ns -> is_tree ns es t -> is_tree ns' es t.
Proof.
  intros E [H1 H2 H3 H4 H5]. split; try assumption. now rewrite E.
Qed.

Lemma chained_at ns es fuel before a rest k :
  chained ns es fuel (before ++ a :: rest) k ->
  navigationTarget ns es fuel a next = Some (first_or rest k).
Proof.
  induction before as [|b before IH]; simpl; intros [H Hrest]; [exact H|].
  now apply IH.
Qed.

(** [handleNavigate] focuses the target it has computed, and changes
    neither the edges nor the id and the position of a node. *)
Lemma handleNavigate_focuses_target fuel nodeId direction s :
  In nodeId (ids (nodes s)) ->
  match navigationTarget (nodes s) (edges s) fuel nodeId direction with
  | None => handleNavigate fuel nodeId direction s = None
  | Some None => handleNavigate fuel nodeId direction s = Some s
  | Some (Some targetId) =>
      targetId <> "" ->
      exists s', handleNavigate fuel nodeId direction s = Some s' /\
                 focusedNodeId s' = Some targetId /\
                 edges s' = edges s /\
                 map entry (nodes s') = map entry (nodes s)
  end.
Proof.
  intros Hin. unfold handleNavigate.
  destruct (find (fun n => Node.id n =? nodeId) (nodes s)) as [currentNode|] eqn:F.
  - destruct (navigationTarget _ _ _ _ _) as [[targetId|]|]; try reflexivity.
    intros Hne. rewrite (Placement.present_id targetId Hne).
    destruct (Js.truthy _); eexists; (split; [reflexivity|]);
      (split; [reflexivity|]); (split; [reflexivity|]); [|reflexivity].
    cbn [nodes setNodes setFocusedNodeId]. rewrite map_map.
    apply map_ext. intros n.
    destruct (Node.id n =? nodeId); [reflexivity|].
    destruct (Node.id n =? targetId); reflexivity.
  - exfalso. unfold ids in Hin. apply in_map_iff in Hin.
    destruct Hin as (n & E & Hn). apply (find_none _ _ F) in Hn.
    rewrite E, String.eqb_refl in Hn. discriminate.
Qed.

Lemma last_cons {A : Type} (rest : list A) (a b : A) :
  last (b :: rest) a = last rest b.
Proof.
  revert a b. induction rest as [|c rest IH]; intros a b; [reflexivity|].
  change (last (b :: c :: rest) a) with (last (c :: rest) a).
  now rewrite (IH a c), (IH b c).
Qed.

(** With no node selected, [onSelectionChange] leaves the focus alone. *)
Lemma onSelectionChange_idle s : no_selection s -> onSelectionChange s = s.
Proof. unfold no_selection, onSelectionChange. now intros ->. Qed.

Lemma same_flags_no_selection (ns ns' : list Node.t) :
  map Node.selected ns' = map Node.selected ns ->
  filter Node.selected ns = [] -> filter Node.selected ns' = [].
Proof.
  revert ns. induction ns' as [|n' ns' IH]; intros [|n ns] E H;
    try discriminate; [reflexivity|].
  simpl in E. injection E as E1 E2. simpl in *. rewrite E1.
  destruct (Node.selected n); [discriminate|]. now apply (IH ns).
Qed.

(** [handleNavigate] selects nothing. *)
Lemma handleNavigate_no_selection fuel nodeId direction s s' :
  handleNavigate fuel nodeId direction s = Some s' ->
  no_selection s -> no_selection s'.
Proof.
  unfold handleNavigate, no_selection.
  destruct (find _ (nodes s)) as [currentNode|]; [|now intros [= <-]].
  destruct (navigationTarget _ _ _ _ _) as [targetId|]; [|discriminate].
  destruct (Js.present targetId) as [tid|]; [|now intros [= <-]].
  destruct (Js.truthy _); intros [= <-]; [|now trivial].
  cbn [nodes setNodes setFocusedNodeId].
  apply same_flags_no_selection. rewrite map_map. apply map_ext.
  intros n. destruct (Node.id n =? nodeId); [reflexivity|].
  destruct (Node.id n =? tid); reflexivity.
Qed.

Lemma focusTrail_at_rest fuel direction clicks s :
  no_selection s ->
  navigateFromFocus fuel direction s = Some s ->
  focusTrail fuel direction clicks s = repeat (focusedNodeId s) (S clicks).
Proof.
  intros Hsel H. induction clicks as [|clicks IH]; [reflexivity|].
  cbn [focusTrail]. rewrite H, (onSelectionChange_idle s Hsel).
  cbn [repeat]. f_equal. exact IH.
Qed.

(** A selected node takes the focus back after each render: with the root
    of the tree  r -> a, b;  a -> a1  selected, the clicks on [next] leave
    the focus on the root. *)
Lemma selected_node_keeps_the_focus :
  filter Node.selected (nodes fork_root_selected) <> [] /\
  focusTrail 4 next 2 fork_root_selected = [ Some "r"; Some "r"; Some "r" ].
Proof. split; [discriminate|reflexivity]. Qed.

(** Clicking [next] from a node of the tree: the focus runs through the
    rest of the pre-order and then stays on its last node. *)
Lemma focusTrail_next t fuel rest :
  forall a before s clicks,
    is_tree (nodes s) (edges s) t ->
    no_selection s ->
    (List.length (nodes s) <= fuel)%nat ->
    preorder t = before ++ a :: rest ->
    focusedNodeId s = Some a ->
    (List.length rest <= clicks)%nat ->
    focusTrail fuel next clicks s
    = map Some (a :: rest)
      ++ repeat (Some (last rest a)) (clicks - List.length rest).
Proof.
  induction rest as [|b rest IH];
    intros a before s clicks Htree Hsel Hfuel Hpre Hfocus Hclicks.
  - assert (Ha : a <> "").
    { intros ->. apply (tree_ids_not_empty _ _ _ Htree). rewrite Hpre.
      apply in_or_app. right. now left. }
    assert (Hin : In a (ids (nodes s))).
    { apply (Permutation_in (l := preorder t)).
      - rewrite TreeFacts.preorder_entries.
        rewrite <- (tree_has_nodes _ _ _ Htree). unfold ids.
        now rewrite map_map.
      - rewrite Hpre. apply in_or_app. right. now left. }
    pose proof (chained_at _ _ fuel before a [] None
                  (eq_ind _ (fun l => chained _ _ fuel l None)
                     (chain_tree _ _ t Htree fuel Hfuel) _ Hpre)) as Hnext.
    pose proof (handleNavigate_focuses_target fuel a next s Hin) as Hnav.
    rewrite Hnext in Hnav. cbn [first_or] in Hnav.
    assert (Hrest : navigateFromFocus fuel next s = Some s).
    { unfold navigateFromFocus.
      now rewrite Hfocus, (Placement.present_id a Ha). }
    rewrite (focusTrail_at_rest fuel next clicks s Hsel Hrest), Hfocus.
    simpl. now rewrite Nat.sub_0_r.
  - destruct clicks as [|clicks]; [simpl in Hclicks; lia|].
    assert (Ha : a <> "").
    { intros ->. apply (tree_ids_not_empty _ _ _ Htree). rewrite Hpre.
      apply in_or_app. right. now left. }
    assert (Hb : b <> "").
    { intros ->. apply (tree_ids_not_empty _ _ _ Htree). rewrite Hpre.
      apply in_or_app. right. right. now left. }
    assert (Hin : In a (ids (nodes s))).
    { apply (Permutation_in (l := preorder t)).
      - rewrite TreeFacts.preorder_entries.
        rewrite <- (tree_has_nodes _ _ _ Htree). unfold ids.
        now rewrite map_map.
      - rewrite Hpre. apply in_or_app. right. now left. }
    pose proof (chained_at _ _ fuel before a (b :: rest) None
                  (eq_ind _ (fun l => chained _ _ fuel l None)
                     (chain_tree _ _ t Htree fuel Hfuel) _ Hpre)) as Hnext.
    pose proof (handleNavigate_focuses_target fuel a next s Hin) as Hnav.
    rewrite Hnext in Hnav. cbn [first_or] in Hnav.
    destruct (Hnav Hb) as (s' & Hs' & Hfocus' & Hedges & Hentries).
    cbn [focusTrail]. unfold navigateFromFocus.
    rewrite Hfocus, (Placement.present_id a Ha), Hs'.
    rewrite (onSelectionChange_idle s'
               (handleNavigate_no_selection _ _ _ _ _ Hs' Hsel)).
    cbn [map app List.length Nat.sub]. f_equal.
    rewrite (last_cons rest a b).
    rewrite (IH b (before ++ [a]) s' clicks).
    + reflexivity.
    + rewrite Hedges. now apply (same_entries (nodes s)).
    + exact (handleNavigate_no_selection _ _ _ _ _ Hs' Hsel).
    + rewrite <- (length_map entry), Hentries, length_map. exact Hfuel.
    + now rewrite <- app_assoc.
    + exact Hfocus'.
    + simpl in Hclicks. lia.
Qed.

Lemma fork_is_tree : is_tree fork_nodes fork_edges fork.
Proof.
  split.
  - simpl. do 2 constructor. apply perm_swap.
  - reflexivity.
  - simpl. repeat constructor; simpl; intuition discriminate.
  - simpl. intuition discriminate.
  - reflexivity.
Qed.

End Tour.

(** C4, amended: on a graph that is a tree whose children are in strictly
    ascending [y], calling [next] again and again from the root visits the
    nodes in depth-first pre-order, each once, and then stays on the last
    node; this is stated for the targets [handleNavigate] computes and,
    while no node is selected, for the focus after each click on the
    toolbar's arrow (a selected node takes the focus back after each
    render).  [prev] finds no
    target at the root and otherwise moves to the sibling just before the
    node, or to its parent when the node is a first child. *)
Theorem next_visits_the_tree_in_preorder :
  forall (ns : list Node.t) (es : list Edge.t) (t : Tree) (fuel : nat),
    is_tree ns es t ->
    (List.length ns <= fuel)%nat ->
    (forall calls, (List.length ns - 1 <= calls)%nat ->
                   itinerary ns es fuel next calls (tree_id t) = preorder t) /\
    (forall s clicks,
        nodes s = ns -> edges s = es ->
        no_selection s ->
        focusedNodeId s = Some (tree_id t) ->
        (List.length ns - 1 <= clicks)%nat ->
        focusTrail fuel next clicks s
        = map Some (preorder t)
          ++ repeat (Some (last (preorder t) (tree_id t)))
               (clicks - (List.length ns - 1))) /\
    Permutation (ids ns) (preorder t) /\
    navigationTarget ns es fuel (tree_id t) prev = Some None /\
    (forall i v before c after,
        subtree (TreeNode i v (before ++ c :: after)) t ->
        navigationTarget ns es fuel (tree_id c) prev
        = Some (Some (last (map tree_id before) i))).
Proof.
  intros ns es t fuel Htree Hfuel.
  pose proof (TreeGraph.size ns es t Htree) as Hsize.
  rewrite TreeFacts.preorder_unfold in Hsize. simpl in Hsize.
  split; [|split; [|split; [|split]]].
  - intros calls Hcalls.
    apply (Tour.itinerary_of_chain ns es fuel (preorder t) (tree_id t)
             (flat_map preorder (tree_children t))).
    + now apply Tour.chain_tree.
    + apply (tree_ids_not_empty _ _ _ Htree).
    + apply TreeFacts.preorder_unfold.
    + lia.
  - intros s clicks Hns Hes Hsel Hfocus Hclicks. subst ns es.
    rewrite (Tour.focusTrail_next t fuel (flat_map preorder (tree_children t))
               (tree_id t) [] s clicks Htree Hsel Hfuel
               (TreeFacts.preorder_unfold t) Hfocus) by lia.
    rewrite <- (Tour.last_cons (flat_map preorder (tree_children t))
                  (tree_id t) (tree_id t)).
    rewrite <- TreeFacts.preorder_unfold.
    replace (List.length (nodes s) - 1)%nat
      with (List.length (flat_map preorder (tree_children t))) by lia.
    reflexivity.
  - rewrite TreeFacts.preorder_entries.
    rewrite <- (tree_has_nodes _ _ _ Htree).
    unfold ids. now rewrite map_map.
  - now apply Tour.prev_from_root.
  - intros i v before c after Hsub.
    now apply (Tour.prev_from_child ns es t Htree i v before c after).
Qed.

Lemma next_visits_the_tree_in_preorder_witness :
  is_tree fork_nodes fork_edges fork /\
  (List.length fork_nodes <= 4)%nat /\
  no_selection (fork_canvas "r") /\
  itinerary fork_nodes fork_edges 4 next 3 "r" = [ "r"; "a"; "a1"; "b" ] /\
  focusTrail 4 next 4 (fork_canvas "r")
  = [ Some "r"; Some "a"; Some "a1"; Some "b"; Some "b" ].
Proof.
  split; [exact Tour.fork_is_tree|]. split; [simpl; lia|].
  split; [reflexivity|]. split.
  - exact (proj1 (next_visits_the_tree_in_preorder fork_nodes fork_edges fork 4
                    Tour.fork_is_tree ltac:(simpl; lia))
             3%nat ltac:(simpl; lia)).
  - exact (proj1 (proj2 (next_visits_the_tree_in_preorder fork_nodes fork_edges
                           fork 4 Tour.fork_is_tree ltac:(simpl; lia)))
             (fork_canvas "r") 4%nat eq_refl eq_refl eq_refl eq_refl
             ltac:(simpl; lia)).
Defined.

(** C4 as stated fails: on the tree  r -> a, b;  a -> a1,  [next] from the
    root visits r, a, a1, b, but [prev] from b goes to a and then to r; it
    never visits a1, so it does not retrace the sequence in reverse. *)
Lemma prev_skips_the_descendants_of_a_sibling :
  is_tree fork_nodes fork_edges fork /\
  preorder fork = [ "r"; "a"; "a1"; "b" ] /\
  itinerary fork_nodes fork_edges 4 next 3 "r" = [ "r"; "a"; "a1"; "b" ] /\
  focusTrail 4 next 3 (fork_canvas "r")
  = [ Some "r"; Some "a"; Some "a1"; Some "b" ] /\
  itinerary fork_nodes fork_edges 4 prev 3 "b" = [ "b"; "a"; "r" ] /\
  focusTrail 4 prev 3 (fork_canvas "b")
  = [ Some "b"; Some "a"; Some "r"; Some "r" ] /\
  (forall calls,
      itinerary fork_nodes fork_edges 4 prev calls "b" <> rev (preorder fork)) /\
  (forall clicks,
      focusTrail 4 prev clicks (fork_canvas "b")
      <> map Some (rev (preorder fork))).
Proof.
  split; [exact Tour.fork_is_tree|].
  split; [reflexivity|]. split; [reflexivity|]. split; [reflexivity|].
  split; [reflexivity|]. split; [reflexivity|]. split.
  - intros calls. destruct calls as [|[|[|calls]]]; vm_compute; discriminate.
  - intros clicks. destruct clicks as [|[|clicks]]; vm_compute; discriminate.
Qed.

(* ================================================================== *)
(** * Every reachable state holds well-formed graphs *)
(* ================================================================== *)

Module Invariant.

Lemma resolves_iff ns e :
  existsb (fun n => Node.id n =? Edge.target e) ns = mem (Edge.target e) (ids ns).
Proof.
  unfold mem, ids. induction ns as [|n ns IH]; simpl; [reflexivity|].
  now rewrite IH.
Qed.

Lemma targets_resolve_ids ns es :
  targets_resolve ns es = forallb (fun e => mem (Edge.target e) (ids ns)) es.
Proof.
  unfold targets_resolve. induction es as [|e es IH]; simpl; [reflexivity|].
  now rewrite resolves_iff, IH.
Qed.

Lemma targets_resolve_In ns es :
  targets_resolve ns es = true <->
  forall e, In e es -> In (Edge.target e) (ids ns).
Proof.
  rewrite targets_resolve_ids, forallb_forall. split; intros H e He.
  - now apply Deletion.mem_In, H.
  - now apply Deletion.mem_In, H.
Qed.

Lemma same_ids ns ns' es :
  ids ns' = ids ns -> sound_graph ns es -> sound_graph ns' es.
Proof.
  unfold sound_graph. rewrite !targets_resolve_ids. now intros ->.
Qed.

Lemma ids_map f ns :
  (forall n, Node.id (f n) = Node.id n) -> ids (map f ns) = ids ns.
Proof.
  intros H. unfold ids. rewrite map_map. apply map_ext. exact H.
Qed.

Lemma idOf_not_empty now type explicitId : idOf now type explicitId <> "".
Proof.
  unfold idOf. destruct (Js.present explicitId) as [e|] eqn:E.
  - now apply JsFacts.present_some in E.
  - unfold generatedId. destruct (Js.to_string type); discriminate.
Qed.

(** Adding a node, and possibly an edge that ends at it. *)
Lemma add_node ns es n :
  Node.id n <> "" -> sound_graph ns es -> sound_graph (ns ++ [n]) es.
Proof.
  intros Hid [Ht Hne]. split.
  - apply targets_resolve_In. intros e He. unfold ids. rewrite map_app.
    apply in_or_app. left. now apply (proj1 (targets_resolve_In ns es) Ht).
  - unfold ids. rewrite map_app. intros H. apply in_app_or in H.
    destruct H as [H|[H|[]]]; [now apply Hne|]. now apply Hid.
Qed.

Lemma add_edge ns es e :
  In (Edge.target e) (ids ns) -> sound_graph ns es -> sound_graph ns (es ++ [e]).
Proof.
  intros He [Ht Hne]. split; [|exact Hne].
  apply targets_resolve_In. intros x Hx. apply in_app_or in Hx.
  destruct Hx as [Hx|[<-|[]]]; [|exact He].
  now apply (proj1 (targets_resolve_In ns es) Ht).
Qed.

Lemma delete_nodes ns es doomed :
  sound_graph ns es ->
  sound_graph
    (filter (fun n => negb (mem (Node.id n) doomed)) ns)
    (filter (fun e => negb (mem (Edge.source e) doomed)
                      && negb (mem (Edge.target e) doomed)) es).
Proof.
  intros [Ht Hne]. split.
  - apply targets_resolve_In. intros e He. apply filter_In in He.
    destruct He as [He Hkeep]. apply andb_prop in Hkeep.
    destruct Hkeep as [_ Hkeep].
    pose proof (proj1 (targets_resolve_In ns es) Ht e He) as Hin.
    unfold ids in *. apply in_map_iff in Hin. destruct Hin as (n & E & Hn).
    apply in_map_iff. exists n. split; [exact E|].
    apply filter_In. split; [exact Hn|]. now rewrite E.
  - intros H. apply Hne. unfold ids in *. apply in_map_iff in H.
    destruct H as (n & E & Hn). apply filter_In in Hn.
    apply in_map_iff. exists n. tauto.
Qed.

Lemma Forall_slice_last {A : Type} (P : A -> Prop) n (l : list A) :
  Forall P l -> Forall P (slice_last n l).
Proof.
  intros H. unfold slice_last. rewrite Forall_forall in *.
  intros x Hx. apply H. revert Hx. generalize (List.length l - n)%nat.
  intros k. revert l H. induction k as [|k IH]; intros l H Hx; [exact Hx|].
  destruct l as [|a l]; [destruct Hx|]. simpl in Hx. right.
  apply (IH l); [|exact Hx]. intros y Hy. apply H. now right.
Qed.

Lemma Forall_removelast {A : Type} (P : A -> Prop) (l : list A) :
  Forall P l -> Forall P (removelast l).
Proof.
  induction l as [|a l IH]; intros H; [constructor|].
  inversion H; subst. simpl. destruct l; [constructor|].
  constructor; auto.
Qed.

Lemma Forall_last {A : Type} (P : A -> Prop) (l : list A) (d : A) :
  Forall P l -> l <> [] -> P (last l d).
Proof.
  induction l as [|a l IH]; intros H Hne; [contradiction|].
  inversion H; subst. simpl. destruct l; [assumption|].
  apply IH; [assumption|discriminate].
Qed.

Lemma Forall_remove_nth {A : Type} (P : A -> Prop) k (l : list A) :
  Forall P l -> Forall P (remove_nth k l).
Proof.
  revert k. induction l as [|a l IH]; intros k H; [destruct k; constructor|].
  inversion H; subst. destruct k; simpl; [assumption|].
  constructor; auto.
Qed.

(** [sound] looks at the canvas, the two stacks and the timers only. *)
Lemma sound_ext s s' :
  nodes s' = nodes s -> edges s' = edges s -> past s' = past s ->
  future s' = future s -> timers s' = timers s -> sound s -> sound s'.
Proof. unfold sound. now intros -> -> -> -> ->. Qed.

Lemma sound_same_ids f s :
  (forall n, Node.id (f n) = Node.id n) -> sound s -> sound (setNodes (map f) s).
Proof.
  intros Hf (Hg & Hp & Hfu & Ht). split; [|tauto].
  apply (same_ids (nodes s)); [now apply ids_map|exact Hg].
Qed.

Lemma sound_takeSnapshot r s :
  sound_render r -> sound s -> sound (takeSnapshot r s).
Proof.
  intros Hr (Hg & Hp & Hfu & Ht).
  split; [exact Hg|]. split; [|split; [constructor|exact Ht]].
  cbn. apply Forall_app. split; [now apply Forall_slice_last|].
  constructor; [exact Hr|constructor].
Qed.

Lemma sound_render_of s : sound s -> sound_render (render s).
Proof. now intros [H _]. Qed.

Lemma sound_addNodeGeneric r now type data position parentId explicitId s :
  sound_render r -> sound s ->
  sound (snd (addNodeGeneric r now type data position parentId explicitId s)).
Proof.
  intros Hr Hs. pose proof (sound_takeSnapshot r s Hr Hs) as H1.
  destruct Hs as (Hg & Hp & Hfu & Ht).
  split; [|split; [|split]].
  - rewrite Creation.adds_one_node, Creation.adds_edge_to_parent.
    assert (Hnode : sound_graph
              (nodes s ++ [ Node.mk (idOf now type explicitId) type
                              (match position with
                               | Some p => p
                               | None => placement r (pushHistory r s) parentId
                               end)
                              (newNodeData r type data) false ]) (edges s)).
    { apply add_node; [apply idOf_not_empty|exact Hg]. }
    destruct (Js.present parentId) as [pid|]; [|exact Hnode].
    apply add_edge; [|exact Hnode].
    unfold ids. rewrite map_app. apply in_or_app. right. now left.
  - rewrite Creation.pushes_render_snapshot.
    apply Forall_app. split; [now apply Forall_slice_last|].
    constructor; [exact Hr|constructor].
  - rewrite Creation.clears_future. constructor.
  - rewrite Creation.sets_focus_timer.
    apply Forall_app. split; [exact Ht|]. constructor; [exact I|constructor].
Qed.

Lemma sound_deleteElements doomed s : sound s -> sound (deleteElements doomed s).
Proof.
  intros (Hg & Hp & Hfu & Ht). split; [|tauto].
  apply (delete_nodes _ _ doomed Hg).
Qed.

Lemma sound_undo s : sound s -> sound (undo s).
Proof.
  intros Hs. unfold undo.
  destruct (List.length (past s) =? 0)%nat eqn:E; [exact Hs|].
  apply Nat.eqb_neq in E.
  destruct Hs as (Hg & Hp & Hfu & Ht).
  assert (Hne : past s <> []) by (intros H; rewrite H in E; now apply E).
  split; [|split; [|split]]; cbn.
  - apply (Forall_last sound_snapshot (past s) (current s) Hp Hne).
  - now apply Forall_removelast.
  - constructor; assumption.
  - exact Ht.
Qed.

Lemma sound_redo s : sound s -> sound (redo s).
Proof.
  intros Hs. unfold redo.
  destruct (List.length (future s) =? 0)%nat eqn:E; [exact Hs|].
  destruct Hs as (Hg & Hp & Hfu & Ht).
  destruct (future s) as [|h rest] eqn:F; [discriminate|].
  inversion Hfu as [|? ? Hh Hrest]; subst.
  split; [|split; [|split]]; cbn.
  - exact Hh.
  - apply Forall_app. split; [exact Hp|]. constructor; [exact Hg|constructor].
  - exact Hrest.
  - exact Ht.
Qed.

Lemma sound_handleNavigate fuel nodeId direction s s' :
  handleNavigate fuel nodeId direction s = Some s' -> sound s -> sound s'.
Proof.
  unfold handleNavigate.
  destruct (find _ (nodes s)); [|now intros [= <-]].
  destruct (navigationTarget _ _ _ _ _) as [targetId|]; [|discriminate].
  destruct (Js.present targetId) as [tid|]; [|now intros [= <-]].
  destruct (Js.truthy _); intros [= <-] Hs.
  - apply (sound_same_ids _ (setFocusedNodeId (Some tid) s)); [|exact Hs].
    intros n. destruct (Node.id n =? nodeId); [reflexivity|].
    destruct (Node.id n =? tid); reflexivity.
  - exact Hs.
Qed.

Lemma sound_connect params s :
  joinsNodes s params -> sound s -> sound (onConnect (render s) params s).
Proof.
  intros [_ (n & Hn & Htgt)] Hs.
  pose proof (sound_takeSnapshot (render s) s (sound_render_of s Hs) Hs) as H1.
  destruct H1 as (Hg & Hp & Hfu & Ht). split; [|tauto].
  unfold onConnect. cbn [nodes edges setEdges]. unfold addEdge.
  destruct (Js.present (conn_source params)) as [src|]; [|exact Hg].
  destruct (Js.present (conn_target params)) as [tgt|] eqn:E; [|exact Hg].
  destruct (existsb _ _); [exact Hg|].
  apply add_edge; [|exact Hg]. cbn [Edge.target].
  apply JsFacts.present_some in E. destruct E as [E _].
  rewrite Htgt in E. injection E as <-. unfold ids. now apply in_map.
Qed.

Lemma sound_fire r course now s :
  sound_render r -> sound s -> sound (addCurriculumNode r now course s).
Proof. intros Hr Hs. now apply sound_addNodeGeneric. Qed.

Lemma sound_fireTimer k now s : sound s -> sound (fireTimer k now s).
Proof.
  intros Hs. unfold fireTimer.
  destruct (nth_error (timers s) k) as [[delay timer]|] eqn:E; [|exact Hs].
  assert (Hrest : sound (setTimers (remove_nth k (timers s)) s)).
  { destruct Hs as (Hg & Hp & Hfu & Ht).
    split; [exact Hg|]. split; [exact Hp|]. split; [exact Hfu|].
    now apply Forall_remove_nth. }
  destruct timer as [id|r course]; [exact Hrest|].
  apply sound_fire; [|exact Hrest].
  destruct Hs as (_ & _ & _ & Ht). rewrite Forall_forall in Ht.
  apply (Ht (delay, CurriculumTimer r course)). now apply nth_error_In in E.
Qed.

Lemma reachable_sound s : reachable s -> sound s.
Proof.
  induction 1 as
    [ | s stored _ IH | s _ IH | s _ IH | s _ IH
      | s fuel nodeId direction s' _ IH Hnav | s _ IH | s selected _ IH
      | s _ IH | s id p _ IH | s params _ IH Hjoin | s _ IH
      | s now flowCenter _ IH | s now _ IH
      | s now type sourceNodeId position _ IH
      | s0 s env now_module now_node prompt sourceNodeId targetPosition _ IH0 _ IH
      | s0 s now_id now_created now_node topic hasAttachments generated _ IH0 _ IH
      | s0 s session _ IH0 _ IH
      | s0 s now mod_ parentId topic _ IH0 _ IH
      | s0 s now sourceId action payload _ IH0 _ IH
      | s k now _ IH | s nodeId _ IH | s id _ IH | s id updates _ IH ].
  - split; [|split; [|split]]; try constructor; [reflexivity|].
    simpl. intuition discriminate.
  - exact IH.
  - apply sound_same_ids; [|exact IH].
    intros n. now destruct (Js.is_str "start" (Node.type n)).
  - now apply sound_undo.
  - now apply sound_redo.
  - now apply (sound_handleNavigate fuel nodeId direction s).
  - now apply sound_same_ids.
  - unfold selectNodes.
    pose proof (sound_same_ids
                  (fun n => Node.mk (Node.id n) (Node.type n) (Node.position n)
                              (Node.data n) (mem (Node.id n) selected))
                  s (fun n => eq_refl) IH) as H1.
    destruct (filter _ _); exact H1.
  - apply sound_takeSnapshot; [now apply sound_render_of|exact IH].
  - apply sound_same_ids; [|exact IH].
    intros n. now destruct (Node.id n =? id).
  - now apply sound_connect.
  - unfold handleDeleteSelected.
    pose proof (sound_takeSnapshot _ s (sound_render_of s IH) IH) as H1.
    destruct (0 <? _)%nat; [now apply sound_deleteElements|exact H1].
  - unfold toggleLiveNode.
    pose proof (sound_takeSnapshot _ s (sound_render_of s IH) IH) as H1.
    destruct (0 <? _)%nat; [now apply sound_deleteElements|].
    apply sound_addNodeGeneric; [now apply sound_render_of|exact H1].
  - apply sound_addNodeGeneric; [now apply sound_render_of|exact IH].
  - unfold handleMenuSelect.
    destruct (Js.present sourceNodeId) as [src|]; [|exact IH].
    match goal with
    | |- sound (setMenuVisible false ?x) =>
        apply (sound_ext x); try reflexivity
    end.
    apply sound_addNodeGeneric; [now apply sound_render_of|exact IH].
  - unfold handleCommandSubmit. destruct (Js.blank prompt); [exact IH|].
    destruct (commandDirective _ _ _ _ _ _) as [[[cmd_type finalData] parent]|e].
    + destruct (Js.template cmd_type).
      * apply (sound_ext (snd (addNodeGeneric (render s0) now_node cmd_type
                                 finalData targetPosition parent None
                                 (setIsProcessingCommand true s))));
          try reflexivity.
        apply sound_addNodeGeneric; [now apply sound_render_of|exact IH].
      * apply (sound_ext (takeSnapshot (render s0) s)); try reflexivity.
        apply sound_takeSnapshot; [now apply sound_render_of|exact IH].
    + exact IH.
  - unfold handleStart.
    pose proof (sound_takeSnapshot _ s (sound_render_of s0 IH0) IH) as H1.
    destruct generated as [course|]; [|exact H1].
    apply sound_fire; [now apply sound_render_of|exact H1].
  - pose proof (sound_takeSnapshot _ s (sound_render_of s0 IH0) IH) as H1.
    destruct H1 as (Hg & Hp & Hfu & Ht).
    unfold handleResume. split; [|split; [|split]]; cbn.
    + split; [reflexivity|]. simpl. intuition discriminate.
    + exact Hp.
    + exact Hfu.
    + apply Forall_app. split; [exact Ht|].
      constructor; [now apply sound_render_of|constructor].
  - apply sound_addNodeGeneric; [now apply sound_render_of|exact IH].
  - unfold handleNodeAction. destruct (getNode s sourceId); [|exact IH].
    destruct (action =? "SLIDES");
      [apply sound_addNodeGeneric; [now apply sound_render_of|exact IH]|].
    destruct (action =? "CODE");
      [apply sound_addNodeGeneric; [now apply sound_render_of|exact IH]|].
    exact IH.
  - now apply sound_fireTimer.
  - now apply sound_deleteElements.
  - apply sound_same_ids; [|exact IH].
    intros n. now destruct (Node.id n =? id).
  - apply sound_same_ids; [|exact IH].
    intros n. now destruct (Node.id n =? id).
Qed.

End Invariant.

(* ================================================================== *)
(** * The live tutor button *)
(* ================================================================== *)

Module Live.

Lemma slice_last_snoc {A : Type} (n : nat) (l : list A) (x : A) :
  slice_last (S n) (l ++ [x]) = slice_last n l ++ [x].
Proof.
  unfold slice_last. rewrite length_app. simpl List.length.
  rewrite skipn_app.
  replace (List.length l + 1 - S n)%nat with (List.length l - n)%nat by lia.
  replace (List.length l - n - List.length l)%nat with 0%nat by lia.
  reflexivity.
Qed.

Lemma not_live_id s n :
  negb (mem (Node.id n) (map Node.id (liveNodes s))) = true <->
  ~ In (Node.id n) (ids (liveNodes s)).
Proof. apply Deletion.not_mem. Qed.

Lemma no_live_left s :
  filter (fun n => Js.is_str "live" (Node.type n))
    (filter (fun n => negb (mem (Node.id n) (map Node.id (liveNodes s))))
       (nodes s)) = [].
Proof.
  apply Lists.filter_nil. intros n Hn. apply filter_In in Hn.
  destruct Hn as [Hn Hno]. apply not_live_id in Hno.
  destruct (Js.is_str "live" (Node.type n)) eqn:E; [|reflexivity].
  exfalso. apply Hno. unfold ids. apply in_map. apply filter_In. tauto.
Qed.

End Live.

(** X1: the live tutor button is a switch.  When the canvas holds live
    nodes, [toggleLiveNode] removes them (and every node that bears the id
    of one of them) together with the edges that touch them, and adds
    nothing; when it holds none, [toggleLiveNode] adds exactly one live
    node, at the centre of the window less (170, 225), with no edge. *)
Theorem toggleLiveNode_is_a_switch :
  forall (r : Render) (now : Z) (flowCenter : Position.t) (s : State),
    let s' := toggleLiveNode r now flowCenter s in
    (liveNodes s <> [] ->
     liveNodes s' = [] /\
     (forall n, In n (nodes s') <->
                In n (nodes s) /\ ~ In (Node.id n) (ids (liveNodes s))) /\
     (forall e, In e (edges s') <->
                In e (edges s) /\
                ~ In (Edge.source e) (ids (liveNodes s)) /\
                ~ In (Edge.target e) (ids (liveNodes s)))) /\
    (liveNodes s = [] ->
     nodes s'
     = nodes s ++
       [ Node.mk ("live-" ++ Js.dec now) (Js.Str "live")
           (Position.mk (Position.x flowCenter - 170)
                        (Position.y flowCenter - 225))
           [ ("isFullScreen", Js.Bool false) ] false ] /\
     edges s' = edges s /\
     List.length (liveNodes s') = 1%nat).
Proof.
  intros r now flowCenter s s'. subst s'. unfold toggleLiveNode.
  change (nodes (pushHistory r s)) with (nodes s).
  fold (liveNodes s). split.
  - intros Hlive.
    destruct (liveNodes s) as [|l0 ls] eqn:E; [contradiction|].
    cbn [List.length Nat.ltb Nat.leb]. rewrite <- E.
    split; [|split].
    + unfold liveNodes at 1.
      cbn [deleteElements nodes setEdges setNodes pushHistory takeSnapshot
           setFuture setPast].
      apply Live.no_live_left.
    + intros n.
      cbn [deleteElements nodes setEdges setNodes pushHistory takeSnapshot
           setFuture setPast].
      rewrite filter_In. now rewrite Live.not_live_id.
    + intros e.
      cbn [deleteElements edges setEdges setNodes pushHistory takeSnapshot
           setFuture setPast].
      rewrite filter_In, andb_true_iff, !Deletion.not_mem. reflexivity.
  - intros Hnone. rewrite Hnone. cbn [List.length Nat.ltb Nat.leb].
    split; [|split].
    + rewrite Creation.adds_one_node. reflexivity.
    + rewrite Creation.adds_edge_to_parent. reflexivity.
    + unfold liveNodes at 1. rewrite Creation.adds_one_node.
      change (nodes (pushHistory r s)) with (nodes s).
      rewrite filter_app. fold (liveNodes s). rewrite Hnone. reflexivity.
Qed.

(** X2: adding the live tutor takes two snapshots of the same canvas, one
    in [toggleLiveNode] and one in [addNodeGeneric].  The first [undo]
    removes the new node; the second [undo] leaves the canvas as it is. *)
Theorem live_tutor_takes_two_snapshots :
  forall (now : Z) (flowCenter : Position.t) (s : State),
    liveNodes s = [] ->
    let s' := toggleLiveNode (render s) now flowCenter s in
    (exists older, past s' = older ++ [ current s; current s ]) /\
    nodes (undo s') = nodes s /\ edges (undo s') = edges s /\
    nodes (undo (undo s')) = nodes s /\ edges (undo (undo s')) = edges s.
Proof.
  intros now flowCenter s Hnone s'.
  assert (Hpast : past s'
                  = (slice_last 8 (slice_last 9 (past s)) ++ [ current s ])
                    ++ [ current s ]).
  { subst s'. unfold toggleLiveNode.
    change (nodes (pushHistory (render s) s)) with (nodes s).
    fold (liveNodes s). rewrite Hnone. cbn [List.length Nat.ltb Nat.leb].
    rewrite Creation.pushes_render_snapshot.
    change (past (pushHistory (render s) s))
      with (slice_last 9 (past s) ++ [ current s ]).
    now rewrite Live.slice_last_snoc. }
  split.
  { exists (slice_last 8 (slice_last 9 (past s))).
    rewrite Hpast, <- app_assoc. reflexivity. }
  destruct (History.undo_pops s' _ _ Hpast) as (Hn & He & Hp & _).
  destruct (History.undo_pops (undo s') _ _ Hp) as (Hn' & He' & _ & _).
  repeat split; assumption.
Qed.

Lemma live_tutor_takes_two_snapshots_witness :
  liveNodes initialState = [] /\
  nodes (undo (undo (toggleLiveNode (render initialState) 1700000000000
                       (Position.mk 800 450) initialState)))
  = nodes initialState.
Proof.
  split; [reflexivity|].
  exact (proj1 (proj2 (proj2 (proj2
           (live_tutor_takes_two_snapshots 1700000000000 (Position.mk 800 450)
              initialState eq_refl))))).
Defined.

(* ================================================================== *)
(** * Full screen and navigation *)
(* ================================================================== *)

Module FullScreen.

Lemma set_flag b n : inFullScreen (setFullScreen b n) = b.
Proof.
  unfold inFullScreen, setFullScreen. cbn [Node.data].
  rewrite JsFacts.get_set_same. destruct b; reflexivity.
Qed.

Lemma set_id b n : Node.id (setFullScreen b n) = Node.id n.
Proof. reflexivity. Qed.

Lemma hand_over_id nodeId tid n : Node.id (handOver nodeId tid n) = Node.id n.
Proof.
  unfold handOver. destruct (Node.id n =? nodeId); [reflexivity|].
  destruct (Node.id n =? tid); reflexivity.
Qed.

Lemma closed_everywhere s n :
  In n (nodes (closeHandler s)) -> inFullScreen n = false.
Proof.
  unfold closeHandler. cbn [nodes setNodes]. rewrite in_map_iff.
  intros (m & <- & _). apply set_flag.
Qed.

End FullScreen.

(** X3: full screen follows the navigation.  When [handleNavigate] finds a
    target other than the current node, it focuses the target and keeps
    the ids of the nodes and the edges; if the current node was shown in
    full screen, the target is now in full screen, the current node no
    longer is, and the other nodes are as they were; if it was not, no
    node changes. *)
Theorem full_screen_follows_navigation :
  forall (fuel : nat) (nodeId : string) (direction : Direction) (s : State)
         (currentNode : Node.t) (tid : string),
    find (fun n => Node.id n =? nodeId) (nodes s) = Some currentNode ->
    navigationTarget (nodes s) (edges s) fuel nodeId direction = Some (Some tid) ->
    tid <> "" ->
    tid <> nodeId ->
    exists s',
      handleNavigate fuel nodeId direction s = Some s' /\
      focusedNodeId s' = Some tid /\
      ids (nodes s') = ids (nodes s) /\
      edges s' = edges s /\
      (inFullScreen currentNode = false -> nodes s' = nodes s) /\
      (inFullScreen currentNode = true ->
       forall n, In n (nodes s') ->
         (Node.id n = tid -> inFullScreen n = true) /\
         (Node.id n = nodeId -> inFullScreen n = false) /\
         (Node.id n <> tid -> Node.id n <> nodeId -> In n (nodes s))).
Proof.
  intros fuel nodeId direction s currentNode tid Hfind Htarget Hne Hother.
  unfold handleNavigate. rewrite Hfind, Htarget.
  rewrite (Placement.present_id tid Hne).
  fold (inFullScreen currentNode).
  destruct (inFullScreen currentNode) eqn:Efs.
  - eexists. split; [reflexivity|].
    cbn [focusedNodeId nodes edges setNodes setFocusedNodeId].
    split; [reflexivity|].
    split; [apply Invariant.ids_map; intros n;
            apply (FullScreen.hand_over_id nodeId tid n)|].
    split; [reflexivity|]. split; [discriminate|].
    intros _ n Hn. apply in_map_iff in Hn. destruct Hn as (m & <- & Hm).
    destruct (Node.id m =? nodeId) eqn:E1.
    + apply String.eqb_eq in E1. rewrite FullScreen.set_id.
      split; [intros E; congruence|].
      split; [intros _; apply FullScreen.set_flag|]. intros _ E. contradiction.
    + apply String.eqb_neq in E1.
      destruct (Node.id m =? tid) eqn:E2.
      * apply String.eqb_eq in E2. rewrite FullScreen.set_id.
        split; [intros _; apply FullScreen.set_flag|].
        split; [intros E; contradiction|]. intros E. contradiction.
      * apply String.eqb_neq in E2.
        split; [intros E; contradiction|].
        split; [intros E; contradiction|]. intros _ _. exact Hm.
  - eexists. split; [reflexivity|].
    cbn [focusedNodeId nodes edges setNodes setFocusedNodeId].
    split; [reflexivity|]. split; [reflexivity|]. split; [reflexivity|].
    split; [reflexivity|]. discriminate.
Qed.

Lemma full_screen_follows_navigation_witness :
  let s := toggleFullScreen "a" (fork_canvas "a") in
  exists s',
    handleNavigate 4 "a" next s = Some s' /\
    focusedNodeId s' = Some "a1" /\
    map (fun n => (Node.id n, inFullScreen n)) (nodes s')
    = [ ("r", false); ("a", false); ("b", false); ("a1", true) ].
Proof.
  cbv zeta.
  destruct (full_screen_follows_navigation 4 "a" next
              (toggleFullScreen "a" (fork_canvas "a"))
              (setFullScreen true (plain "a" 0)) "a1"
              eq_refl eq_refl ltac:(discriminate) ltac:(discriminate))
    as (s' & Hnav & Hfocus & _).
  exists s'. split; [exact Hnav|]. split; [exact Hfocus|].
  injection Hnav as <-. reflexivity.
Defined.

(* ================================================================== *)
(** * Resuming a session *)
(* ================================================================== *)

Module Resume.

Lemma nth_error_last {A : Type} (l : list A) (x : A) :
  nth_error (l ++ [x]) (List.length l) = Some x.
Proof. rewrite nth_error_app2 by lia. now rewrite Nat.sub_diag. Qed.

Lemma remove_nth_last {A : Type} (l : list A) (x : A) :
  remove_nth (List.length l) (l ++ [x]) = l.
Proof. induction l as [|a l IH]; simpl; [reflexivity|]. now rewrite IH. Qed.

End Resume.

(** X4: resuming a session rebuilds the canvas.  [handleResume] replaces
    the canvas by a lone start node and leaves the curriculum to a timer;
    once that timer has fired the canvas holds the start node, the
    curriculum node of the session's course at (600, 0) and the edge
    between them, whatever it held before.  Both steps take a snapshot of
    the canvas of the render whose handler ran, so [undo] brings that
    canvas back.  The focus is not moved. *)
Theorem resume_rebuilds_the_canvas :
  forall (r : Render) (session : Session) (now : Z) (s : State),
    let resumed := handleResume r session s in
    let s' := fireTimer (List.length (timers s)) now resumed in
    let start := Node.mk "start" (Js.Str "start") (Position.mk 0 0)
                   [ ("history", Js.Arr (map session_value (r_sessions r))) ]
                   false in
    let curriculum :=
      Node.mk ("curriculum-" ++ Js.dec now) (Js.Str "curriculum")
        (Position.mk 600 0)
        [ ("course", course_value (session_course session));
          ("isFullScreen", Js.Bool false) ] false in
    nodes resumed = [ start ] /\ edges resumed = [] /\
    nodes s' = [ start; curriculum ] /\
    edges s' = [ newEdge "start" ("curriculum-" ++ Js.dec now) ] /\
    focusedNodeId s' = focusedNodeId s /\
    nodes (undo s') = r_nodes r /\ edges (undo s') = r_edges r.
Proof.
  intros r session now s resumed s' start curriculum.
  split; [reflexivity|]. split; [reflexivity|].
  assert (Hs' : s' = addCurriculumNode r now (session_course session)
                       (setTimers (timers s) resumed)).
  { subst s' resumed. unfold fireTimer, handleResume.
    cbn [timers setTimeout setEdges setNodes].
    change (timers (pushHistory r s)) with (timers s).
    rewrite Resume.nth_error_last, Resume.remove_nth_last. reflexivity. }
  rewrite Hs'. unfold addCurriculumNode.
  split; [rewrite Creation.adds_one_node; reflexivity|].
  split; [rewrite Creation.adds_edge_to_parent; reflexivity|].
  split; [rewrite Creation.keeps_focus; reflexivity|].
  pose proof (Creation.pushes_render_snapshot r now (Js.Str "curriculum")
                [ ("course", course_value (session_course session)) ]
                (Some (Position.mk 600 0)) (Some "start")
                (Some ("curriculum-" ++ Js.dec now)%string)
                (setTimers (timers s) resumed)) as Hpast.
  destruct (History.undo_pops _ _ _ Hpast) as (Hn & He & _ & _).
  split; [exact Hn|exact He].
Qed.

(* ================================================================== *)
(** * Starting a course *)
(* ================================================================== *)

(** X5: a failed course generation.  [handleStart] takes its snapshot
    before the course is generated, so when the generation throws the user
    is told, the canvas, the sessions and the timers are untouched, and
    yet a snapshot has been pushed and [future] emptied: after an [undo],
    a failed generation leaves nothing to [redo]. *)
Theorem failed_generation_still_takes_a_snapshot :
  forall (r : Render) (now_id now_created now_node : Z) (topic : string)
         (hasAttachments : bool) (s : State),
    let s' := handleStart r now_id now_created now_node topic hasAttachments
                None s in
    nodes s' = nodes s /\ edges s' = edges s /\
    sessions s' = sessions s /\ timers s' = timers s /\
    focusedNodeId s' = focusedNodeId s /\
    alerts s' = alerts s ++ [ "Failed to generate course. Please try again." ] /\
    past s' = slice_last 9 (past s) ++ [ snapshot_of r ] /\
    future s' = [] /\
    redo s' = s'.
Proof.
  intros. repeat split.
Qed.

Module Start.

Lemma effectiveTopic_not_empty topic hasAttachments :
  effectiveTopic topic hasAttachments <> "".
Proof.
  unfold effectiveTopic. destruct (topic =? "") eqn:E.
  - destruct hasAttachments; discriminate.
  - now apply String.eqb_neq.
Qed.

Lemma effectiveTopic_given topic hasAttachments :
  topic <> "" -> effectiveTopic topic hasAttachments = topic.
Proof.
  intros H. unfold effectiveTopic. apply String.eqb_neq in H. now rewrite H.
Qed.

Lemma refreshed_history s n :
  In n (nodes (refreshStartNodes s)) ->
  Js.is_str "start" (Node.type n) = true ->
  shownHistory n = Js.Arr (map session_value (sessions s)).
Proof.
  unfold refreshStartNodes. cbn [nodes setNodes]. rewrite in_map_iff.
  intros (m & <- & _).
  destruct (Js.is_str "start" (Node.type m)) eqn:E.
  - intros _. unfold shownHistory. cbn [Node.data].
    apply JsFacts.get_set_same.
  - intros H. congruence.
Qed.

End Start.

(** X6: a generated course is saved and shown.  On success [handleStart]
    puts a new session in front of the sessions of its render, under a
    topic that is never empty (the given one, else "Uploaded Materials"
    with attachments, else "General Study"); it adds the curriculum node
    at (600, 0) with an edge from the start node; once the effect on
    [sessions] has run, every start node shows the new list.  The handler
    pushes two snapshots of the canvas of its render. *)
Theorem generated_course_is_saved_and_shown :
  forall (r : Render) (now_id now_created now_node : Z) (topic : string)
         (hasAttachments : bool) (course : Course) (s : State),
    let s' := handleStart r now_id now_created now_node topic hasAttachments
                (Some course) s in
    (exists saved,
        sessions s' = saved :: r_sessions r /\
        session_topic saved <> "" /\
        (topic <> "" -> session_topic saved = topic) /\
        session_id saved = Js.dec now_id /\
        session_createdAt saved = now_created /\
        session_course saved = course) /\
    nodes s'
    = nodes s ++
      [ Node.mk ("curriculum-" ++ Js.dec now_node) (Js.Str "curriculum")
          (Position.mk 600 0)
          [ ("course", course_value course); ("isFullScreen", Js.Bool false) ]
          false ] /\
    edges s' = edges s ++ [ newEdge "start" ("curriculum-" ++ Js.dec now_node) ] /\
    (forall n, In n (nodes (refreshStartNodes s')) ->
               Js.is_str "start" (Node.type n) = true ->
               shownHistory n = Js.Arr (map session_value (sessions s'))) /\
    (exists older, past s' = older ++ [ snapshot_of r; snapshot_of r ]).
Proof.
  intros r now_id now_created now_node topic hasAttachments course s s'.
  subst s'. unfold handleStart, addCurriculumNode.
  fold (effectiveTopic topic hasAttachments).
  split; [|split; [|split; [|split]]].
  - rewrite Creation.keeps_sessions. eexists. split; [reflexivity|].
    cbn [session_topic session_id session_createdAt session_course].
    split; [apply Start.effectiveTopic_not_empty|].
    split; [apply Start.effectiveTopic_given|]. repeat split.
  - rewrite Creation.adds_one_node. reflexivity.
  - rewrite Creation.adds_edge_to_parent. reflexivity.
  - apply Start.refreshed_history.
  - rewrite Creation.pushes_render_snapshot.
    exists (slice_last 8 (slice_last 9 (past s))).
    change (past (saveSession r now_id now_created
                    (effectiveTopic topic hasAttachments) course
                    (pushHistory r s)))
      with (slice_last 9 (past s) ++ [ snapshot_of r ]).
    rewrite Live.slice_last_snoc, <- app_assoc. reflexivity.
Qed.

(* ================================================================== *)
(** * The connector menu *)
(* ================================================================== *)



(* ================================================================== *)
(** * The data of a commanded node *)
(* ================================================================== *)

Module Defaults.

Lemma truthy_gen now : Js.truthy (Js.Str ("gen-" ++ Js.dec now)) = true.
Proof. reflexivity. Qed.

Lemma final_topic now contextData cmd_type cmd_data :
  Js.truthy (Js.get "topic" (finalDataOf now contextData cmd_type cmd_data)) = true.
Proof.
  unfold finalDataOf.
  set (d0 := Js.spread contextData cmd_data).
  set (d1 := if Js.truthy (Js.get "topic" d0) then d0
             else Js.set "topic" (Js.Str "General Study") d0).
  assert (H1 : Js.truthy (Js.get "topic" d1) = true).
  { subst d1. destruct (Js.truthy (Js.get "topic" d0)) eqn:E; [exact E|].
    now rewrite JsFacts.get_set_same. }
  destruct (Js.is_str "study" cmd_type); [|exact H1].
  destruct (Js.truthy (Js.get "moduleTitle" d1));
    destruct (Js.truthy (Js.get "moduleId" _));
    repeat (rewrite JsFacts.get_set_other by discriminate); exact H1.
Qed.

Lemma final_module now contextData cmd_type cmd_data :
  Js.is_str "study" cmd_type = true ->
  let d := finalDataOf now contextData cmd_type cmd_data in
  Js.truthy (Js.get "moduleTitle" d) = true /\
  Js.truthy (Js.get "moduleId" d) = true.
Proof.
  intros Hstudy. unfold finalDataOf. rewrite Hstudy.
  set (d0 := Js.spread contextData cmd_data).
  set (d1 := if Js.truthy (Js.get "topic" d0) then d0
             else Js.set "topic" (Js.Str "General Study") d0).
  assert (H1 : Js.truthy (Js.get "topic" d1) = true).
  { subst d1. destruct (Js.truthy (Js.get "topic" d0)) eqn:E; [exact E|].
    now rewrite JsFacts.get_set_same. }
  set (d2 := if Js.truthy (Js.get "moduleTitle" d1) then d1
             else Js.set "moduleTitle" (Js.get "topic" d1) d1).
  assert (H2 : Js.truthy (Js.get "moduleTitle" d2) = true).
  { subst d2. destruct (Js.truthy (Js.get "moduleTitle" d1)) eqn:E; [exact E|].
    now rewrite JsFacts.get_set_same. }
  cbv zeta.
  destruct (Js.truthy (Js.get "moduleId" d2)) eqn:E3.
  - split; [exact H2|exact E3].
  - rewrite JsFacts.get_set_same.
    rewrite JsFacts.get_set_other by discriminate.
    split; [exact H2|apply truthy_gen].
Qed.

Lemma kept_by_newNodeData r type d k :
  k <> "isFullScreen" -> k <> "history" ->
  Js.get k (newNodeData r type d) = Js.get k d.
Proof.
  intros H1 H2. unfold newNodeData.
  destruct (Js.is_str "start" type).
  - rewrite JsFacts.get_set_other by congruence.
    apply JsFacts.get_set_other. congruence.
  - apply JsFacts.get_set_other. congruence.
Qed.

End Defaults.

(** X8: the data of a commanded node.  For a prompt that is not blank,
    [handleCommandSubmit] either shows its notice and adds nothing, or adds
    exactly one node, with an edge from its parent when it has one and no
    edge otherwise; that node always has a truthy [topic], and when its
    kind is [study] it also has a truthy [moduleTitle] and [moduleId],
    whatever the model has answered. *)
Theorem commanded_node_has_its_defaults :
  forall (r : Render) (env : Gemini.Env) (now_module now_node : Z)
         (prompt : string) (sourceNodeId : option string)
         (targetPosition : option Position.t) (s : State),
    let s' := handleCommandSubmit r env now_module now_node prompt sourceNodeId
                targetPosition s in
    Js.blank prompt = false ->
    (nodes s' = nodes s /\ notice_shown s s') \/
    (exists n,
        nodes s' = nodes s ++ [n] /\ alerts s' = alerts s /\
        edges s'
        = match Js.present (commandParent r sourceNodeId) with
          | Some parent => edges s ++ [ newEdge parent (Node.id n) ]
          | None => edges s
          end /\
        Js.truthy (Js.get "topic" (Node.data n)) = true /\
        (Js.is_str "study" (Node.type n) = true ->
         Js.truthy (Js.get "moduleTitle" (Node.data n)) = true /\
         Js.truthy (Js.get "moduleId" (Node.data n)) = true)).
Proof.
  intros r env now_module now_node prompt sourceNodeId targetPosition s s' Hblank.
  subst s'. unfold handleCommandSubmit. rewrite Hblank.
  unfold commandDirective.
  destruct (Gemini.interpretAgentCommand env prompt _) as [cmd|e];
    [|left; split; reflexivity].
  cbn [bind].
  destruct (Js.member cmd "data") as [cmd_data|];
    [|left; split; reflexivity].
  destruct (Js.member cmd "type") as [cmd_type|];
    [|left; split; reflexivity].
  destruct (Js.template cmd_type); [|left; split; reflexivity].
  right.
  cbn [nodes edges alerts setMenuVisible setIsProcessingCommand setCommandInput].
  rewrite Creation.adds_one_node, Creation.keeps_alerts,
    Creation.adds_edge_to_parent.
  eexists. split; [reflexivity|]. split; [reflexivity|].
  split.
  { cbn [Node.id].
    destruct (Js.present (commandParent r sourceNodeId)) as [p|] eqn:Ep.
    - destruct (JsFacts.present_some _ _ Ep) as [_ Hp].
      cbn [Js.present]. apply String.eqb_neq in Hp. rewrite Hp. reflexivity.
    - reflexivity. }
  cbn [Node.data Node.type].
  rewrite !Defaults.kept_by_newNodeData by discriminate.
  split; [apply Defaults.final_topic|].
  intros Hstudy. now apply Defaults.final_module.
Qed.

Lemma commanded_node_has_its_defaults_witness :
  Js.blank "quiz me" = false /\
  exists n,
    nodes (handleCommandSubmit (render initialState) env_down 1 2 "quiz me"
             None None initialState)
    = nodes initialState ++ [n] /\
    Js.truthy (Js.get "topic" (Node.data n)) = true.
Proof.
  split; [reflexivity|].
  destruct (commanded_node_has_its_defaults (render initialState) env_down 1 2
              "quiz me" None None initialState eq_refl)
    as [[H _]|(n & Hn & _ & _ & Htopic & _)].
  - vm_compute in H. discriminate H.
  - exists n. split; [exact Hn|exact Htopic].
Defined.

(* ================================================================== *)
(** * Edges always end at a node *)
(* ================================================================== *)

(** X10: in every state the controller reaches, every edge of the canvas
    ends at a node of the canvas and no node has the empty id; the same
    holds of every snapshot kept in [past] and [future], so [undo] and
    [redo] cannot bring back an edge whose target is missing. *)
Theorem edges_always_end_at_a_node :
  forall s : State,
    reachable s ->
    (forall e, In e (edges s) ->
               exists n, In n (nodes s) /\ Node.id n = Edge.target e) /\
    ~ In "" (ids (nodes s)) /\
    (forall h e, In h (past s ++ future s) -> In e (snap_edges h) ->
                 exists n, In n (snap_nodes h) /\ Node.id n = Edge.target e).
Proof.
  intros s Hs.
  destruct (Invariant.reachable_sound s Hs) as ((Ht & Hne) & Hp & Hf & _).
  split; [|split; [exact Hne|]].
  - intros e He.
    pose proof (proj1 (Invariant.targets_resolve_In _ _) Ht e He) as Hin.
    unfold ids in Hin. apply in_map_iff in Hin.
    destruct Hin as (n & E & Hn). now exists n.
  - intros h e Hh He.
    assert (Hsound : sound_snapshot h).
    { apply in_app_or in Hh. rewrite Forall_forall in Hp, Hf.
      destruct Hh as [Hh|Hh]; [now apply Hp|now apply Hf]. }
    destruct Hsound as [Ht' _].
    pose proof (proj1 (Invariant.targets_resolve_In _ _) Ht' e He) as Hin.
    unfold ids in Hin. apply in_map_iff in Hin.
    destruct Hin as (n & E & Hn). now exists n.
Qed.

Lemma edges_always_end_at_a_node_witness :
  reachable first_closed /\
  forall e, In e (edges first_closed) ->
            exists n, In n (nodes first_closed) /\ Node.id n = Edge.target e.
Proof.
  assert (H : reachable first_closed).
  { unfold first_closed, second_code_node, one_code_node.
    apply reach_close_node.
    apply reach_toolbar_code. apply reach_toolbar_code. apply reach_initial. }
  split; [exact H|].
  exact (proj1 (edges_always_end_at_a_node first_closed H)).
Defined.

(* ================================================================== *)
(** * The keyboard *)
(* ================================================================== *)

(** X11: the keyboard.  While the user types in an input, no key changes
    the state.  Otherwise Escape takes every node out of full screen and
    changes nothing else of the graph or its history; Backspace and Delete
    run [handleDeleteSelected], which with nothing selected leaves the
    canvas as it is and yet pushes a snapshot and empties [future]; any
    other key does nothing. *)
Theorem keyboard_shortcuts :
  forall (r : Render) (key : string) (s : State),
    keyHandler r true key s = s /\
    (key = "Escape" ->
     let s' := keyHandler r false key s in
     (forall n, In n (nodes s') -> inFullScreen n = false) /\
     ids (nodes s') = ids (nodes s) /\
     map Node.position (nodes s') = map Node.position (nodes s) /\
     edges s' = edges s /\ past s' = past s /\ future s' = future s) /\
    (key = "Backspace" \/ key = "Delete" ->
     keyHandler r false key s = handleDeleteSelected r s /\
     (filter Node.selected (nodes s) = [] ->
      let s' := keyHandler r false key s in
      nodes s' = nodes s /\ edges s' = edges s /\
      past s' = slice_last 9 (past s) ++ [ snapshot_of r ] /\
      future s' = [])) /\
    (key <> "Escape" -> key <> "Backspace" -> key <> "Delete" ->
     keyHandler r false key s = s).
Proof.
  intros r key s. split; [reflexivity|]. split; [|split].
  - intros ->. cbv zeta. unfold keyHandler.
    cbn [String.eqb Ascii.eqb Bool.eqb orb andb].
    split; [apply FullScreen.closed_everywhere|].
    unfold closeHandler. cbn [nodes edges past future setNodes].
    split; [apply Invariant.ids_map; reflexivity|].
    split; [|repeat split].
    rewrite map_map. apply map_ext. reflexivity.
  - intros Hkey.
    assert (E : keyHandler r false key s = handleDeleteSelected r s).
    { destruct Hkey as [-> | ->]; reflexivity. }
    split; [exact E|]. intros Hnone. cbv zeta. rewrite E.
    unfold handleDeleteSelected.
    change (nodes (pushHistory r s)) with (nodes s). rewrite Hnone.
    repeat split.
  - intros H1 H2 H3. unfold keyHandler.
    apply String.eqb_neq in H1, H2, H3. now rewrite H1, H2, H3.
Qed.

(* ================================================================== *)
(** * services/geminiService.ts: parsing the model's replies *)
(* ================================================================== *)

Module DynFacts.

Lemma dyn_get_set_same k v o : Dyn.get k (Dyn.set k v o) = v.
Proof.
  induction o as [|[k' v'] o IH]; simpl.
  - now rewrite String.eqb_refl.
  - destruct (k' =? k) eqn:E; simpl.
    + now rewrite String.eqb_refl.
    + now rewrite E.
Qed.

Lemma dyn_get_set_other k k' v o :
  k' <> k -> Dyn.get k (Dyn.set k' v o) = Dyn.get k o.
Proof.
  intros Hne. induction o as [|[k0 v0] o IH]; simpl.
  - apply String.eqb_neq in Hne. now rewrite Hne.
  - destruct (k0 =? k') eqn:E; simpl.
    + apply String.eqb_eq in E. subst k0.
      apply String.eqb_neq in Hne. now rewrite Hne.
    + now rewrite IH.
Qed.

(** No index of an array is spelled like a name. *)
Lemma dec_is_a_number n k : NilZero.int_of_string k = None -> Js.dec n <> k.
Proof.
  intros Hk E. unfold Js.dec in E.
  destruct (Ids.to_int_not_nil n) as [H1 H2].
  pose proof (NilZero.isi (Z.to_int n) H1 H2) as H.
  rewrite E, Hk in H. discriminate.
Qed.

Lemma get_indexed k items :
  NilZero.int_of_string k = None -> Dyn.get k (Dyn.indexed items) = Dyn.Undefined.
Proof.
  intros Hk. unfold Dyn.indexed.
  generalize (seq 0 (List.length items)) as idx.
  induction items as [|x items IH]; intros [|i idx]; simpl; try reflexivity.
  destruct (Js.dec (Z.of_nat i) =? k) eqn:E; [|apply IH].
  apply String.eqb_eq in E. now apply dec_is_a_number in E.
Qed.

Lemma get_after_indexed k items props :
  NilZero.int_of_string k = None ->
  Dyn.get k (Dyn.indexed items ++ props) = Dyn.get k props.
Proof.
  intros Hk. unfold Dyn.indexed.
  generalize (seq 0 (List.length items)) as idx.
  induction items as [|x items IH]; intros [|i idx]; simpl; try reflexivity.
  destruct (Js.dec (Z.of_nat i) =? k) eqn:E; [|apply IH].
  apply String.eqb_eq in E. now apply dec_is_a_number in E.
Qed.

(** Reading a named property of what a spread has copied. *)
Lemma get_own_props k v :
  NilZero.int_of_string k = None ->
  Dyn.is_array v = true \/ (exists f, v = Dyn.Obj f) ->
  Dyn.get k (Dyn.own_props v) = property v k.
Proof.
  intros Hk [Ha|(f & ->)].
  - destruct v; try discriminate. unfold property. simpl.
    now apply get_after_indexed.
  - reflexivity.
Qed.

End DynFacts.

Module Parsing.

Lemma safeParseJSON_cases env text :
  Service.safeParseJSON env text
  = Resolved
      match Service.JSON_parse env text with
      | Some v => v
      | None =>
          match Service.JSON_parse env (Service.repaired text) with
          | Some v => v
          | None => Js.Obj []
          end
      end.
Proof.
  unfold Service.safeParseJSON, Service.parse.
  destruct (Service.JSON_parse env text); [reflexivity|]. simpl.
  destruct (Service.JSON_parse env (Service.repaired text)); reflexivity.
Qed.

Lemma safeParseJSON_parsed env text :
  Service.safeParseJSON env text = Resolved (parsed env text).
Proof. apply safeParseJSON_cases. Qed.

(** [ensure_array] on a value that holds properties. *)
Lemma ensure_array_spec k v :
  Dyn.is_array v = true \/ (exists f, v = Dyn.Obj f) ->
  exists v',
    Service.ensure_array k v = Resolved v' /\
    (Dyn.is_array v' = true \/ exists f, v' = Dyn.Obj f) /\
    Dyn.is_array (property v' k) = true /\
    (Dyn.is_array (property v k) = true -> v' = v) /\
    (forall k', k' <> k -> property v' k' = property v k').
Proof.
  intros Hv. unfold Service.ensure_array, property.
  destruct Hv as [Ha|(f & ->)].
  - destruct v as [| | | | |items props|f]; try discriminate.
    cbn [Dyn.member bind].
    destruct (Dyn.is_array (Dyn.get k props)) eqn:E.
    + exists (Dyn.Arr items props). cbn [Dyn.member].
      split; [reflexivity|]. split; [now left|]. split; [exact E|].
      split; reflexivity.
    + exists (Dyn.Arr items (Dyn.set k (Dyn.Arr [] []) props)).
      cbn [Dyn.assign Dyn.member]. split; [reflexivity|].
      split; [now left|]. rewrite DynFacts.dyn_get_set_same.
      split; [reflexivity|]. split; [discriminate|].
      intros k' Hk'. now rewrite DynFacts.dyn_get_set_other by congruence.
  - cbn [Dyn.member bind].
    destruct (Dyn.is_array (Dyn.get k f)) eqn:E.
    + exists (Dyn.Obj f). cbn [Dyn.member].
      split; [reflexivity|]. split; [right; now exists f|]. split; [exact E|].
      split; reflexivity.
    + exists (Dyn.Obj (Dyn.set k (Dyn.Arr [] []) f)).
      cbn [Dyn.assign Dyn.member]. split; [reflexivity|].
      split; [right; eexists; reflexivity|]. rewrite DynFacts.dyn_get_set_same.
      split; [reflexivity|]. split; [discriminate|].
      intros k' Hk'. now rewrite DynFacts.dyn_get_set_other by congruence.
Qed.

(** [ensure_array] on anything else throws. *)
Lemma ensure_array_throws k v :
  Dyn.is_array v = false -> (forall f, v <> Dyn.Obj f) ->
  Service.ensure_array k v = Rejected "TypeError".
Proof.
  intros Ha Ho. unfold Service.ensure_array.
  destruct v as [| | | | |items props|f]; try reflexivity.
  - discriminate.
  - now destruct (Ho f).
Qed.

Lemma of_js_holds v :
  holds_properties v = true ->
  Dyn.is_array (Dyn.of_js v) = true \/ exists f, Dyn.of_js v = Dyn.Obj f.
Proof.
  destruct v; try discriminate; intros _; [now left|right].
  eexists. reflexivity.
Qed.

Lemma of_js_holds_not v :
  holds_properties v = false ->
  Dyn.is_array (Dyn.of_js v) = false /\ forall f, Dyn.of_js v <> Dyn.Obj f.
Proof.
  destruct v; try discriminate; intros _; split; try reflexivity;
    intros f; discriminate.
Qed.

End Parsing.

(** X12: [safeParseJSON] never throws.  Text that [JSON.parse] accepts is
    returned as parsed; otherwise the repaired text is parsed, which is
    the trimmed text, followed by five closing quote-and-brace pairs when
    it opens a brace and does not end with one; when that fails too the
    result is the empty object. *)
Theorem safeParseJSON_never_throws :
  forall (env : Service.Env) (text : string),
    (exists v, Service.safeParseJSON env text = Resolved v) /\
    (forall v, Service.JSON_parse env text = Some v ->
               Service.safeParseJSON env text = Resolved v) /\
    (Service.JSON_parse env text = None ->
     (forall v, Service.JSON_parse env (Service.repaired text) = Some v ->
                Service.safeParseJSON env text = Resolved v) /\
     (Service.JSON_parse env (Service.repaired text) = None ->
      Service.safeParseJSON env text = Resolved (Js.Obj []))) /\
    (Service.repaired text = Text.trim text \/
     Text.startsWith "{" (Text.trim text) = true /\
     Text.endsWith "}" (Text.trim text) = false /\
     Service.repaired text
     = (Text.trim text
        ++ Text.quote ++ "}" ++ Text.quote ++ "}" ++ Text.quote ++ "}"
        ++ Text.quote ++ "}" ++ Text.quote ++ "}")%string).
Proof.
  intros env text. rewrite Parsing.safeParseJSON_cases.
  split; [eexists; reflexivity|].
  split; [intros v ->; reflexivity|]. split.
  - intros ->. split; [intros v ->; reflexivity|]. intros ->. reflexivity.
  - unfold Service.repaired.
    destruct (Text.startsWith "{" (Text.trim text)); [|now left].
    destruct (Text.endsWith "}" (Text.trim text)); [now left|].
    right. split; [reflexivity|]. split; reflexivity.
Qed.


(** X14: what [generateQuizOnly] and [generateSlidesOnly] return.  A reply
    that parses to an array is returned as it is; for any other reply the
    result is its [quiz] (its [slides]) when that is truthy, and the empty
    array otherwise, so that the result is never falsy; the promise rejects
    when the model call throws and when the reply parses to [null]. *)
Theorem quiz_and_slides_are_never_falsy :
  (forall (env : Service.Env) (topic : string) (context : option string),
      match Service.generateContent env (Service.QuizRequest topic context) with
      | Gemini.GenerateThrows e =>
          Service.generateQuizOnly env topic context = Rejected e
      | Gemini.GenerateReturns text =>
          let data := parsed env (Service.text_or "[]" text) in
          match data with
          | Js.Arr _ => Service.generateQuizOnly env topic context = Resolved data
          | Js.Null | Js.Undefined =>
              Service.generateQuizOnly env topic context = Rejected "TypeError"
          | Js.Obj fields =>
              exists v,
                Service.generateQuizOnly env topic context = Resolved v /\
                Js.truthy v = true /\
                (v = Js.get "quiz" fields \/ v = Js.Arr [])
          | _ => Service.generateQuizOnly env topic context = Resolved (Js.Arr [])
          end
      end) /\
  (forall (env : Service.Env) (topic : string) (context : option string),
      match Service.generateContent env (Service.SlidesRequest topic context) with
      | Gemini.GenerateThrows e =>
          Service.generateSlidesOnly env topic context = Rejected e
      | Gemini.GenerateReturns text =>
          let data := parsed env (Service.text_or "[]" text) in
          match data with
          | Js.Arr _ => Service.generateSlidesOnly env topic context = Resolved data
          | Js.Null | Js.Undefined =>
              Service.generateSlidesOnly env topic context = Rejected "TypeError"
          | Js.Obj fields =>
              exists v,
                Service.generateSlidesOnly env topic context = Resolved v /\
                Js.truthy v = true /\
                (v = Js.get "slides" fields \/ v = Js.Arr [])
          | _ => Service.generateSlidesOnly env topic context = Resolved (Js.Arr [])
          end
      end).
Proof.
  split; intros env topic context.
  - unfold Service.generateQuizOnly, Service.await_generate.
    destruct (Service.generateContent env _) as [e|text]; [reflexivity|].
    cbn [bind]. rewrite Parsing.safeParseJSON_parsed. cbn [bind]. cbv zeta.
    destruct (parsed env _) as [| | | | | |fields]; try reflexivity.
    cbn [Js.member]. unfold Js.or_else.
    destruct (Js.truthy (Js.get "quiz" fields)) eqn:E.
    + eexists. split; [reflexivity|]. split; [exact E|now left].
    + eexists. split; [reflexivity|]. split; [reflexivity|now right].
  - unfold Service.generateSlidesOnly, Service.await_generate.
    destruct (Service.generateContent env _) as [e|text]; [reflexivity|].
    cbn [bind]. rewrite Parsing.safeParseJSON_parsed. cbn [bind]. cbv zeta.
    destruct (parsed env _) as [| | | | | |fields]; try reflexivity.
    cbn [Js.member]. unfold Js.or_else.
    destruct (Js.truthy (Js.get "slides" fields)) eqn:E.
    + eexists. split; [reflexivity|]. split; [exact E|now left].
    + eexists. split; [reflexivity|]. split; [reflexivity|now right].
Qed.

Module Lesson.

Lemma holds_or_not (v : Dyn.value) :
  (Dyn.is_array v = true \/ exists f, v = Dyn.Obj f) \/
  (Dyn.is_array v = false /\ forall f, v <> Dyn.Obj f).
Proof.
  destruct v; try (right; split; [reflexivity|discriminate]).
  - left. now left.
  - left. right. eexists. reflexivity.
Qed.

(** What a successful [ensure_array] has done. *)
Lemma ensure_array_resolved k v v' :
  Service.ensure_array k v = Resolved v' ->
  (Dyn.is_array v' = true \/ exists f, v' = Dyn.Obj f) /\
  Dyn.is_array (property v' k) = true /\
  (forall k', k' <> k -> property v' k' = property v k').
Proof.
  intros H. destruct (holds_or_not v) as [Hv|[Ha Ho]].
  - destruct (Parsing.ensure_array_spec k v Hv) as (w & Hw & Hh & Harr & _ & Hk).
    rewrite Hw in H. injection H as <-. repeat split; assumption.
  - rewrite (Parsing.ensure_array_throws k v Ha Ho) in H. discriminate.
Qed.

Lemma member_of_holder k v :
  Dyn.is_array v = true \/ (exists f, v = Dyn.Obj f) ->
  Dyn.member v k = Resolved (property v k).
Proof.
  intros [Ha|(f & ->)]; [|reflexivity].
  destruct v; try discriminate. reflexivity.
Qed.

Lemma assign_to_holder k w v :
  Dyn.is_array v = true \/ (exists f, v = Dyn.Obj f) ->
  exists v',
    Dyn.assign v k w = Resolved v' /\
    (Dyn.is_array v' = true \/ exists f, v' = Dyn.Obj f) /\
    property v' k = w /\
    (forall k', k' <> k -> property v' k' = property v k').
Proof.
  intros [Ha|(f & ->)].
  - destruct v as [| | | | |items props|f]; try discriminate.
    eexists. split; [reflexivity|]. split; [now left|].
    unfold property. cbn [Dyn.member]. split; [apply DynFacts.dyn_get_set_same|].
    intros k' Hk'. now rewrite DynFacts.dyn_get_set_other by congruence.
  - eexists. split; [reflexivity|]. split; [right; eexists; reflexivity|].
    unfold property. cbn [Dyn.member]. split; [apply DynFacts.dyn_get_set_same|].
    intros k' Hk'. now rewrite DynFacts.dyn_get_set_other by congruence.
Qed.

Lemma forEach_resolved k l l' :
  Dyn.forEach (Service.ensure_array k) l = Resolved l' ->
  forall x, In x l' -> Dyn.is_array (property x k) = true.
Proof.
  revert l'. induction l as [|a l IH]; simpl; intros l' H.
  - injection H as <-. intros x [].
  - destruct (Service.ensure_array k a) as [a'|e] eqn:Ea; [|discriminate].
    cbn [bind] in H.
    destruct (Dyn.forEach (Service.ensure_array k) l) as [rest|e] eqn:El;
      [|discriminate].
    cbn [bind] in H. injection H as <-.
    intros x [<-|Hx].
    + now apply (ensure_array_resolved k a).
    + now apply (IH rest).
Qed.

Lemma forEach_throws k l x :
  In x l -> Dyn.is_array x = false -> (forall f, x <> Dyn.Obj f) ->
  exists e, Dyn.forEach (Service.ensure_array k) l = Rejected e.
Proof.
  intros Hin Ha Ho. induction l as [|a l IH]; [destruct Hin|]. simpl.
  destruct (Service.ensure_array k a) as [a'|e] eqn:Ea;
    [|eexists; reflexivity].
  cbn [bind]. destruct Hin as [->|Hin].
  - rewrite (Parsing.ensure_array_throws k x Ha Ho) in Ea. discriminate.
  - destruct (IH Hin) as (e & ->). eexists. reflexivity.
Qed.

End Lesson.

(** X15: the lesson [generateLessonContent] returns.  Whenever the promise
    resolves, the lesson is an object whose [moduleId] is the one asked
    for, whatever the model has answered, whose [slides], [quiz] and
    [suggestedQuestions] are arrays, and every slide of which has an
    array as its [bullets].  The promise rejects when the model call
    throws, when the reply parses to [null] or to a number, a string or a
    boolean, and when a slide of the reply is one of these. *)
Theorem generated_lesson_has_its_defaults :
  forall (env : Service.Env) (moduleId moduleTitle topic : string),
    let request := Service.LessonRequest moduleTitle topic in
    let result := Service.generateLessonContent env moduleId moduleTitle topic in
    (forall lesson,
        result = Resolved lesson ->
        exists fields,
          lesson = Dyn.Obj fields /\
          Dyn.get "moduleId" fields = Dyn.Str moduleId /\
          (exists slides props,
              Dyn.get "slides" fields = Dyn.Arr slides props /\
              forall slide, In slide slides ->
                            Dyn.is_array (property slide "bullets") = true) /\
          Dyn.is_array (Dyn.get "quiz" fields) = true /\
          Dyn.is_array (Dyn.get "suggestedQuestions" fields) = true) /\
    (forall e, Service.generateContent env request = Gemini.GenerateThrows e ->
               result = Rejected e) /\
    (forall text, Service.generateContent env request = Gemini.GenerateReturns text ->
       let data := parsed env (Service.text_or "{}" text) in
       (holds_properties data = false -> result = Rejected "TypeError") /\
       (forall fields slides slide,
           data = Js.Obj fields -> Js.get "slides" fields = Js.Arr slides ->
           In slide slides -> holds_properties slide = false ->
           exists e, result = Rejected e)).
Proof.
  intros env moduleId moduleTitle topic request result. subst request result.
  unfold Service.generateLessonContent, Service.await_generate.
  split; [|split].
  - intros lesson H.
    destruct (Service.generateContent env _) as [e|text]; [discriminate|].
    cbn [bind] in H. rewrite Parsing.safeParseJSON_parsed in H. cbn [bind] in H.
    destruct (Service.ensure_array "slides" _) as [d1|e] eqn:E1; [|discriminate].
    cbn [bind] in H.
    destruct (Lesson.ensure_array_resolved _ _ _ E1) as (Hh1 & Hs1 & _).
    rewrite (Lesson.member_of_holder "slides" d1 Hh1) in H. cbn [bind] in H.
    destruct (property d1 "slides") as [| | | | |items props|] eqn:Eslides;
      try discriminate.
    destruct (Dyn.forEach (Service.ensure_array "bullets") items)
      as [items'|e] eqn:Eeach; [|discriminate].
    cbn [bind] in H.
    destruct (Lesson.assign_to_holder "slides" (Dyn.Arr items' props) d1 Hh1)
      as (d2 & E2 & Hh2 & Hs2 & _).
    rewrite E2 in H. cbn [bind] in H.
    destruct (Service.ensure_array "quiz" d2) as [d3|e] eqn:E3; [|discriminate].
    cbn [bind] in H.
    destruct (Lesson.ensure_array_resolved _ _ _ E3) as (Hh3 & Hq3 & Hk3).
    destruct (Service.ensure_array "suggestedQuestions" d3) as [d4|e] eqn:E4;
      [|discriminate].
    cbn [bind] in H.
    destruct (Lesson.ensure_array_resolved _ _ _ E4) as (Hh4 & Hq4 & Hk4).
    injection H as <-. eexists. split; [reflexivity|].
    split; [apply DynFacts.dyn_get_set_same|].
    rewrite !DynFacts.dyn_get_set_other by discriminate.
    rewrite !(DynFacts.get_own_props _ d4) by (reflexivity || assumption).
    split; [|split].
    + exists items', props. split.
      * rewrite Hk4 by discriminate. rewrite Hk3 by discriminate. exact Hs2.
      * now apply (Lesson.forEach_resolved "bullets" items).
    + rewrite Hk4 by discriminate. exact Hq3.
    + exact Hq4.
  - intros e ->. reflexivity.
  - intros text ->. cbv zeta. cbn [bind].
    rewrite Parsing.safeParseJSON_parsed. cbn [bind]. split.
    + intros H. apply Parsing.of_js_holds_not in H. destruct H as [Ha Ho].
      now rewrite (Parsing.ensure_array_throws "slides" _ Ha Ho).
    + intros fields slides slide -> Hslides Hin Hnot.
      cbn [Dyn.of_js].
      set (f := map _ fields).
      assert (Hget : Dyn.get "slides" f = Dyn.Arr (map Dyn.of_js slides) []).
      { subst f. clear Hin. induction fields as [|[k v] fields IH];
          simpl in *; [discriminate|].
        destruct (k =? "slides"); [now rewrite Hslides|now apply IH]. }
      assert (E1 : Service.ensure_array "slides" (Dyn.Obj f)
                   = Resolved (Dyn.Obj f)).
      { unfold Service.ensure_array. cbn [Dyn.member bind].
        now rewrite Hget. }
      rewrite E1. cbn [bind Dyn.member]. rewrite Hget.
      apply Parsing.of_js_holds_not in Hnot. destruct Hnot as [Ha Ho].
      destruct (Lesson.forEach_throws "bullets" (map Dyn.of_js slides)
                  (Dyn.of_js slide) (in_map _ _ _ Hin) Ha Ho) as (e & ->).
      eexists. reflexivity.
Qed.

(* ================================================================== *)
(** * services/geminiService.ts: the exam plan *)
(* ================================================================== *)

Module PlanFacts.

Lemma pushFiles_from (attachments : list Exam.Attachment) (acc : list Exam.Part) :
  fold_left
    (fun parts att =>
       match Js.present (Exam.att_mimeType att) with
       | Some mimeType =>
           if Exam.att_type att =? "file"
           then parts ++ [ Exam.InlineData mimeType (Exam.att_data att) ]
           else parts
       | None => parts
       end)
    attachments acc
  = acc ++ flat_map
             (fun att =>
                match Js.present (Exam.att_mimeType att) with
                | Some mimeType =>
                    if Exam.att_type att =? "file"
                    then [ Exam.InlineData mimeType (Exam.att_data att) ]
                    else []
                | None => []
                end) attachments.
Proof.
  revert acc. induction attachments as [|a l IH]; intros acc; simpl.
  - now rewrite app_nil_r.
  - rewrite IH. destruct (Js.present (Exam.att_mimeType a)); [|reflexivity].
    destruct (Exam.att_type a =? "file"); [|reflexivity].
    now rewrite <- app_assoc.
Qed.

Lemma append_empty (s : string) : (s ++ "")%string = s.
Proof. induction s; simpl; congruence. Qed.

Lemma append_append (a b c : string) :
  ((a ++ b) ++ c)%string = (a ++ b ++ c)%string.
Proof. induction a; simpl; congruence. Qed.

Lemma concat_cons (a : string) (l : list string) :
  String.concat "" (a :: l) = (a ++ String.concat "" l)%string.
Proof.
  destruct l as [|b l]; simpl; [now rewrite append_empty|reflexivity].
Qed.

Lemma concat_app (l l' : list string) :
  String.concat "" (l ++ l')
  = (String.concat "" l ++ String.concat "" l')%string.
Proof.
  induction l as [|a l IH]; [reflexivity|].
  change ((a :: l) ++ l') with (a :: (l ++ l')).
  rewrite !concat_cons, IH. now rewrite append_append.
Qed.

Lemma plan_from (l : list Js.value) (acc : string) :
  fold_left (fun plan chunk => (plan ++ Js.to_string chunk)%string) l acc
  = (acc ++ String.concat "" (map Js.to_string l))%string.
Proof.
  revert acc. induction l as [|a l IH]; intros acc.
  - simpl. now rewrite append_empty.
  - cbn [fold_left map]. rewrite IH, concat_cons. apply append_append.
Qed.

Lemma relay_chunks texts rest :
  Exam.relay (Exam.chunks texts rest)
  = (map Exam.text_of texts ++ fst (Exam.relay rest), snd (Exam.relay rest)).
Proof.
  induction texts as [|t texts IH]; simpl.
  - now destruct (Exam.relay rest).
  - now rewrite IH.
Qed.

Lemma streamed_plan texts :
  String.concat "" (map Js.to_string (map Exam.text_of texts))
  = Exam.streamed texts.
Proof. unfold Exam.streamed. now rewrite map_map. Qed.

End PlanFacts.


(* ================================================================== *)
(** * services/geminiService.ts: media analysis *)
(* ================================================================== *)

Module MediaFacts.

Lemma split_plain (s : string) :
  Media.all_chars Media.no_comma s = true -> Text.split "," s = [ s ].
Proof.
  induction s as [|c s IH]; [reflexivity|]. simpl. unfold Media.no_comma at 1.
  intros H. apply andb_true_iff in H. destruct H as [Hc Hs].
  apply negb_true_iff in Hc. rewrite Hc, (IH Hs). reflexivity.
Qed.

Lemma split_at_comma (a b : string) :
  Media.all_chars Media.no_comma a = true ->
  Text.split "," (a ++ "," ++ b) = a :: Text.split "," b.
Proof.
  induction a as [|c a IH]; [reflexivity|]. simpl. unfold Media.no_comma at 1.
  intros H. apply andb_true_iff in H. destruct H as [Hc Ha].
  apply negb_true_iff in Hc. rewrite Hc. simpl in IH. now rewrite (IH Ha).
Qed.

Lemma all_chars_app p (a b : string) :
  Media.all_chars p (a ++ b) = Media.all_chars p a && Media.all_chars p b.
Proof.
  induction a as [|c a IH]; [reflexivity|]. simpl.
  now rewrite IH, andb_assoc.
Qed.

Lemma all_chars_weaken (p q : ascii -> bool) (s : string) :
  (forall c, p c = true -> q c = true) ->
  Media.all_chars p s = true -> Media.all_chars q s = true.
Proof.
  intros Hpq. induction s as [|c s IH]; [reflexivity|]. simpl.
  intros H. apply andb_true_iff in H. destruct H as [Hc Hs].
  now rewrite (Hpq c Hc), (IH Hs).
Qed.

Lemma plain_no_comma c : Media.plain_char c = true -> Media.no_comma c = true.
Proof.
  unfold Media.plain_char, Media.no_comma. intros H.
  repeat (apply andb_true_iff in H; destruct H as [H _]). exact H.
Qed.

Lemma no_semicolon_no_comma c :
  Media.no_semicolon c = true -> Media.no_comma c = true.
Proof.
  unfold Media.no_semicolon, Media.no_comma. intros H.
  apply andb_true_iff in H. tauto.
Qed.

Lemma plain_char_cases c :
  Media.plain_char c = true ->
  Ascii.eqb c "," = false /\ Ascii.eqb c ";" = false /\
  Ascii.eqb c (ascii_of_nat 10) = false /\
  Ascii.eqb c (ascii_of_nat 13) = false /\
  Ascii.eqb c (ascii_of_nat 226) = false.
Proof.
  unfold Media.plain_char. rewrite !andb_true_iff, !negb_true_iff. tauto.
Qed.

Lemma not_at_line_terminator c rest :
  Media.plain_char c = true -> Text.at_line_terminator (String c rest) = false.
Proof.
  intros H. destruct (plain_char_cases c H) as (_ & _ & H10 & H13 & H226).
  unfold Text.at_line_terminator.
  cbn [list_ascii_of_string map Text.bytes Text.strip_any Text.strip].
  rewrite (Ascii.eqb_sym _ c), H10.
  rewrite (Ascii.eqb_sym _ c), H13.
  rewrite (Ascii.eqb_sym _ c), H226. reflexivity.
Qed.

Lemma until_semicolon_plain (mime rest : string) :
  Media.all_chars Media.plain_char mime = true ->
  Text.until_semicolon (mime ++ ";" ++ rest) = Some mime.
Proof.
  induction mime as [|c mime IH]; [reflexivity|].
  cbn [Media.all_chars]. intros H. apply andb_true_iff in H.
  destruct H as [Hc Hm].
  change (String c mime ++ ";" ++ rest)%string
    with (String c (mime ++ ";" ++ rest)).
  cbn [Text.until_semicolon].
  destruct (plain_char_cases c Hc) as (_ & Hsemi & _).
  rewrite Hsemi, (not_at_line_terminator c _ Hc), (IH Hm). reflexivity.
Qed.

Lemma until_semicolon_none (s : string) :
  Media.all_chars Media.no_semicolon s = true -> Text.until_semicolon s = None.
Proof.
  induction s as [|c s IH]; [reflexivity|]. simpl.
  intros H. apply andb_true_iff in H. destruct H as [Hc Hs].
  unfold Media.no_semicolon in Hc. apply andb_true_iff in Hc.
  destruct Hc as [_ Hc]. apply negb_true_iff in Hc. rewrite Hc.
  destruct (Text.at_line_terminator (String c s)); [reflexivity|].
  now rewrite (IH Hs).
Qed.

Lemma no_match_without_semicolon (s : string) :
  Media.all_chars Media.no_semicolon s = true ->
  Text.match_colon_semicolon s = None.
Proof.
  induction s as [|c s IH]; [reflexivity|]. simpl.
  intros H. apply andb_true_iff in H. destruct H as [Hc Hs].
  rewrite (until_semicolon_none s Hs), (IH Hs).
  now destruct (Ascii.eqb c ":").
Qed.

Lemma handled_readable env body :
  (forall thrown, body = Media.Throws thrown -> Media.readable thrown) ->
  exists text, Media.handled env body = Media.Returns text.
Proof.
  intros H. destruct body as [text|thrown]; [now exists text|].
  specialize (H thrown eq_refl). unfold Media.readable in H. cbn.
  destruct (Media.messageOf thrown) as [message|]; [|congruence].
  now eexists.
Qed.

Lemma error_object_readable name message :
  Media.readable (Media.ErrorObject name message).
Proof. discriminate. Qed.

Lemma starts_with_data (rest : string) :
  Text.startsWith "data:" ("data:" ++ rest) = true.
Proof. unfold Text.startsWith. cbn. now destruct rest. Qed.

Lemma match_after_data (s : string) :
  Text.match_colon_semicolon ("data:" ++ s)
  = match Text.until_semicolon s with
    | Some group => Some group
    | None => Text.match_colon_semicolon s
    end.
Proof. reflexivity. Qed.

End MediaFacts.

(** X17: when [analyzeMedia] rejects.  The promise rejects in two cases
    only: when [getAIClient()] throws, which happens before the [try], with
    what it threw; and when what was thrown inside the [try] has no message
    the [catch] block can read ([null], [undefined], or a message that
    cannot be converted to text), with the [TypeError] of the engine.
    Whenever an [Error] object is thrown inside the [try] the promise
    resolves with "Analysis failed: ..." and the message of the error, or
    "Unknown error" when the message is empty; a response that is not [ok]
    is reported as "Failed to fetch media" and the model is not asked; a
    failed read is reported as "Unknown error" when its event has no
    message. *)
Theorem analyzeMedia_rejects_in_two_cases_only :
  forall (env : Media.Env) (url type prompt : string),
    (forall error, Media.getAIClient env = Some error ->
                   Media.analyzeMedia env url type prompt = Media.Throws error) /\
    (Media.getAIClient env = None ->
     (forall error,
         Media.analyzeMedia env url type prompt = Media.Throws error ->
         exists thrown,
           Media.attempt env url type prompt = Media.Throws thrown /\
           ~ Media.readable thrown /\
           error = Media.ErrorObject "TypeError" (Media.engineMessage env thrown)) /\
     (forall name message,
         Media.attempt env url type prompt
         = Media.Throws (Media.ErrorObject name message) ->
         Media.analyzeMedia env url type prompt
         = Media.Returns
             (Media.failure (if message =? "" then "Unknown error" else message))) /\
     (forall thrown,
         Media.attempt env url type prompt = Media.Throws thrown ->
         thrown = Media.Value Js.Null \/ thrown = Media.Value Js.Undefined ->
         Media.analyzeMedia env url type prompt
         = Media.Throws
             (Media.ErrorObject "TypeError" (Media.engineMessage env thrown))) /\
     (Text.startsWith "data:" url = false ->
      (forall error, Media.fetch env url = Media.FetchThrows error ->
                     Media.attempt env url type prompt = Media.Throws error) /\
      (forall blob, Media.fetch env url = Media.FetchReturns false blob ->
                    Media.analyzeMedia env url type prompt
                    = Media.Returns (Media.failure "Failed to fetch media")) /\
      (forall blobType event,
          Media.fetch env url
          = Media.FetchReturns true
              (Media.BlobReturns blobType (Media.ReadFails event)) ->
          Js.truthy (Js.get "message" event) = false ->
          Media.analyzeMedia env url type prompt
          = Media.Returns (Media.failure "Unknown error")) /\
      (forall blobType result,
          Media.fetch env url
          = Media.FetchReturns true
              (Media.BlobReturns blobType (Media.ReadGives result)) ->
          Media.analyzeMedia env url type prompt
          = Media.answer env blobType (nth_error (Text.split "," result) 1)
              prompt))).
Proof.
  intros env url type prompt. unfold Media.analyzeMedia, Media.withClient.
  split; [now intros error ->|].
  intros Hclient. rewrite Hclient. split; [|split; [|split]].
  - intros error H.
    destruct (Media.attempt env url type prompt) as [text|thrown];
      [discriminate|].
    exists thrown. split; [reflexivity|]. cbn in H. unfold Media.readable.
    destruct (Media.messageOf thrown); [discriminate|].
    injection H as <-. split; [congruence|reflexivity].
  - now intros name message ->.
  - intros thrown -> [->| ->]; reflexivity.
  - intros Hurl. unfold Media.attempt, Media.answer, Media.withClient.
    rewrite Hurl. unfold Media.ofRemoteUrl. split; [|split; [|split]].
    + now intros error ->.
    + now intros blob ->.
    + intros blobType event -> Hmessage. cbn. now rewrite Hmessage.
    + intros blobType result ->. cbn [negb fst snd].
      now rewrite Hclient.
Qed.

(** X18: a data URL is decoded without [fetch].  For the URL
    [data:<mime>;<parameters>,<payload>], where the mime type holds no
    comma, semicolon or line terminator and neither the parameters nor the
    payload holds a comma, [analyzeMedia] asks the model with that mime
    type and that payload.  For [data:<mime>,<payload>], which has no
    semicolon, the mime type of the URL is ignored: the request says
    image/jpeg for an image and video/mp4 otherwise. *)
Theorem data_url_is_decoded :
  forall (env : Media.Env) (mime parameters payload type prompt : string),
    Media.all_chars Media.plain_char mime = true ->
    Media.all_chars Media.no_comma parameters = true ->
    Media.all_chars Media.no_comma payload = true ->
    Media.analyzeMedia env ("data:" ++ mime ++ ";" ++ parameters ++ "," ++ payload)
      type prompt
    = Media.answer env mime (Some payload) prompt /\
    (Media.all_chars Media.no_semicolon mime = true ->
     Media.analyzeMedia env ("data:" ++ mime ++ "," ++ payload) type prompt
     = Media.answer env
         (if type =? "image" then "image/jpeg" else "video/mp4")
         (Some payload) prompt).
Proof.
  intros env mime parameters payload type prompt Hmime Hparams Hpayload.
  assert (Hmime' : Media.all_chars Media.no_comma mime = true)
    by (revert Hmime; apply MediaFacts.all_chars_weaken,
          MediaFacts.plain_no_comma).
  split.
  - unfold Media.analyzeMedia, Media.answer, Media.attempt.
    rewrite MediaFacts.starts_with_data.
    unfold Media.ofDataUrl.
    assert (Hsplit :
      Text.split "," ("data:" ++ mime ++ ";" ++ parameters ++ "," ++ payload)
      = [ ("data:" ++ mime ++ ";" ++ parameters)%string; payload ]).
    { replace ("data:" ++ mime ++ ";" ++ parameters ++ "," ++ payload)%string
        with (("data:" ++ mime ++ ";" ++ parameters) ++ "," ++ payload)%string.
      - rewrite MediaFacts.split_at_comma, (MediaFacts.split_plain payload Hpayload);
          [reflexivity|].
        change ("data:" ++ mime ++ ";" ++ parameters)%string
          with ("data:" ++ (mime ++ ";" ++ parameters))%string.
        rewrite !MediaFacts.all_chars_app, Hmime', Hparams. reflexivity.
      - simpl. rewrite !PlanFacts.append_append. reflexivity. }
    rewrite Hsplit. cbn [hd nth_error].
    assert (Hmatch : Text.match_colon_semicolon
                       ("data:" ++ mime ++ ";" ++ parameters) = Some mime).
    { rewrite MediaFacts.match_after_data.
      now rewrite (MediaFacts.until_semicolon_plain mime parameters Hmime). }
    rewrite Hmatch. reflexivity.
  - intros Hsemi. unfold Media.analyzeMedia, Media.answer, Media.attempt.
    rewrite MediaFacts.starts_with_data.
    unfold Media.ofDataUrl.
    assert (Hsplit : Text.split "," ("data:" ++ mime ++ "," ++ payload)
                     = [ ("data:" ++ mime)%string; payload ]).
    { replace ("data:" ++ mime ++ "," ++ payload)%string
        with (("data:" ++ mime) ++ "," ++ payload)%string
        by (simpl; reflexivity).
      rewrite MediaFacts.split_at_comma, (MediaFacts.split_plain payload Hpayload);
        [reflexivity|].
      rewrite MediaFacts.all_chars_app, Hmime'. reflexivity. }
    rewrite Hsplit. cbn [hd nth_error].
    assert (Hmatch : Text.match_colon_semicolon ("data:" ++ mime) = None).
    { rewrite MediaFacts.match_after_data.
      rewrite (MediaFacts.until_semicolon_none mime Hsemi).
      now apply MediaFacts.no_match_without_semicolon. }
    rewrite Hmatch. reflexivity.
Qed.

Lemma data_url_is_decoded_witness :
  Media.all_chars Media.plain_char "image/png" = true /\
  Media.all_chars Media.no_comma "base64" = true /\
  Media.all_chars Media.no_comma "iVBORw0KGgo=" = true /\
  Media.analyzeMedia media_env "data:image/png;base64,iVBORw0KGgo=" "video"
    "What is it?"
  = Media.Returns "png, iVBORw0KGgo=".
Proof.
  split; [reflexivity|]. split; [reflexivity|]. split; [reflexivity|].
  exact (proj1 (data_url_is_decoded media_env "image/png" "base64"
                  "iVBORw0KGgo=" "video" "What is it?"
                  eq_refl eq_refl eq_refl)).
Defined.

(* ================================================================== *)
(** * Actions of a study node *)
(* ================================================================== *)

(** X9: what a node's action can do to the canvas.  [handleNodeAction]
    changes nothing, not even the history, when the source node is not on
    the canvas or the action is neither SLIDES nor CODE.  Otherwise it
    adds one node under the source node, 600 to its right and 600 lower
    for each edge that already leaves it, with an edge from the source: a
    slides node whose topic is never falsy ("General Topic" when the source
    has none), or a python code node whose code is never falsy
    ("# Start coding..." when the payload has none). *)
Theorem node_action_adds_a_child_of_its_source :
  forall (r : Render) (now : Z) (sourceId action : string) (payload : Js.object)
         (s : State),
    let s' := handleNodeAction r now sourceId action payload s in
    (getNode s sourceId = None \/ (action <> "SLIDES" /\ action <> "CODE") ->
     s' = s) /\
    (forall sourceNode,
        getNode s sourceId = Some sourceNode -> sourceId <> "" ->
        action = "SLIDES" \/ action = "CODE" ->
        exists n,
          nodes s' = nodes s ++ [n] /\
          edges s' = edges s ++ [ newEdge sourceId (Node.id n) ] /\
          Node.position n
          = Position.mk (Position.x (Node.position sourceNode) + 600)
              (Position.y (Node.position sourceNode)
               + Z.of_nat (existingChildren s sourceId) * 600) /\
          (action = "SLIDES" ->
           Node.type n = Js.Str "slides" /\
           Js.truthy (Js.get "topic" (Node.data n)) = true /\
           Js.get "context" (Node.data n) = Js.get "markdownContent" payload) /\
          (action = "CODE" ->
           Node.type n = Js.Str "code" /\
           Js.get "language" (Node.data n) = Js.Str "python" /\
           Js.truthy (Js.get "code" (Node.data n)) = true)).
Proof.
  intros r now sourceId action payload s s'. subst s'.
  unfold handleNodeAction. split.
  - intros [->|[H1 H2]]; [reflexivity|].
    destruct (getNode s sourceId); [|reflexivity].
    apply String.eqb_neq in H1, H2. now rewrite H1, H2.
  - intros sourceNode Hfound Hid Haction. rewrite Hfound.
    assert (Hpos : forall type data,
      placement r (pushHistory r s) (Some sourceId)
      = Position.mk (Position.x (Node.position sourceNode) + 600)
          (Position.y (Node.position sourceNode)
           + Z.of_nat (existingChildren s sourceId) * 600) /\
      nodes (snd (addNodeGeneric r now type data None (Some sourceId) None s))
      = nodes s ++ [ Node.mk (idOf now type None) type
                       (placement r (pushHistory r s) (Some sourceId))
                       (newNodeData r type data) false ] /\
      edges (snd (addNodeGeneric r now type data None (Some sourceId) None s))
      = edges s ++ [ newEdge sourceId (idOf now type None) ]).
    { intros type data. split; [|split].
      - unfold placement. rewrite (Placement.present_id sourceId Hid).
        change (getNode (pushHistory r s) sourceId) with (getNode s sourceId).
        rewrite Hfound. reflexivity.
      - apply Creation.adds_one_node.
      - rewrite Creation.adds_edge_to_parent.
        now rewrite (Placement.present_id sourceId Hid). }
    destruct Haction as [-> | ->].
    + cbn [String.eqb Ascii.eqb Bool.eqb].
      destruct (Hpos (Js.Str "slides")
                  [ ("topic", Js.or_else (Js.get "topic" (Node.data sourceNode))
                                         (Js.Str "General Topic"));
                    ("context", Js.get "markdownContent" payload) ])
        as (Hp & Hn & He).
      eexists. split; [exact Hn|]. split; [exact He|].
      cbn [Node.position Node.type Node.data Node.id].
      split; [exact Hp|]. split; [|discriminate].
      intros _. split; [reflexivity|].
      rewrite !Defaults.kept_by_newNodeData by discriminate.
      cbn [Js.get String.eqb Ascii.eqb Bool.eqb]. split; [|reflexivity].
      unfold Js.or_else.
      destruct (Js.truthy (Js.get "topic" (Node.data sourceNode))) eqn:E;
        [exact E|reflexivity].
    + cbn [String.eqb Ascii.eqb Bool.eqb].
      destruct (Hpos (Js.Str "code")
                  [ ("language", Js.Str "python");
                    ("code", Js.or_else (Js.get "code" payload)
                                        (Js.Str "# Start coding..."));
                    ("context", Js.get "context" payload) ])
        as (Hp & Hn & He).
      eexists. split; [exact Hn|]. split; [exact He|].
      cbn [Node.position Node.type Node.data Node.id].
      split; [exact Hp|]. split; [discriminate|].
      intros _. split; [reflexivity|].
      rewrite !Defaults.kept_by_newNodeData by discriminate.
      cbn [Js.get String.eqb Ascii.eqb Bool.eqb]. split; [reflexivity|].
      unfold Js.or_else.
      destruct (Js.truthy (Js.get "code" payload)) eqn:E;
        [exact E|reflexivity].
Qed.

(* ================================================================== *)
(** * The media node *)
(* ================================================================== *)

(** X19: what the media node shows.  With an empty URL [handleAnalyze]
    does nothing.  Otherwise the node stops loading and shows the text
    [analyzeMedia] has resolved with, which is the case whenever the client
    is built and what is thrown inside [analyzeMedia] has a readable
    message; when [analyzeMedia] rejects, the node shows "Error: " and the
    text of what was thrown, for an [Error] object with a name and a
    message "Error: name: message", and nothing when that value has no
    text.  So the "Error: ..." text of the node is shown when
    [getAIClient()] throws. *)
Theorem media_node_shows_the_answer_or_the_error :
  forall (env : Media.Env) (st : MediaNode.State),
    let result := Media.analyzeMedia env (MediaNode.url st) (MediaNode.type st)
                    MediaNode.prompt in
    let st' := MediaNode.handleAnalyze env st in
    (MediaNode.url st = "" -> st' = st) /\
    (MediaNode.url st <> "" ->
     MediaNode.isLoading st' = false /\
     MediaNode.url st' = MediaNode.url st /\
     MediaNode.type st' = MediaNode.type st /\
     (forall text, result = Media.Returns text -> MediaNode.analysis st' = text) /\
     (forall name message,
         result = Media.Throws (Media.ErrorObject name message) ->
         name <> "" -> message <> "" ->
         MediaNode.analysis st' = ("Error: " ++ name ++ ": " ++ message)%string) /\
     (forall error,
         Media.getAIClient env = Some error ->
         MediaNode.analysis st'
         = match MediaNode.errorText error with
           | Some text => ("Error: " ++ text)%string
           | None => ""
           end) /\
     (Media.getAIClient env = None ->
      (forall thrown,
          Media.attempt env (MediaNode.url st) (MediaNode.type st)
            MediaNode.prompt = Media.Throws thrown ->
          Media.readable thrown) ->
      exists text, result = Media.Returns text /\ MediaNode.analysis st' = text)).
Proof.
  intros env st result st'. subst result st'. unfold MediaNode.handleAnalyze.
  split; [now intros ->|].
  intros H. apply String.eqb_neq in H. rewrite H.
  cbn [MediaNode.isLoading MediaNode.url MediaNode.type MediaNode.analysis].
  split; [reflexivity|]. split; [reflexivity|]. split; [reflexivity|].
  split; [now intros text ->|]. split; [|split].
  - intros name message -> Hname Hmessage. cbn [MediaNode.errorText].
    apply String.eqb_neq in Hname, Hmessage. now rewrite Hname, Hmessage.
  - intros error Herror. unfold Media.analyzeMedia, Media.withClient.
    now rewrite Herror.
  - intros Hclient Hreadable. unfold Media.analyzeMedia, Media.withClient.
    rewrite Hclient.
    destruct (MediaFacts.handled_readable env _ Hreadable) as (text & ->).
    now exists text.
Qed.

(* ================================================================== *)
(** * The attachments of the start node *)
(* ================================================================== *)

Module Attachments.

Lemma filter_index_past {A : Type} (index i : nat) (l : list A) :
  (index < i)%nat -> StartNode.filter_index index i l = l.
Proof.
  revert i. induction l as [|a l IH]; intros i Hi; simpl; [reflexivity|].
  replace (i =? index)%nat with false by (symmetry; apply Nat.eqb_neq; lia).
  now rewrite IH by lia.
Qed.

Lemma filter_index_from {A : Type} (index i : nat) (l : list A) :
  (i <= index)%nat ->
  StartNode.filter_index index i l
  = firstn (index - i) l ++ skipn (S (index - i)) l.
Proof.
  revert i. induction l as [|a l IH]; intros i Hi; simpl.
  - now rewrite firstn_nil.
  - destruct (i =? index)%nat eqn:E.
    + apply Nat.eqb_eq in E. subst i. rewrite Nat.sub_diag. simpl.
      apply filter_index_past. lia.
    + apply Nat.eqb_neq in E.
      rewrite (IH (S i)) by lia.
      replace (index - i)%nat with (S (index - S i)) by lia.
      reflexivity.
Qed.

End Attachments.

(** X20: the attachments of the start node.  [removeAttachment(index)]
    takes out the attachment at that index and keeps the others in their
    order; an index beyond the list changes nothing.  [handleAddUrl] does
    nothing for a blank URL; otherwise it appends one URL attachment and
    clears the input, and removing the last index afterwards gives the
    list back.  An attachment added this way is never sent to the model as
    inline data. *)
Theorem attachments_are_added_and_removed_in_place :
  forall (urlInput : string) (attachments : list Exam.Attachment) (index : nat),
    StartNode.removeAttachment index attachments
    = firstn index attachments ++ skipn (S index) attachments /\
    ((List.length attachments <= index)%nat ->
     StartNode.removeAttachment index attachments = attachments) /\
    (Js.blank urlInput = true ->
     StartNode.handleAddUrl urlInput attachments = (attachments, urlInput)) /\
    (Js.blank urlInput = false ->
     let added := StartNode.handleAddUrl urlInput attachments in
     snd added = "" /\
     (exists att, fst added = attachments ++ [att] /\
                  Exam.att_data att = urlInput /\
                  Exam.sendable att = false) /\
     StartNode.removeAttachment (List.length attachments) (fst added)
     = attachments).
Proof.
  intros urlInput attachments index.
  assert (Hremove : forall i (l : list Exam.Attachment),
            StartNode.removeAttachment i l = firstn i l ++ skipn (S i) l).
  { intros i l. unfold StartNode.removeAttachment.
    rewrite Attachments.filter_index_from by lia. now rewrite Nat.sub_0_r. }
  split; [apply Hremove|]. split; [|split].
  - intros Hlen. rewrite Hremove, firstn_all2 by exact Hlen.
    rewrite skipn_all2 by lia. apply app_nil_r.
  - intros H. unfold StartNode.handleAddUrl. now rewrite H.
  - intros H. cbv zeta. unfold StartNode.handleAddUrl. rewrite H.
    cbn [fst snd]. split; [reflexivity|]. split.
    + eexists. split; [reflexivity|]. split; reflexivity.
    + rewrite Hremove.
      rewrite (skipn_all2 (n := S (List.length attachments)))
        by (rewrite length_app; simpl; lia).
      rewrite firstn_app, Nat.sub_diag, firstn_all. cbn [firstn].
      now rewrite !app_nil_r.
Qed.

(* ================================================================== *)
(** * The quiz node *)
(* ================================================================== *)

Module Quiz.

Import QuizNode.

Lemma unanswered_answers (qz : list QuizQuestion) :
  Forall2 answer_of qz (unanswered (List.length qz)).
Proof.
  induction qz as [|q qz IH]; simpl; constructor; [|exact IH].
  exists (-1)%Z. split; [reflexivity|now left].
Qed.

Lemma copy_answers (qz : list QuizQuestion) (l : list Slot) :
  Forall2 answer_of qz l -> copy l = l.
Proof.
  induction 1 as [|q a qz l (n & -> & _) _ IH]; simpl; [reflexivity|].
  now rewrite IH.
Qed.

Lemma store_answer (qz : list QuizQuestion) (l : list Slot) idx oIdx q :
  Forall2 answer_of qz l ->
  nth_error qz idx = Some q ->
  (oIdx < List.length (q_options q))%nat ->
  Forall2 answer_of qz (store idx (Val (Z.of_nat oIdx)) l).
Proof.
  intros H. revert idx. induction H as [|q0 a qz l Ha Hl IH]; intros idx Hq Ho.
  - destruct idx; discriminate.
  - destruct idx as [|idx]; simpl in *.
    + injection Hq as ->. constructor; [|exact Hl].
      exists (Z.of_nat oIdx). split; [reflexivity|]. right. lia.
    + constructor; [exact Ha|]. now apply IH.
Qed.

Lemma invariant st : reachable st -> Forall2 answer_of (quiz st) (answers st).
Proof.
  induction 1 as [|st outcome _ IH|st idx oIdx q _ IH _ Hq Ho|st _ IH _ _
                  |st _ IH _ _].
  - constructor.
  - destruct outcome as [data|e]; simpl; [apply unanswered_answers|exact IH].
  - unfold select. destruct (submitted st); [exact IH|]. simpl.
    rewrite (copy_answers _ _ IH). now apply (store_answer _ _ idx oIdx q).
  - unfold submit. destruct (includes_minus_one _); exact IH.
  - simpl. apply unanswered_answers.
Qed.

Lemma reduce_answers (before qz : list QuizQuestion) (l : list Slot) (acc : Z) :
  Forall2 answer_of qz l ->
  reduce_from (before ++ qz) (List.length before) l acc
  = (acc + Z.of_nat (matches qz l))%Z.
Proof.
  intros H. revert before acc.
  induction H as [|q a qz l (n & -> & _) _ IH]; intros before acc; simpl.
  - lia.
  - replace (before ++ q :: qz) with ((before ++ [q]) ++ qz)
      by (now rewrite <- app_assoc).
    replace (S (List.length before)) with (List.length (before ++ [q]))
      by (rewrite length_app; simpl; lia).
    rewrite IH. unfold point.
    rewrite <- app_assoc. simpl.
    rewrite nth_error_app2 by lia. rewrite Nat.sub_diag. simpl.
    destruct (n =? q_correctIndex q)%Z; lia.
Qed.

Lemma matches_bound (qz : list QuizQuestion) (l : list Slot) :
  (matches qz l <= List.length qz)%nat.
Proof.
  revert l. induction qz as [|q qz IH]; intros l; simpl; [lia|].
  destruct l as [|[| |n] l]; try lia.
  - specialize (IH l). lia.
  - specialize (IH l). lia.
  - specialize (IH l). destruct (n =? q_correctIndex q)%Z; lia.
Qed.

End Quiz.

(** X21: the answers of the quiz node.  In every state of the component,
    whatever is fetched, clicked, submitted or tried again, [answers] has
    one entry for each question of [quiz], each entry is -1 or the index
    of an option of its question (the array never gets an empty slot), and
    [score] is the number of questions answered as their [correctIndex]
    says, so it never exceeds the number of questions. *)
Theorem quiz_answers_match_the_questions :
  forall st : QuizNode.State,
    QuizNode.reachable st ->
    List.length (QuizNode.answers st) = List.length (QuizNode.quiz st) /\
    Forall2 QuizNode.answer_of (QuizNode.quiz st) (QuizNode.answers st) /\
    QuizNode.score st
    = Z.of_nat (QuizNode.matches (QuizNode.quiz st) (QuizNode.answers st)) /\
    (0 <= QuizNode.score st <= Z.of_nat (List.length (QuizNode.quiz st)))%Z.
Proof.
  intros st Hst. pose proof (Quiz.invariant st Hst) as Hinv.
  assert (Hscore : QuizNode.score st
                   = Z.of_nat (QuizNode.matches (QuizNode.quiz st)
                                 (QuizNode.answers st))).
  { unfold QuizNode.score.
    exact (Quiz.reduce_answers [] (QuizNode.quiz st) (QuizNode.answers st) 0 Hinv). }
  split; [symmetry; exact (Forall2_length Hinv)|].
  split; [exact Hinv|]. split; [exact Hscore|].
  rewrite Hscore.
  pose proof (Quiz.matches_bound (QuizNode.quiz st) (QuizNode.answers st)). lia.
Qed.

Lemma quiz_answers_match_the_questions_witness :
  QuizNode.reachable quiz_answered /\
  QuizNode.answers quiz_answered = [ QuizNode.Val 1; QuizNode.Val 2 ] /\
  QuizNode.score quiz_answered = 1%Z /\
  (0 <= QuizNode.score quiz_answered <= 2)%Z.
Proof.
  assert (H : QuizNode.reachable quiz_answered).
  { unfold quiz_answered.
    apply QuizNode.reach_submit; [|reflexivity|reflexivity].
    eapply QuizNode.reach_select;
      [|reflexivity|reflexivity|simpl; lia].
    eapply QuizNode.reach_select;
      [|reflexivity|reflexivity|simpl; lia].
    apply QuizNode.reach_fetch, QuizNode.reach_initial. }
  split; [exact H|]. split; [reflexivity|]. split; [reflexivity|].
  exact (proj2 (proj2 (proj2 (quiz_answers_match_the_questions quiz_answered H)))).
Defined.

(* ================================================================== *)
(** * services/geminiService.ts: video generation *)
(* ================================================================== *)

Module Polling.

Lemma poll_running env fuel k op0 op :
  Video.after env k op0 = Some op ->
  (forall j, Video.running env op0 (k + j)) ->
  Video.poll env fuel k op = None.
Proof.
  revert k op. induction fuel as [|fuel IH]; intros k op Hop Hrun;
    [reflexivity|]. simpl.
  destruct (Hrun 0%nat) as (op' & Hop' & Hdone). rewrite Nat.add_0_r in Hop'.
  rewrite Hop in Hop'. injection Hop' as <-. rewrite Hdone.
  destruct (Hrun 1%nat) as (op1 & Hop1 & _).
  replace (k + 1)%nat with (S k) in Hop1 by lia. simpl in Hop1.
  rewrite Hop in Hop1.
  destruct (Video.getVideosOperation env k op) as [op2|e] eqn:E; [|discriminate].
  injection Hop1 as Heq. subst op2. apply IH.
  - simpl. now rewrite Hop, E.
  - intros j. replace (S k + j)%nat with (k + S j)%nat by lia. apply Hrun.
Qed.

Lemma poll_done env fuel k n op0 op opn :
  Video.after env k op0 = Some op ->
  Video.after env (k + n) op0 = Some opn ->
  Video.done opn = true ->
  (forall j, (j < n)%nat -> Video.running env op0 (k + j)) ->
  (n < fuel)%nat ->
  Video.poll env fuel k op
  = Some (5000 * Z.of_nat (k + n), Resolved opn)%Z.
Proof.
  revert k n op. induction fuel as [|fuel IH]; intros k n op Hop Hn Hdone Hrun Hf;
    [lia|]. simpl.
  destruct n as [|n].
  - rewrite Nat.add_0_r in Hn. rewrite Hop in Hn. injection Hn as Heq.
    subst opn. rewrite Hdone, Nat.add_0_r. reflexivity.
  - destruct (Hrun 0%nat ltac:(lia)) as (op' & Hop' & Hnot).
    rewrite Nat.add_0_r in Hop'. rewrite Hop in Hop'. injection Hop' as <-.
    rewrite Hnot.
    assert (Hnext : exists op1, Video.after env (S k) op0 = Some op1).
    { destruct n as [|n].
      - exists opn. now replace (S k) with (k + 1)%nat by lia.
      - destruct (Hrun 1%nat ltac:(lia)) as (op1 & Hop1 & _).
        exists op1. now replace (S k) with (k + 1)%nat by lia. }
    destruct Hnext as (op1 & Hop1). pose proof Hop1 as Hstep.
    simpl in Hstep. rewrite Hop in Hstep.
    destruct (Video.getVideosOperation env k op) as [op2|e] eqn:E; [|discriminate].
    injection Hstep as Heq. subst op2.
    replace (k + S n)%nat with (S k + n)%nat in * by lia.
    apply IH; try assumption; [|lia].
    intros j Hj. replace (S k + j)%nat with (k + S j)%nat by lia.
    apply Hrun. lia.
Qed.

End Polling.

(** X22: the polling loop of [generateVideo].  When the operation is done
    at its [n]-th poll and not before, and no poll throws, the loop ends
    after [n] polls, having waited 5000 ms before each, and the function
    returns the link of the video followed by [&key=] and the API key, or
    [null] when the operation carries no link.  When the operation is
    never done the loop never ends: there is no time limit. *)
Theorem generateVideo_polls_until_done :
  forall (env : Video.Env) (prompt : string) (operation : Video.Operation),
    Video.generateVideos env prompt = Resolved operation ->
    (forall (n : nat) (final : Video.Operation) (fuel : nat),
        Video.after env n operation = Some final ->
        Video.done final = true ->
        (forall j, (j < n)%nat -> Video.running env operation j) ->
        (n < fuel)%nat ->
        Video.generateVideo env fuel prompt
        = Some (5000 * Z.of_nat n,
                Resolved
                  match Js.present (Video.uri final) with
                  | Some downloadLink =>
                      Some (downloadLink ++ "&key="
                              ++ Js.to_string (Video.API_KEY env))%string
                  | None => None
                  end)%Z) /\
    ((forall j, Video.running env operation j) ->
     forall fuel, Video.generateVideo env fuel prompt = None).
Proof.
  intros env prompt operation Hstart. split.
  - intros n final fuel Hfinal Hdone Hrun Hfuel.
    unfold Video.generateVideo. rewrite Hstart.
    rewrite (Polling.poll_done env fuel 0 n operation operation final
               eq_refl Hfinal Hdone Hrun Hfuel).
    reflexivity.
  - intros Hrun fuel. unfold Video.generateVideo. rewrite Hstart.
    now rewrite (Polling.poll_running env fuel 0 operation operation eq_refl Hrun).
Qed.

Lemma generateVideo_polls_until_done_witness :
  Video.generateVideos video_env "a cell dividing"
  = Resolved {| Video.done := false; Video.uri := None |} /\
  Video.generateVideo video_env 5 "a cell dividing"
  = Some (15000%Z, Resolved (Some "https://videos/1?alt=media&key=k")).
Proof.
  split; [reflexivity|].
  refine (proj1 (generateVideo_polls_until_done video_env "a cell dividing"
                   {| Video.done := false; Video.uri := None |} eq_refl)
            3%nat {| Video.done := true;
                     Video.uri := Some "https://videos/1?alt=media" |}
            5%nat eq_refl eq_refl _ ltac:(lia)).
  intros j Hj. unfold Video.running.
  destruct j as [|[|[|j]]]; [| | |lia]; eexists; split; reflexivity.
Defined.

(* ================================================================== *)
(** * The study chat *)
(* ================================================================== *)

Module Chat.

Import StudyChat.

Lemma pushSources_from (sources : list Source) (chunks : list GroundingChunk) :
  pushSources sources chunks = sources ++ pushSources [] chunks.
Proof.
  unfold pushSources. revert sources.
  induction chunks as [|c chunks IH]; intros sources; simpl.
  - now rewrite app_nil_r.
  - rewrite IH. rewrite (IH (match Js.present (web_uri c) with
                              | Some _ => _
                              | None => []
                              end)).
    destruct (Js.present (web_uri c)); [|reflexivity].
    now rewrite app_assoc.
Qed.

Lemma showReply_fresh cur text sources (pre : list Message) :
  (forall m, In m pre -> msg_id m <> cur) ->
  showReply cur text sources pre = pre.
Proof.
  intros H. unfold showReply. induction pre as [|m pre IH]; [reflexivity|].
  simpl. rewrite IH by (intros x Hx; apply H; now right).
  assert (E : (msg_id m =? cur) = false)
    by (apply String.eqb_neq, H; now left).
  now rewrite E.
Qed.

Lemma showReply_last cur text sources (pre : list Message) role content old :
  (forall m, In m pre -> msg_id m <> cur) ->
  showReply cur text sources
    (pre ++ [ {| msg_id := cur; msg_role := role; msg_content := content;
                 msg_sources := old |} ])
  = pre ++ [ {| msg_id := cur; msg_role := role; msg_content := text;
                msg_sources := if (0 <? List.length sources)%nat
                               then Some sources else None |} ].
Proof.
  intros H. unfold showReply. rewrite map_app.
  fold (showReply cur text sources pre). rewrite (showReply_fresh _ _ _ _ H).
  simpl. now rewrite String.eqb_refl.
Qed.

Lemma readChunks_spec cur (chunks : list Chunk) :
  forall text sources (pre : list Message) role content old,
    (forall m, In m pre -> msg_id m <> cur) ->
    snd (readChunks cur chunks text sources
           (pre ++ [ {| msg_id := cur; msg_role := role;
                        msg_content := content; msg_sources := old |} ]))
    = pre ++ [ {| msg_id := cur; msg_role := role;
                  msg_content := if spoke chunks
                                 then (text ++ replyText chunks)%string
                                 else content;
                  msg_sources :=
                    if spoke chunks
                    then (if (0 <? List.length (sources ++ replySources chunks))%nat
                          then Some (sources ++ replySources chunks) else None)
                    else old |} ].
Proof.
  induction chunks as [|c chunks IH]; intros text sources pre role content old H.
  - reflexivity.
  - cbn [readChunks spoke existsb replySources flat_map].
    unfold replyText. cbn [map]. rewrite PlanFacts.concat_cons.
    fold (replyText chunks). fold (spoke chunks). fold (replySources chunks).
    destruct (Js.present (chunk_text c)) as [t|].
    + cbn [orb]. rewrite showReply_last by exact H. rewrite IH by exact H.
      assert (Hsrc :
        match chunk_grounding c with
        | Some grounding => pushSources sources grounding
        | None => sources
        end ++ replySources chunks
        = sources ++ match chunk_grounding c with
                     | Some grounding => pushSources [] grounding
                     | None => []
                     end ++ replySources chunks).
      { destruct (chunk_grounding c) as [g|]; [|reflexivity].
        now rewrite pushSources_from, <- app_assoc. }
      rewrite Hsrc, PlanFacts.append_append.
      destruct (spoke chunks) eqn:Es; [reflexivity|].
      assert (Hquiet : replyText chunks = "" /\ replySources chunks = []).
      { clear -Es. induction chunks as [|d chunks IHc]; [now split|].
        cbn [spoke existsb] in Es. apply orb_false_iff in Es.
        destruct Es as [Ed Es]. destruct (IHc Es) as [Ht Hs].
        unfold replyText. cbn [map]. rewrite PlanFacts.concat_cons.
        fold (replyText chunks). cbn [replySources flat_map].
        fold (replySources chunks). rewrite Ht, Hs.
        destruct (Js.present (chunk_text d)); [discriminate|]. now split. }
      destruct Hquiet as [-> ->]. rewrite PlanFacts.append_empty.
      rewrite !app_nil_r.
      destruct (chunk_grounding c) as [g|]; [|now rewrite app_nil_r].
      now rewrite <- pushSources_from.
    + cbn [orb append app]. now rewrite IH by exact H.
Qed.

End Chat.

(** X23: how the study chat assembles a streamed reply.  [handleSubmit]
    does nothing for a blank input or while a reply is streaming.
    Otherwise, when no message bears the id of the new reply, the chat
    ends with the old messages, the user's message and one reply whose
    content is the texts of the chunks in their order, chunks without text
    being dropped together with their sources; when the stream breaks, what
    has arrived stays and the message "Error connecting to Gemini." is
    added.  In both cases the input is cleared and streaming is over. *)
Theorem study_chat_assembles_the_reply :
  forall (env : StudyChat.Env) (now_user now_model now_error : Z)
         (st : StudyChat.State),
    (Js.blank (StudyChat.input st) = true \/ StudyChat.isStreaming st = true ->
     StudyChat.handleSubmit env now_user now_model now_error st = st) /\
    (Js.blank (StudyChat.input st) = false ->
     StudyChat.isStreaming st = false ->
     (forall m, In m (StudyChat.messages st) ->
                StudyChat.msg_id m <> Js.dec (now_model + 1)) ->
     now_user <> (now_model + 1)%Z ->
     let reply :=
       StudyChat.streamChatResponse env
         (map (fun m => (StudyChat.msg_role m, StudyChat.msg_content m))
            (StudyChat.messages st))
         (StudyChat.input st) (StudyChat.useSearch st) in
     let chunks := StudyChat.reply_chunks reply in
     let st' := StudyChat.handleSubmit env now_user now_model now_error st in
     StudyChat.input st' = "" /\
     StudyChat.isStreaming st' = false /\
     StudyChat.messages st'
     = StudyChat.messages st
       ++ [ {| StudyChat.msg_id := Js.dec now_user;
               StudyChat.msg_role := "user";
               StudyChat.msg_content := StudyChat.input st;
               StudyChat.msg_sources := None |};
            {| StudyChat.msg_id := Js.dec (now_model + 1);
               StudyChat.msg_role := "model";
               StudyChat.msg_content := StudyChat.replyText chunks;
               StudyChat.msg_sources :=
                 if (0 <? List.length (StudyChat.replySources chunks))%nat
                 then Some (StudyChat.replySources chunks) else None |} ]
       ++ match StudyChat.reply_failure reply with
          | Some _ =>
              [ {| StudyChat.msg_id := Js.dec now_error;
                   StudyChat.msg_role := "model";
                   StudyChat.msg_content := "Error connecting to Gemini.";
                   StudyChat.msg_sources := None |} ]
          | None => []
          end).
Proof.
  intros env now_user now_model now_error st. split.
  - intros H. unfold StudyChat.handleSubmit.
    destruct H as [-> | ->]; [reflexivity|now rewrite orb_true_r].
  - intros Hinput Hidle Hfresh Hclock reply chunks st'. subst st'.
    unfold StudyChat.handleSubmit. rewrite Hinput, Hidle. cbn [orb].
    cbn [StudyChat.msg_content StudyChat.input StudyChat.isStreaming
         StudyChat.messages].
    fold reply. fold chunks.
    split; [reflexivity|]. split; [reflexivity|].
    set (userMsg := {| StudyChat.msg_id := Js.dec now_user;
                       StudyChat.msg_role := "user";
                       StudyChat.msg_content := StudyChat.input st;
                       StudyChat.msg_sources := None |}).
    assert (Hpre : forall m, In m (StudyChat.messages st ++ [userMsg]) ->
                             StudyChat.msg_id m <> Js.dec (now_model + 1)).
    { intros m Hm. apply in_app_or in Hm. destruct Hm as [Hm|[<-|[]]].
      - now apply Hfresh.
      - cbn [StudyChat.msg_id]. intros E. now apply Ids.dec_injective in E. }
    pose proof (Chat.readChunks_spec (Js.dec (now_model + 1)) chunks "" []
                  (StudyChat.messages st ++ [userMsg]) "model" "" None Hpre)
      as Hread.
    rewrite <- app_assoc in Hread. rewrite Hread.
    assert (Hquiet : StudyChat.spoke chunks = false ->
                     StudyChat.replyText chunks = "" /\
                     StudyChat.replySources chunks = []).
    { clear. induction chunks as [|d chunks IHc]; [now split|].
      cbn [StudyChat.spoke existsb]. intros Es.
      apply orb_false_iff in Es. destruct Es as [Ed Es].
      destruct (IHc Es) as [Ht Hs].
      unfold StudyChat.replyText. cbn [map]. rewrite PlanFacts.concat_cons.
      fold (StudyChat.replyText chunks). cbn [StudyChat.replySources flat_map].
      fold (StudyChat.replySources chunks). rewrite Ht, Hs.
      destruct (Js.present (StudyChat.chunk_text d)); [discriminate|].
      now split. }
    cbn [append app].
    destruct (StudyChat.spoke chunks) eqn:Es.
    + destruct (StudyChat.reply_failure reply); rewrite <- !app_assoc;
        reflexivity.
    + destruct (Hquiet eq_refl) as [-> ->].
      destruct (StudyChat.reply_failure reply); rewrite <- !app_assoc;
        reflexivity.
Qed.

(* ================================================================== *)
(** * A prompt typed in the connector menu *)
(* ================================================================== *)

(** X24: a prompt typed in the connector menu.  A blank prompt is
    ignored and the menu stays open.  Any other prompt is interpreted with
    the node the connector came from as its parent: the menu is hidden,
    and then either the notice is shown and the canvas is as it was, or
    one node has been added at the flow position where the connector was
    dropped, with an edge from that node. *)
Theorem menu_prompt_creates_a_child_where_dropped :
  forall (screenToFlowPosition : Z -> Z -> Position.t) (env : Gemini.Env)
         (now_module now_node : Z) (input : string)
         (src : string) (handle : option string) (x y : Z) (c : Canvas),
    src <> "" ->
    let dropped := onConnectEnd {| onPane := true; clientX := x; clientY := y |}
                     (onConnectStart (Some src) handle c) in
    let prompted := menuPrompt screenToFlowPosition env now_module now_node
                      input dropped in
    (Js.blank input = true -> prompted = dropped) /\
    (Js.blank input = false ->
     menuVisible (canvas_state prompted) = false /\
     isProcessingCommand (canvas_state prompted) = false /\
     ((nodes (canvas_state prompted) = nodes (canvas_state c) /\
       edges (canvas_state prompted) = edges (canvas_state c) /\
       notice_shown (canvas_state c) (canvas_state prompted)) \/
      (exists n,
          nodes (canvas_state prompted) = nodes (canvas_state c) ++ [n] /\
          Node.position n = screenToFlowPosition x y /\
          edges (canvas_state prompted)
          = edges (canvas_state c) ++ [ newEdge src (Node.id n) ]))).
Proof.
  intros screenToFlowPosition env now_module now_node input src handle x y c
         Hsrc dropped prompted.
  assert (Hdropped :
    dropped
    = {| canvas_state := setMenuVisible true (canvas_state c);
         menuState := {| menu_x := x; menu_y := y;
                         menu_sourceNodeId := Some src;
                         menu_sourceHandle := handle |};
         connectStartParams := {| start_nodeId := Some src;
                                  start_handleId := handle |} |}).
  { subst dropped. unfold onConnectEnd, onConnectStart.
    cbn [onPane clientX clientY connectStartParams start_nodeId start_handleId
         canvas_state menuState].
    now rewrite (Placement.present_id src Hsrc). }
  subst prompted. unfold menuPrompt. split.
  - intros ->. reflexivity.
  - intros Hblank. rewrite Hblank, Hdropped.
    cbn [canvas_state menuState menu_x menu_y menu_sourceNodeId].
    rewrite (Placement.present_id src Hsrc).
    unfold handleCommandSubmit. rewrite Hblank.
    split; [reflexivity|]. split; [reflexivity|].
    unfold commandDirective.
    destruct (Gemini.interpretAgentCommand env input _) as [cmd|e];
      [|left; repeat split].
    cbn [bind].
    destruct (Js.member cmd "data") as [cmd_data|]; [|left; repeat split].
    destruct (Js.member cmd "type") as [cmd_type|]; [|left; repeat split].
    destruct (Js.template cmd_type); [|left; repeat split].
    right.
    cbn [nodes edges setMenuVisible setIsProcessingCommand setCommandInput].
    rewrite Creation.adds_one_node, Creation.adds_edge_to_parent.
    assert (Hparent : Js.present
                        (Js.present
                           (commandParent
                              (render (setMenuVisible true (canvas_state c)))
                              (Some src))) = Some src).
    { unfold commandParent.
      repeat (rewrite (Placement.present_id src Hsrc); cbv iota beta).
      reflexivity. }
    rewrite Hparent.
    eexists. split; [reflexivity|]. split; reflexivity.
Qed.

Lemma menu_prompt_creates_a_child_where_dropped_witness :
  "start" <> "" /\
  Js.blank "quiz me" = false /\
  menuVisible
    (canvas_state
       (menuPrompt (fun x y => Position.mk (x - 100) (y - 50)) env_down 1 2
          "quiz me"
          (onConnectEnd {| onPane := true; clientX := 900; clientY := 300 |}
             (onConnectStart (Some "start") None initialCanvas))))
  = false.
Proof.
  split; [discriminate|]. split; [reflexivity|].
  exact (proj1 (proj2
           (menu_prompt_creates_a_child_where_dropped
              (fun x y => Position.mk (x - 100) (y - 50)) env_down 1 2
              "quiz me" "start" None 900 300 initialCanvas
              ltac:(discriminate))
           eq_refl)).
Defined.

(* ================================================================== *)
(** * services/geminiService.ts: images *)
(* ================================================================== *)

Module Images.

Lemma firstImage_skips (before rest : list Image.Part) :
  Forall Image.no_image before ->
  Image.firstImage (before ++ rest) = Image.firstImage rest.
Proof.
  induction 1 as [|p before Hp _ IH]; [reflexivity|]. simpl.
  unfold Image.no_image in Hp. now rewrite Hp.
Qed.

End Images.


(* ================================================================== *)
(** * The microphone's samples *)
(* ================================================================== *)

Module PcmFacts.

Lemma power_positive (n : nat) : (0 < 2 ^ Z.of_nat n)%Z.
Proof. apply Z.pow_pos_nonneg; lia. Qed.

Lemma wrap_in_range (int : Z) :
  (-32768 <= int <= 32767)%Z ->
  (if 32768 <=? int mod 65536 then int mod 65536 - 65536
   else int mod 65536)%Z = int.
Proof.
  intros H.
  pose proof (Z.mod_pos_bound int 65536 ltac:(lia)) as Hr.
  pose proof (Z.div_mod int 65536 ltac:(lia)) as Hq.
  destruct (Z.leb_spec 32768 (int mod 65536)); lia.
Qed.

Lemma wrap_above (int : Z) :
  (32768 <= int < 65536)%Z ->
  (if 32768 <=? int mod 65536 then int mod 65536 - 65536
   else int mod 65536)%Z
  = (int - 65536)%Z.
Proof.
  intros H. rewrite Z.mod_small by lia.
  destruct (Z.leb_spec 32768 int); lia.
Qed.

Lemma quot_bounds (a one : Z) :
  (0 < one)%Z ->
  (Z.abs (Z.quot a one * one - a) < one)%Z /\
  ((0 <= a)%Z -> (0 <= Z.quot a one)%Z) /\
  ((a <= 0)%Z -> (Z.quot a one <= 0)%Z).
Proof.
  intros Hone.
  pose proof (Z.quot_rem' a one) as Hqr.
  split; [|split].
  - assert (Hrem : (Z.abs (Z.rem a one) < one)%Z).
    { pose proof (Z.rem_bound_abs a one ltac:(lia)). lia. }
    replace (Z.quot a one * one - a)%Z with (- Z.rem a one)%Z by lia.
    now rewrite Z.abs_opp.
  - intros Ha. apply Z.quot_pos; lia.
  - intros Ha. rewrite <- (Z.opp_involutive a), Z.quot_opp_l by lia.
    pose proof (Z.quot_pos (- a) one ltac:(lia) Hone). lia.
Qed.

Lemma quantised_sample (x : Pcm.Float) :
  Pcm.quantised x (Pcm.toInt16 (Pcm.times_32768 x)).
Proof.
  destruct x as [| |m n]; try reflexivity.
  unfold Pcm.quantised, Pcm.times_32768, Pcm.toInt16.
  set (one := (2 ^ Z.of_nat n)%Z).
  assert (Hone : (0 < one)%Z) by apply power_positive.
  destruct (quot_bounds (m * 32768) one Hone) as (Habs & Hpos & Hneg).
  cbv zeta. split.
  - intros Hm.
    assert (Hrange : (-32768 <= Z.quot (m * 32768) one <= 32767)%Z).
    { split.
      - destruct (Z.le_gt_cases 0 m) as [Hp|Hn]; [specialize (Hpos ltac:(lia)); lia|].
        assert (H : (Z.quot (32768 * - m) one <= 32768)%Z).
        { rewrite Z.mul_comm.
          apply Z.quot_le_upper_bound; [exact Hone|]. nia. }
        replace (m * 32768)%Z with (- (32768 * - m))%Z by lia.
        rewrite Z.quot_opp_l by lia. lia.
      - destruct (Z.le_gt_cases m 0) as [Hn|Hp]; [specialize (Hneg ltac:(lia)); lia|].
        assert (H : (Z.quot (m * 32768) one < 32768)%Z).
        { apply Z.quot_lt_upper_bound; [lia|exact Hone|]. nia. }
        lia. }
    rewrite (wrap_in_range _ Hrange).
    split; [exact Hrange|]. split; [|split].
    + replace (32768 * m)%Z with (m * 32768)%Z by lia. exact Habs.
    + intros H0. apply Hpos. lia.
    + intros H0. apply Hneg. lia.
  - intros Hm.
    assert (Hrange : (32768 <= Z.quot (m * 32768) one < 65536)%Z).
    { split.
      - apply Z.quot_le_lower_bound; [exact Hone|]. nia.
      - apply Z.quot_lt_upper_bound; [lia|exact Hone|]. nia. }
    rewrite (wrap_above _ Hrange).
    replace (32768 * m)%Z with (m * 32768)%Z by lia.
    split; [reflexivity|lia].
Qed.

Lemma bytes_are_bytes (v b : Z) :
  In b (Pcm.bytes_of_int16 v) -> (0 <= b < 256)%Z.
Proof.
  unfold Pcm.bytes_of_int16.
  pose proof (Z.mod_pos_bound v 65536 ltac:(lia)) as Hu.
  intros [<-|[<-|[]]].
  - apply Z.mod_pos_bound. lia.
  - split; [apply Z.div_pos; lia|apply Z.div_lt_upper_bound; lia].
Qed.

Lemma bytes_give_back (v : Z) :
  (-32768 <= v <= 32767)%Z ->
  exists lo hi,
    Pcm.bytes_of_int16 v = [ lo; hi ] /\
    (if 32768 <=? lo + 256 * hi then lo + 256 * hi - 65536 else lo + 256 * hi)%Z
    = v.
Proof.
  intros Hv. unfold Pcm.bytes_of_int16. eexists. eexists.
  split; [reflexivity|].
  replace ((v mod 65536) mod 256 + 256 * (v mod 65536 / 256))%Z
    with (v mod 65536)%Z
    by (pose proof (Z.div_mod (v mod 65536) 256 ltac:(lia)); lia).
  exact (wrap_in_range v Hv).
Qed.

End PcmFacts.

(** X26: [createBlob] does not clamp.  The blob is the base64 text of two
    bytes for each sample, low byte first, each between 0 and 255, from
    which the 16-bit number can be read back.  For a sample in [-1, 1)
    that number is the integer part of 32768 times the sample: it lies
    between -32768 and 32767, less than one step from the exact product,
    and has the sign of the sample; NaN and the infinities give 0.  A
    sample in [1, 2), full scale included, wraps around: its number is the
    integer part less 65536, which is negative. *)
Theorem createBlob_does_not_clamp :
  forall (btoa : list Z -> string) (data : list Pcm.Float),
    exists int16 : list Z,
      Pcm.createBlob btoa data
      = {| Pcm.blob_data := btoa (flat_map Pcm.bytes_of_int16 int16);
           Pcm.blob_mimeType := "audio/pcm;rate=16000" |} /\
      Forall2 Pcm.quantised data int16 /\
      (forall b, In b (flat_map Pcm.bytes_of_int16 int16) -> (0 <= b < 256)%Z) /\
      (forall v, In v int16 -> (-32768 <= v <= 32767)%Z ->
         exists lo hi,
           Pcm.bytes_of_int16 v = [ lo; hi ] /\
           (if 32768 <=? lo + 256 * hi then lo + 256 * hi - 65536
            else lo + 256 * hi)%Z = v).
Proof.
  intros btoa data.
  exists (map (fun x => Pcm.toInt16 (Pcm.times_32768 x)) data).
  split; [reflexivity|]. split; [|split].
  - induction data as [|x data IH]; simpl; constructor; [|exact IH].
    apply PcmFacts.quantised_sample.
  - intros b Hb. apply in_flat_map in Hb. destruct Hb as (v & _ & Hb).
    now apply (PcmFacts.bytes_are_bytes v).
  - intros v _ Hv. now apply PcmFacts.bytes_give_back.
Qed.
